(** * Streaming ingestion core of the soccer-mind client

    A shallow embedding of the stream handling in [src/app/page.tsx]
    ([normalizeResponse], [handleSubmit], [processSSELine],
    [highlightCards]) together with the platform functions it calls
    ([TextDecoder.decode], [String.prototype.split], [trim],
    [startsWith], [slice], [JSON.parse], [fetch] with an
    [AbortController]).

    JavaScript strings are sequences of UTF-16 code units, bytes are
    [Byte.byte], JavaScript objects are finite maps from property names
    to values, React state is an explicit record threaded through the
    handlers, and every [await] of [handleSubmit] is a point at which the
    environment delivers one outcome to the suspended call.

    The earlier copy of the page kept in the repository has the same
    [normalizeResponse] and the same log update; it creates no
    [AbortController]. *)

From stdpp Require Import base option list gmap pretty.
From Stdlib Require Import NArith ZArith Strings.Byte Strings.Ascii Strings.String.
From Stdlib Require Import Floats.SpecFloat.

#[local] Open Scope N_scope.
#[local] Set Warnings "-register-all".

(** ** JavaScript strings *)

(** A string value is its list of UTF-16 code units. *)
Abbreviation jsstring := (list N).

(** Literals of the source, written as Rocq strings of ASCII characters. *)
Definition js (s : string) : jsstring :=
  N_of_ascii <$> list_ascii_of_string s.

(** WhiteSpace and LineTerminator code units, as stripped by
    [String.prototype.trim]. *)
Definition is_white_space (c : N) : bool :=
  (c =? 0x9) || (c =? 0xA) || (c =? 0xB) || (c =? 0xC) || (c =? 0xD)
  || (c =? 0x20) || (c =? 0xA0) || (c =? 0x1680)
  || ((0x2000 <=? c) && (c <=? 0x200A))
  || (c =? 0x2028) || (c =? 0x2029) || (c =? 0x202F) || (c =? 0x205F)
  || (c =? 0x3000) || (c =? 0xFEFF).

Fixpoint trimStart (s : jsstring) : jsstring :=
  match s with
  | [] => []
  | c :: s' => if is_white_space c then trimStart s' else s
  end.

Definition trim (s : jsstring) : jsstring :=
  reverse (trimStart (reverse (trimStart s))).

(** Truthiness of a string: [!s] is [is_empty s]. *)
Definition is_empty (s : jsstring) : bool :=
  match s with [] => true | _ => false end.

Fixpoint startsWith (s p : jsstring) {struct p} : bool :=
  match p with
  | [] => true
  | c :: p' =>
      match s with
      | [] => false
      | d :: s' => (d =? c) && startsWith s' p'
      end
  end.

(** [s.slice(n)] for [0 <= n]. *)
Definition slice (n : nat) (s : jsstring) : jsstring := drop n s.

Definition LF : N := 0xA.

(** [s.split("\n")]: the segments between line feeds; never empty. *)
Fixpoint split (s : jsstring) : list jsstring :=
  match s with
  | [] => [[]]
  | c :: s' =>
      if c =? LF then [] :: split s'
      else match split s' with
           | [] => [[c]]
           | l :: ls => (c :: l) :: ls
           end
  end.

(** [lines.pop()]: the last element (or [undefined]) and the array left. *)
Definition pop {A} (l : list A) : option A * list A :=
  (last l, removelast l).

(** ** TextDecoder (UTF-8, replacement error mode, streaming) *)

Record utf8_decoder := {
  code_point : N;
  bytes_seen : N;
  bytes_needed : N;
  lower_boundary : N;
  upper_boundary : N
}.

Definition utf8_init : utf8_decoder :=
  {| code_point := 0; bytes_seen := 0; bytes_needed := 0;
     lower_boundary := 0x80; upper_boundary := 0xBF |}.

Definition REPLACEMENT : N := 0xFFFD.

(** The handler on a byte while no sequence is in progress. *)
Definition utf8_lead (b : N) : utf8_decoder * list N :=
  if b <=? 0x7F then (utf8_init, [b])
  else if (0xC2 <=? b) && (b <=? 0xDF) then
    ({| code_point := N.land b 0x1F; bytes_seen := 0; bytes_needed := 1;
        lower_boundary := 0x80; upper_boundary := 0xBF |}, [])
  else if (0xE0 <=? b) && (b <=? 0xEF) then
    ({| code_point := N.land b 0xF; bytes_seen := 0; bytes_needed := 2;
        lower_boundary := if b =? 0xE0 then 0xA0 else 0x80;
        upper_boundary := if b =? 0xED then 0x9F else 0xBF |}, [])
  else if (0xF0 <=? b) && (b <=? 0xF4) then
    ({| code_point := N.land b 0x7; bytes_seen := 0; bytes_needed := 3;
        lower_boundary := if b =? 0xF0 then 0x90 else 0x80;
        upper_boundary := if b =? 0xF4 then 0x8F else 0xBF |}, [])
  else (utf8_init, [REPLACEMENT]).

(** One byte through the decoder: the new state and the code points
    emitted.  A byte outside the expected continuation range ends the
    pending sequence with U+FFFD and is then handled again as a lead. *)
Definition utf8_handler (d : utf8_decoder) (b : N) : utf8_decoder * list N :=
  if bytes_needed d =? 0 then utf8_lead b
  else if negb ((lower_boundary d <=? b) && (b <=? upper_boundary d)) then
    let '(d', out) := utf8_lead b in (d', REPLACEMENT :: out)
  else
    let cp := N.lor (N.shiftl (code_point d) 6) (N.land b 0x3F) in
    let seen := bytes_seen d + 1 in
    if seen =? bytes_needed d then (utf8_init, [cp])
    else ({| code_point := cp; bytes_seen := seen;
             bytes_needed := bytes_needed d;
             lower_boundary := 0x80; upper_boundary := 0xBF |}, []).

(** A code point as UTF-16 code units. *)
Definition utf16_units (cp : N) : jsstring :=
  if cp <=? 0xFFFF then [cp]
  else let c := cp - 0x10000 in
       [0xD800 + N.shiftr c 10; 0xDC00 + N.land c 0x3FF].

Record TextDecoder := {
  utf8 : utf8_decoder;
  BOM_seen : bool
}.

(** [new TextDecoder()] *)
Definition new_TextDecoder : TextDecoder :=
  {| utf8 := utf8_init; BOM_seen := false |}.

(** Serialising the decoded code points: the first one is dropped when it
    is the byte order mark. *)
Fixpoint serialize (bom : bool) (cps : list N) : bool * jsstring :=
  match cps with
  | [] => (bom, [])
  | cp :: rest =>
      let '(bom', out) := serialize true rest in
      (bom', (if negb bom && (cp =? 0xFEFF) then [] else utf16_units cp) ++ out)
  end.

Definition decode_byte (td : TextDecoder) (b : byte) : TextDecoder * jsstring :=
  let '(u, cps) := utf8_handler (utf8 td) (Byte.to_N b) in
  let '(bom, out) := serialize (BOM_seen td) cps in
  ({| utf8 := u; BOM_seen := bom |}, out).

(** [decoder.decode(value, { stream: true })]: pending bytes of an
    incomplete sequence stay in the decoder. *)
Fixpoint decode (td : TextDecoder) (value : list byte) : TextDecoder * jsstring :=
  match value with
  | [] => (td, [])
  | b :: rest =>
      let '(td1, s1) := decode_byte td b in
      let '(td2, s2) := decode td1 rest in
      (td2, s1 ++ s2)
  end.

(** ** JavaScript values *)

(** The values that flow through the handlers: what [JSON.parse] returns
    (numbers are IEEE doubles), plus [undefined]. *)
Inductive jsval : Type :=
  | JUndef
  | JNull
  | JBool (b : bool)
  | JNum (x : spec_float)
  | JStr (s : jsstring)
  | JArr (l : list jsval)
  | JObj (m : gmap jsstring jsval).

(** ToBoolean *)
Definition truthy (v : jsval) : bool :=
  match v with
  | JUndef | JNull => false
  | JBool b => b
  | JNum (S754_zero _) | JNum S754_nan => false
  | JNum _ => true
  | JStr s => negb (is_empty s)
  | JArr _ | JObj _ => true
  end.

Definition nullish (v : jsval) : bool :=
  match v with JUndef | JNull => true | _ => false end.

(** [a || b] *)
Definition js_or (a b : jsval) : jsval := if truthy a then a else b.

(** [a ?? b] *)
Definition js_coalesce (a b : jsval) : jsval := if nullish a then b else a.

(** [Array.isArray(v)] *)
Definition isArray (v : jsval) : bool :=
  match v with JArr _ => true | _ => false end.

(** [v === "s"] *)
Definition eq_string (v : jsval) (s : jsstring) : bool :=
  match v with JStr t => bool_decide (t = s) | _ => false end.

(** [v === false] *)
Definition eq_false (v : jsval) : bool :=
  match v with JBool false => true | _ => false end.

(** [typeof v === "string"] *)
Definition is_string (v : jsval) : bool :=
  match v with JStr _ => true | _ => false end.

(** The integer-indexed own properties of an array or of a string. *)
Definition index_props {A} (f : A → jsval) (l : list A) : gmap jsstring jsval :=
  list_to_map (imap (λ i x, (js (pretty i), f x)) l).

(** The own enumerable properties of a value, as copied by the spread
    [{...v}]: those of an object, the elements of an array, the code units
    of a string, and none for [undefined], [null], booleans and numbers. *)
Definition own_props (v : jsval) : gmap jsstring jsval :=
  match v with
  | JObj m => m
  | JArr l => index_props id l
  | JStr s => index_props (λ c, JStr [c]) s
  | _ => ∅
  end.

(** [v.k] on a value that is neither [undefined] nor [null].  The names
    read by this program ([stage], [status], [message], [type], [data],
    [summary], [answer], [highlights], [sources], [success], [error]) are
    not inherited from any prototype, so a read is a read of an own
    property. *)
Definition get (v : jsval) (k : jsstring) : jsval :=
  default JUndef (own_props v !! k).

(** [v.k]: [None] is the TypeError thrown on [undefined] and [null]. *)
Definition member (v : jsval) (k : jsstring) : option jsval :=
  if nullish v then None else Some (get v k).

(** [v?.k] *)
Definition opt_member (v : jsval) (k : jsstring) : jsval :=
  if nullish v then JUndef else get v k.

(** ** Types of the page *)

(** [ApiResponse]: an object; its fields are read by name. *)
Abbreviation ApiResponse := (gmap jsstring jsval).

(** [ThinkingEvent].  The fields are declared [string], but they hold
    whatever the record carried. *)
Record ThinkingEvent := {
  stage : jsval;
  message : jsval;
  status : jsval
}.

(** ** normalizeResponse *)

Definition normalizeResponse (data : jsval) : ApiResponse :=
  let summary :=
    js_coalesce (js_coalesce (opt_member data (js "summary"))
                             (opt_member data (js "answer"))) JNull in
  let highlights :=
    if isArray (opt_member data (js "highlights"))
    then get data (js "highlights") else JArr [] in
  let sources :=
    if isArray (opt_member data (js "sources"))
    then get data (js "sources") else JArr [] in
  <[js "sources" := sources]>
    (<[js "highlights" := highlights]>
      (<[js "summary" := summary]> (own_props data))).

(** ** React state of [Home] *)

Record AppState := {
  apiData : option ApiResponse;
  loading : bool;
  error : option jsstring;
  thinking : list ThinkingEvent;
  streamActive : bool;
  abortController : option nat
}.

Definition initial_state : AppState :=
  {| apiData := None; loading := false; error := None; thinking := [];
     streamActive := false; abortController := None |}.

Definition setApiData (v : option ApiResponse) (st : AppState) : AppState :=
  {| apiData := v; loading := loading st; error := error st;
     thinking := thinking st; streamActive := streamActive st;
     abortController := abortController st |}.

Definition setLoading (v : bool) (st : AppState) : AppState :=
  {| apiData := apiData st; loading := v; error := error st;
     thinking := thinking st; streamActive := streamActive st;
     abortController := abortController st |}.

Definition setError (v : option jsstring) (st : AppState) : AppState :=
  {| apiData := apiData st; loading := loading st; error := v;
     thinking := thinking st; streamActive := streamActive st;
     abortController := abortController st |}.

(** [setThinking(f)] with an updater function. *)
Definition setThinking (f : list ThinkingEvent → list ThinkingEvent)
    (st : AppState) : AppState :=
  {| apiData := apiData st; loading := loading st; error := error st;
     thinking := f (thinking st); streamActive := streamActive st;
     abortController := abortController st |}.

Definition setStreamActive (v : bool) (st : AppState) : AppState :=
  {| apiData := apiData st; loading := loading st; error := error st;
     thinking := thinking st; streamActive := v;
     abortController := abortController st |}.

Definition setAbortController (v : option nat) (st : AppState) : AppState :=
  {| apiData := apiData st; loading := loading st; error := error st;
     thinking := thinking st; streamActive := streamActive st;
     abortController := v |}.

(** [l.slice(-n)]: the last [n] elements. *)
Definition slice_last {A} (n : nat) (l : list A) : list A :=
  drop (List.length l - n)%nat l.

(** ** highlightCards *)

Definition highlightCards (apiData : option ApiResponse) : list jsval :=
  match apiData with
  | None => []
  | Some r =>
      let highlights := default JUndef (r !! js "highlights") in
      if negb (truthy highlights) then []
      else match highlights with
           | JArr hs =>
               (λ h, if is_string h then JObj {[ js "title" := h ]} else h) <$> hs
           | _ => []
           end
  end.

(** ** processSSELine *)

(** What one call of [processSSELine] does to the state: nothing, one
    [setApiData], or one [setThinking]. *)
Inductive update :=
  | Ignore
  | SetApiData (r : ApiResponse)
  | PushThinking (ev : ThinkingEvent).

Definition apply_update (u : update) (st : AppState) : AppState :=
  match u with
  | Ignore => st
  | SetApiData r => setApiData (Some r) st
  | PushThinking ev => setThinking (λ prev, slice_last 12 (prev ++ [ev])) st
  end.

(** The body of the [try] block once [JSON.parse] has returned; [None] is
    a thrown TypeError, which the [catch] swallows. *)
Definition classify_parsed (parsed : jsval) : option update :=
  stage0 ← member parsed (js "stage");
  let stageLike :=
    js_or stage0 (opt_member (opt_member parsed (js "data")) (js "stage")) in
  status0 ← member parsed (js "status");
  let statusLike :=
    js_or status0 (opt_member (opt_member parsed (js "data")) (js "status")) in
  message0 ← member parsed (js "message");
  let messageLike :=
    js_or message0 (opt_member (opt_member parsed (js "data")) (js "message")) in
  type ← member parsed (js "type");
  if eq_string type (js "result") then
    data ← member parsed (js "data");
    let responseData := normalizeResponse data in
    if eq_false (default JUndef (responseData !! js "success")) then
      Some (SetApiData
        (<[js "error" :=
             js_or (default JUndef (responseData !! js "error"))
                   (JStr (js "The API returned an unsuccessful response."))]>
           responseData))
    else Some (SetApiData responseData)
  else if eq_string type (js "thinking") || truthy stageLike then
    Some (PushThinking
      {| stage := js_or stageLike (JStr (js "thinking"));
         message := js_or messageLike (JStr []);
         status := js_or statusLike (JStr (js "info")) |})
  else Some Ignore.

Section WithParser.

(** [JSON.parse]: the value, or [None] for a SyntaxError. *)
Variable JSON_parse : jsstring → option jsval.

Definition classify (data : jsstring) : update :=
  if bool_decide (data = js "[DONE]") || is_empty (trim data) then Ignore
  else match JSON_parse data with
       | None => Ignore
       | Some parsed => default Ignore (classify_parsed parsed)
       end.

Definition processSSELine (data : jsstring) (st : AppState) : AppState :=
  apply_update (classify data) st.

(** The payloads that the loop [for (const line of lines)] hands to
    [processSSELine]. *)
Definition payloads (lines : list jsstring) : list jsstring :=
  slice 6 <$> filter (λ line, startsWith line (js "data: ") = true) lines.

Definition process_lines (lines : list jsstring) (st : AppState) : AppState :=
  foldl (λ st data, processSSELine data st) st (payloads lines).

End WithParser.

(** ** handleSubmit *)

(** An error is known to [handleSubmit] by its [name] only. *)
Definition AbortError : jsstring := js "AbortError".

(** [new Error(...)] has the name ["Error"]. *)
Definition PlainError : jsstring := js "Error".

Definition NO_LIVE_UPDATES : jsstring :=
  js "No live updates available. Try another query.".

(** What [await fetch(...)] delivers: a rejection with the error's name
    (["AbortError"] after [abort()], ["TypeError"] on a network failure),
    or a response with its [ok] flag and whether it has a body. *)
Inductive fetch_outcome :=
  | FetchRejected (name : jsstring)
  | FetchResponse (ok : bool) (has_body : bool).

(** What [await reader.read()] delivers. *)
Inductive read_outcome :=
  | ReadValue (value : list byte)
  | ReadDone
  | ReadRejected (name : jsstring).

(** Where a call of [handleSubmit] is suspended, with its local variables
    [decoder] and [buffer]. *)
Inductive await :=
  | AwaitFetch
  | AwaitRead (decoder : TextDecoder) (buffer : jsstring)
  | Returned.

(** The statements before the first [await]; [controller] is the new
    [AbortController]. *)
Definition submit_prologue (controller : nat) (st : AppState) : AppState :=
  let st := match abortController st with
            | Some _ => setAbortController None st
            | None => st
            end in
  let st := setLoading true st in
  let st := setStreamActive true st in
  let st := setError None st in
  let st := setApiData None st in
  let st := setThinking (λ _, []) st in
  setAbortController (Some controller) st.

(** The same statements in a call whose closure holds [seen] for
    [abortController]: the value of the render that created the handler.
    It is the latest state only when the page has re-rendered since the
    last update of the controller. *)
Definition submit_prologue_seen (seen : option nat) (controller : nat)
    (st : AppState) : AppState :=
  let st := match seen with
            | Some _ => setAbortController None st
            | None => st
            end in
  let st := setLoading true st in
  let st := setStreamActive true st in
  let st := setError None st in
  let st := setApiData None st in
  let st := setThinking (λ _, []) st in
  setAbortController (Some controller) st.

(** The [onClick] of the button Try Another Query: [setApiData(null);
    setThinking([])].  The query and the scroll position are not part of
    the state modelled here. *)
Definition try_another_query (st : AppState) : AppState :=
  setThinking (λ _, []) (setApiData None st).

(** Whether a render from [st] shows that button: [(streamActive ||
    apiData || thinking.length > 0) && apiData?.success === false]. *)
Definition shows_try_another (st : AppState) : bool :=
  (streamActive st
   || match apiData st with Some _ => true | None => false end
   || (0 <? List.length (thinking st))%nat)
  && match apiData st with
     | Some r => eq_false (default JUndef (r !! js "success"))
     | None => false
     end.

(** The [catch] block. *)
Definition catch_block (name : jsstring) (st : AppState) : AppState :=
  let st :=
    if bool_decide (name ≠ AbortError)
    then setError (Some NO_LIVE_UPDATES) st else st in
  let st := setStreamActive false st in
  setLoading false st.

Section Controller.

Variable JSON_parse : jsstring → option jsval.

(** From the resolution of [fetch] to the first [reader.read()]. *)
Definition after_fetch (o : fetch_outcome) (st : AppState) : await * AppState :=
  match o with
  | FetchRejected name => (Returned, catch_block name st)
  | FetchResponse ok has_body =>
      if negb ok then (Returned, catch_block PlainError st)
      else if negb has_body then (Returned, catch_block PlainError st)
      else (AwaitRead new_TextDecoder [], st)
  end.

(** The body of the loop on a chunk: decode, append to [buffer], split,
    keep the last segment as the new [buffer]; the other segments are
    the lines of the [for] loop. *)
Definition feed (decoder : TextDecoder) (buffer : jsstring) (value : list byte)
    : TextDecoder * jsstring * list jsstring :=
  let '(decoder, text) := decode decoder value in
  let buffer := buffer ++ text in
  let '(last_line, lines) := pop (split buffer) in
  let buffer :=
    match last_line with
    | Some l => if is_empty l then [] else l
    | None => []
    end in
  (decoder, buffer, lines).

(** The lines of the [for] loop in the [done] branch. *)
Definition flush (buffer : jsstring) : list jsstring :=
  if negb (is_empty (trim buffer)) then split buffer else [].

(** One turn of the [while (true)] loop, from the resolution of
    [reader.read()] to the next one, or to the end of the call. *)
Definition after_read (o : read_outcome) (decoder : TextDecoder)
    (buffer : jsstring) (st : AppState) : await * AppState :=
  match o with
  | ReadRejected name => (Returned, catch_block name st)
  | ReadDone =>
      let st := process_lines JSON_parse (flush buffer) st in
      let st := setStreamActive false st in
      (Returned, setLoading false st)
  | ReadValue value =>
      let '(decoder, buffer, lines) := feed decoder buffer value in
      (AwaitRead decoder buffer, process_lines JSON_parse lines st)
  end.

(** The reads of one call, in order; outcomes after the call has
    returned are not delivered. *)
Fixpoint reads (os : list read_outcome) (a : await) (st : AppState)
    : await * AppState :=
  match os with
  | [] => (a, st)
  | o :: os' =>
      match a with
      | AwaitRead decoder buffer =>
          let '(a', st') := after_read o decoder buffer st in
          reads os' a' st'
      | _ => (a, st)
      end
  end.

(** One whole call of [handleSubmit] from state [st]. *)
Definition handleSubmit (controller : nat) (fo : fetch_outcome)
    (os : list read_outcome) (st : AppState) : await * AppState :=
  let '(a, st) := after_fetch fo (submit_prologue controller st) in
  reads os a st.

(** The lines that a sequence of chunks hands to the [for] loops, up to
    the pending read, with the decoder and buffer left. *)
Fixpoint feed_all (decoder : TextDecoder) (buffer : jsstring)
    (chunks : list (list byte)) : TextDecoder * jsstring * list jsstring :=
  match chunks with
  | [] => (decoder, buffer, [])
  | value :: chunks' =>
      let '(decoder, buffer, lines) := feed decoder buffer value in
      let '(decoder, buffer, lines') := feed_all decoder buffer chunks' in
      (decoder, buffer, lines ++ lines')
  end.

(** The classified records of the chunks read so far. *)
Definition fed_updates (chunks : list (list byte)) : list update :=
  classify JSON_parse <$> payloads (feed_all new_TextDecoder [] chunks).2.

(** The classified records of a whole stream: the chunks, then [done]. *)
Definition stream_updates (chunks : list (list byte)) : list update :=
  let '(_, buffer, lines) := feed_all new_TextDecoder [] chunks in
  classify JSON_parse <$> payloads (lines ++ flush buffer).

(** A stream that closes after its chunks, as [reader.read()] sees it. *)
Definition closed_stream (chunks : list (list byte)) : list read_outcome :=
  (ReadValue <$> chunks) ++ [ReadDone].

(** *** Overlapping calls

    Each call owns the [AbortController] it created and is identified
    by it.  The page state is shared: [react] is the state after all the
    updates made so far, the one the next render shows.  [rendered] is
    the state of the last render: the handlers and the effect cleanup of
    the page are closures over its values, and the page on screen is
    drawn from it.  Updates to a component that is no longer mounted are
    dropped. *)
Record world := {
  react : AppState;
  rendered : AppState;
  mounted : bool;
  aborted : gset nat;
  calls : gmap nat await;
  fresh : nat
}.

Definition world0 : world :=
  {| react := initial_state; rendered := initial_state; mounted := true;
     aborted := ∅; calls := ∅; fresh := 0%nat |}.

(** [controller.abort()] *)
Definition abort (c : option nat) (s : gset nat) : gset nat :=
  match c with Some c => {[ c ]} ∪ s | None => s end.

Inductive delivery :=
  | ToFetch (o : fetch_outcome)
  | ToRead (o : read_outcome).

(** What the environment does: the form is submitted, a pending promise
    of call [c] settles, React renders the page again, the button Try
    Another Query is clicked, or the component unmounts.  [handleSubmit]
    has no guard of its own, so a submission can come at any time, also
    before the page has rendered again. *)
Inductive action :=
  | Submit
  | Deliver (c : nat) (d : delivery)
  | Render
  | TryAnotherQuery
  | Unmount.

(** The abort semantics of [fetch]: once its controller is aborted, the
    pending [fetch] or [read] of a call can only reject with an
    AbortError; chunks still queued in the body are discarded. *)
Definition permitted (w : world) (c : nat) (d : delivery) : bool :=
  if bool_decide (c ∈ aborted w) then
    match d with
    | ToFetch (FetchRejected name) | ToRead (ReadRejected name) =>
        bool_decide (name = AbortError)
    | _ => false
    end
  else true.

Definition resume (d : delivery) (a : await) (st : AppState)
    : option (await * AppState) :=
  match a, d with
  | AwaitFetch, ToFetch o => Some (after_fetch o st)
  | AwaitRead decoder buffer, ToRead o => Some (after_read o decoder buffer st)
  | _, _ => None
  end.

(** The effect [useEffect(() => () => { if (abortController)
    abortController.abort() }, [abortController])] at a render: when the
    controller differs from the one of the previous render, the cleanup
    installed then runs, on the controller of that render. *)
Definition effect_cleanup (w : world) : gset nat :=
  if bool_decide (abortController (react w) = abortController (rendered w))
  then aborted w
  else abort (abortController (rendered w)) (aborted w).

(** One action; [None] when the action cannot happen in [w].

    - [Submit] runs [handleSubmit] up to [await fetch]: the handler is
      the one of the last render, so the controller it aborts is
      [abortController (rendered w)].
    - [Deliver] resumes call [c]; when the component is unmounted the
      call goes on but its updates are dropped.
    - [Render] makes the latest state the rendered one and runs the
      effect.
    - [TryAnotherQuery] needs the button on the rendered page.
    - [Unmount] runs the cleanup of the last effect. *)
Definition exec (act : action) (w : world) : option world :=
  match act with
  | Submit =>
      if mounted w then
        let c := fresh w in
        let seen := abortController (rendered w) in
        Some {| react := submit_prologue_seen seen c (react w);
                rendered := rendered w; mounted := true;
                aborted := abort seen (aborted w);
                calls := <[c := AwaitFetch]> (calls w);
                fresh := S c |}
      else None
  | Deliver c d =>
      a ← calls w !! c;
      if permitted w c d then
        '(a', st') ← resume d a (react w);
        Some {| react := if mounted w then st' else react w;
                rendered := rendered w; mounted := mounted w;
                aborted := aborted w;
                calls := <[c := a']> (calls w); fresh := fresh w |}
      else None
  | Render =>
      if mounted w then
        Some {| react := react w; rendered := react w; mounted := true;
                aborted := effect_cleanup w;
                calls := calls w; fresh := fresh w |}
      else None
  | TryAnotherQuery =>
      if mounted w && shows_try_another (rendered w) then
        Some {| react := try_another_query (react w);
                rendered := rendered w; mounted := true;
                aborted := aborted w;
                calls := calls w; fresh := fresh w |}
      else None
  | Unmount =>
      if mounted w then
        Some {| react := react w; rendered := rendered w; mounted := false;
                aborted := abort (abortController (rendered w)) (aborted w);
                calls := calls w; fresh := fresh w |}
      else None
  end.

Fixpoint run (acts : list action) (w : world) : option world :=
  match acts with
  | [] => Some w
  | act :: acts' => w' ← exec act w; run acts' w'
  end.

(** The outcomes delivered to call [c] in a trace. *)
Definition deliveries (c : nat) (acts : list action) : list delivery :=
  omap (λ act, match act with
               | Deliver c' d => if bool_decide (c' = c) then Some d else None
               | _ => None
               end) acts.

(** Whether the handlers of the rendered page hold the current
    controller. *)
Definition sees_current (w : world) : bool :=
  bool_decide (abortController (rendered w) = abortController (react w)).

Definition is_submit (act : action) : bool :=
  match act with Submit => true | _ => false end.

(** Every submission of the trace is made on a page that has rendered
    since the controller last changed. *)
Fixpoint submits_see_current (acts : list action) (w : world) : bool :=
  match acts with
  | [] => true
  | act :: acts' =>
      (negb (is_submit act) || sees_current w)
      && match exec act w with
         | Some w' => submits_see_current acts' w'
         | None => true
         end
  end.

(** Promises settling and renders: what happens during a session without
    the user. *)
Definition is_progress (act : action) : bool :=
  match act with Deliver _ _ | Render => true | _ => false end.

(** Call [c] running alone on a list of deliveries. *)
Fixpoint replay (ds : list delivery) (a : await) (st : AppState)
    : await * AppState :=
  match ds with
  | [] => (a, st)
  | d :: ds' =>
      match resume d a st with
      | Some (a', st') => replay ds' a' st'
      | None => (a, st)
      end
  end.

End Controller.

(** The part of the state that shows progress, result and error. *)
Definition observable (st : AppState)
    : list ThinkingEvent * option ApiResponse * option jsstring :=
  (thinking st, apiData st, error st).

(** ** A JSON parser

    [JSON.parse] is a parameter of the handlers above.  This is the
    grammar of ECMA-404 as [JSON.parse] reads it, used to run the
    handlers on concrete streams. *)
Module Json.

Definition is_ws (c : N) : bool :=
  (c =? 0x20) || (c =? 0x9) || (c =? 0xA) || (c =? 0xD).

Fixpoint skip_ws (s : jsstring) : jsstring :=
  match s with
  | [] => []
  | c :: s' => if is_ws c then skip_ws s' else s
  end.

Definition is_digit (c : N) : bool := (0x30 <=? c) && (c <=? 0x39).

Definition hex_digit (c : N) : option N :=
  if is_digit c then Some (c - 0x30)
  else if (0x61 <=? c) && (c <=? 0x66) then Some (c - 0x61 + 10)
  else if (0x41 <=? c) && (c <=? 0x46) then Some (c - 0x41 + 10)
  else None.

(** The character of a one-letter escape. *)
Definition escape (c : N) : option N :=
  if (c =? 0x22) || (c =? 0x5C) || (c =? 0x2F) then Some c
  else if c =? 0x62 then Some 0x8
  else if c =? 0x66 then Some 0xC
  else if c =? 0x6E then Some 0xA
  else if c =? 0x72 then Some 0xD
  else if c =? 0x74 then Some 0x9
  else None.

(** A string after its opening quote: the code units up to the closing
    quote, and the rest of the input. *)
Fixpoint string_body (s : jsstring) : option (jsstring * jsstring) :=
  match s with
  | [] => None
  | c :: s1 =>
      if c =? 0x22 then Some ([], s1)
      else if c =? 0x5C then
        match s1 with
        | [] => None
        | e :: s2 =>
            if e =? 0x75 then
              match s2 with
              | h1 :: h2 :: h3 :: h4 :: s3 =>
                  d1 ← hex_digit h1; d2 ← hex_digit h2;
                  d3 ← hex_digit h3; d4 ← hex_digit h4;
                  '(str, rest) ← string_body s3;
                  Some ((((d1 * 16 + d2) * 16 + d3) * 16 + d4) :: str, rest)
              | _ => None
              end
            else
              ch ← escape e;
              '(str, rest) ← string_body s2;
              Some (ch :: str, rest)
        end
      else if c <? 0x20 then None
      else '(str, rest) ← string_body s1; Some (c :: str, rest)
  end.

(** A run of decimal digits: its value after [acc], its length, the rest. *)
Fixpoint digits (s : jsstring) (acc : N) (len : nat) : N * nat * jsstring :=
  match s with
  | c :: s' =>
      if is_digit c then digits s' (acc * 10 + (c - 0x30)) (S len)
      else (acc, len, s)
  | [] => (acc, len, [])
  end.

(** The double nearest to [m * 10^e], ties to even. *)
Definition double_of_decimal (neg : bool) (m : N) (e : Z) : spec_float :=
  match m with
  | N0 => S754_zero neg
  | Npos p =>
      if (0 <=? e)%Z then
        binary_normalize 53 1024
          ((if neg then Z.neg p else Z.pos p) * 10 ^ e)%Z 0 neg
      else
        match (10 ^ (- e))%Z with
        | Z.pos q =>
            SFdiv 53 1024 (S754_finite neg p 0) (S754_finite false q 0)
        | _ => S754_nan
        end
  end.

Definition number (s : jsstring) : option (spec_float * jsstring) :=
  let '(neg, s) :=
    match s with
    | c :: s' => if c =? 0x2D then (true, s') else (false, s)
    | [] => (false, s)
    end in
  '(int, s) ←
    match s with
    | c :: s' =>
        if c =? 0x30 then Some (0, s')
        else if is_digit c then
          let '(v, _, rest) := digits s 0 0 in Some (v, rest)
        else None
    | [] => None
    end;
  '(mant, scale, s) ←
    match s with
    | c :: s' =>
        if c =? 0x2E then
          let '(v, len, rest) := digits s' int 0 in
          match len with O => None | _ => Some (v, len, rest) end
        else Some (int, O, s)
    | [] => Some (int, O, s)
    end;
  '(exp, s) ←
    match s with
    | c :: s' =>
        if (c =? 0x65) || (c =? 0x45) then
          let '(eneg, s'') :=
            match s' with
            | d :: t =>
                if d =? 0x2D then (true, t)
                else if d =? 0x2B then (false, t) else (false, s')
            | [] => (false, s')
            end in
          let '(v, len, rest) := digits s'' 0 0 in
          match len with
          | O => None
          | _ => Some (if eneg then (- Z.of_N v)%Z else Z.of_N v, rest)
          end
        else Some (0%Z, s)
    | [] => Some (0%Z, s)
    end;
  Some (double_of_decimal neg mant (exp - Z.of_nat scale), s).

(** A value, the elements of an array after its bracket, the members of
    an object after its brace.  [fuel] bounds the nesting; the length of
    the input is enough. *)
Fixpoint value (fuel : nat) (s : jsstring) : option (jsval * jsstring) :=
  match fuel with
  | O => None
  | S fuel =>
      match skip_ws s with
      | [] => None
      | c :: s' =>
          if c =? 0x7B then
            match skip_ws s' with
            | d :: t => if d =? 0x7D then Some (JObj ∅, t)
                        else members fuel (d :: t) ∅
            | [] => None
            end
          else if c =? 0x5B then
            match skip_ws s' with
            | d :: t => if d =? 0x5D then Some (JArr [], t)
                        else elements fuel (d :: t) []
            | [] => None
            end
          else if c =? 0x22 then
            '(str, rest) ← string_body s'; Some (JStr str, rest)
          else if startsWith (c :: s') (js "true") then
            Some (JBool true, drop 4 (c :: s'))
          else if startsWith (c :: s') (js "false") then
            Some (JBool false, drop 5 (c :: s'))
          else if startsWith (c :: s') (js "null") then
            Some (JNull, drop 4 (c :: s'))
          else
            '(x, rest) ← number (c :: s'); Some (JNum x, rest)
      end
  end
with elements (fuel : nat) (s : jsstring) (acc : list jsval)
    : option (jsval * jsstring) :=
  match fuel with
  | O => None
  | S fuel =>
      '(v, rest) ← value fuel s;
      match skip_ws rest with
      | c :: t =>
          if c =? 0x2C then elements fuel t (acc ++ [v])
          else if c =? 0x5D then Some (JArr (acc ++ [v]), t)
          else None
      | [] => None
      end
  end
with members (fuel : nat) (s : jsstring) (acc : gmap jsstring jsval)
    : option (jsval * jsstring) :=
  match fuel with
  | O => None
  | S fuel =>
      match skip_ws s with
      | q :: s1 =>
          if q =? 0x22 then
            '(key, s2) ← string_body s1;
            match skip_ws s2 with
            | c :: s3 =>
                if c =? 0x3A then
                  '(v, rest) ← value fuel s3;
                  match skip_ws rest with
                  | d :: t =>
                      if d =? 0x2C then members fuel t (<[key := v]> acc)
                      else if d =? 0x7D then Some (JObj (<[key := v]> acc), t)
                      else None
                  | [] => None
                  end
                else None
            | [] => None
            end
          else None
      | [] => None
      end
  end.

(** [JSON.parse(text)] *)
Definition parse (text : jsstring) : option jsval :=
  '(v, rest) ← value (S (List.length text)) text;
  if is_empty (skip_ws rest) then Some v else None.

End Json.

(** Test inputs are written with ['] for the double quote. *)
Definition quoted (s : string) : jsstring :=
  (λ c, if c =? 0x27 then 0x22 else c) <$> js s.

(** A text made of ASCII characters, as the bytes of its UTF-8 encoding. *)
Definition ascii_bytes (s : jsstring) : list byte :=
  omap Byte.of_N s.

(** One server-sent line: the prefix, the payload, a line feed. *)
Definition sse_line (payload : string) : list byte :=
  ascii_bytes (js "data: " ++ quoted payload ++ [LF]).


(** ** Sample records and streams *)

Definition progress_line : string :=
  "{'type':'thinking','stage':'fetch','message':'Searching','status':'starting'}".

Definition result_line : string :=
  "{'type':'result','data':{'success':true,'summary':'Team A won 2-1','highlights':['Goal highlight'],'sources':['https://example.com/a']}}".

Definition malformed_line : string := "{'type':'thinking','stage':".

(** A progress record whose top-level [stage] is present and empty. *)
Definition shadowed_line : string :=
  "{'type':'thinking','stage':'','data':{'stage':'fetch'}}".

(** A result record without [data], with a top-level [summary]. *)
Definition bare_result_line : string :=
  "{'type':'result','summary':'at the top level'}".

Definition record_of (line : string) : jsval :=
  default JUndef (Json.parse (quoted line)).

Definition fetch_event : ThinkingEvent :=
  {| stage := JStr (js "fetch"); message := JStr (js "Searching");
     status := JStr (js "starting") |}.

Definition scenario_result : ApiResponse :=
  <[js "success" := JBool true]>
    (<[js "summary" := JStr (js "Team A won 2-1")]>
      (<[js "highlights" := JArr [JStr (js "Goal highlight")]]>
        {[ js "sources" := JArr [JStr (js "https://example.com/a")] ]})).

(** A progress line whose stage is the euro sign, three bytes in UTF-8. *)
Definition euro_stream : list byte :=
  ascii_bytes (js "data: " ++ quoted "{'stage':'")
  ++ [xe2; x82; xac] ++ ascii_bytes (quoted "'}" ++ [LF]).

(** A first session that has read one progress record when a second
    submission arrives, on a page that has rendered in between. *)
Definition overlap_trace : list action :=
  [Submit;
   Render;
   Deliver 0 (ToFetch (FetchResponse true true));
   Deliver 0 (ToRead (ReadValue (sse_line progress_line)));
   Render;
   Submit].



(** ** Auxiliary notions for the statements *)

(** The segment still open at the end of a text. *)
Definition open_line (s : jsstring) : jsstring := default [] (last (split s)).

(** The lines closed by a line feed. *)
Definition closed_lines (s : jsstring) : list jsstring := removelast (split s).

(** [c] put in front of the first segment. *)
Definition cons_head (c : N) (ls : list jsstring) : list jsstring :=
  match ls with
  | [] => [[c]]
  | l :: ls' => (c :: l) :: ls'
  end.

(** The state after a list of classified records. *)
Definition apply_updates (us : list update) (st : AppState) : AppState :=
  foldl (λ st u, apply_update u st) st us.

(** Every call that is still pending and does not own the current
    controller has had its controller aborted. *)
Definition stale_aborted (w : world) : Prop :=
  ∀ c a, calls w !! c = Some a → a ≠ Returned →
         abortController (react w) ≠ Some c → c ∈ aborted w.

(** A property name that starts with a decimal digit, as the index
    properties of arrays and strings do. *)
Definition index_like (k : jsstring) : bool :=
  match k with c :: _ => Json.is_digit c | [] => false end.

(** The precedence that [a || b || c] gives: a value counts when it is
    truthy. *)
Definition truthy_field (top nested dflt : jsval) : jsval :=
  if truthy top then top else if truthy nested then nested else dflt.

(** No record of the list replaces the result. *)
Definition is_result (u : update) : bool :=
  match u with SetApiData _ => true | _ => false end.

Definition no_result (us : list update) : bool :=
  forallb (λ u, negb (is_result u)) us.

(** ** The specification's wording, for comparison with the code *)

(** A field is present when the property exists. *)
Definition present (v : jsval) : bool :=
  match v with JUndef => false | _ => true end.

(** "A field is read from the top level first; if absent, from the nested
    sub-object; if still absent, a default applies." *)
Definition spec_field (top nested dflt : jsval) : jsval :=
  if present top then top else if present nested then nested else dflt.

Definition spec_progress (parsed : jsval) : ThinkingEvent :=
  let nested := opt_member parsed (js "data") in
  {| stage := spec_field (get parsed (js "stage"))
                (opt_member nested (js "stage")) (JStr (js "thinking"));
     message := spec_field (get parsed (js "message"))
                  (opt_member nested (js "message")) (JStr []);
     status := spec_field (get parsed (js "status"))
                 (opt_member nested (js "status")) (JStr (js "info")) |}.

(** "String elements become [{title: element}], object elements pass
    through unchanged." *)
Definition title_card (h : jsval) : jsval :=
  if is_string h then JObj {[ js "title" := h ]} else h.

(** "If the input is an array, map each element; otherwise the result is
    an empty array." *)
Definition spec_highlights (raw : jsval) : jsval :=
  match opt_member raw (js "highlights") with
  | JArr hs => JArr (title_card <$> hs)
  | _ => JArr []
  end.

(** ** Notions for the properties of the read loop and of the state *)

(** [lines.join(sep)] *)
Fixpoint join (sep : jsstring) (ls : list jsstring) : jsstring :=
  match ls with
  | [] => []
  | l :: ls' =>
      match ls' with
      | [] => l
      | _ :: _ => l ++ sep ++ join sep ls'
      end
  end.

(** What the page relies on when it renders a stored result: the two
    lists are arrays, the summary is defined, and an unsuccessful result
    carries an error text. *)
Definition normalized (r : ApiResponse) : Prop :=
  (∃ hs, r !! js "highlights" = Some (JArr hs))
  ∧ (∃ ss, r !! js "sources" = Some (JArr ss))
  ∧ (∃ s, r !! js "summary" = Some s ∧ s ≠ JUndef)
  ∧ (eq_false (default JUndef (r !! js "success")) = true →
     truthy (default JUndef (r !! js "error")) = true).

(** What the log view relies on for an event. *)
Definition displayable (ev : ThinkingEvent) : Prop :=
  truthy (stage ev) = true
  ∧ truthy (status ev) = true
  ∧ (truthy (message ev) = true ∨ message ev = JStr []).

(** ** primaryHighlight *)

(** [highlightCards.find((h) => h.url) || null]: the first card whose
    [url] is truthy.  The outer [None] is the TypeError of reading [url]
    on a [null] card. *)
Fixpoint primaryHighlight (cards : list jsval) : option (option jsval) :=
  match cards with
  | [] => Some None
  | h :: rest =>
      url ← member h (js "url");
      if truthy url then Some (Some h) else primaryHighlight rest
  end.

(** Every card before position [i] is passed over by [find]: reading
    its [url] does not throw and gives a falsy value. *)
Definition passed_over (cards : list jsval) (i : nat) : Prop :=
  ∀ j c, (j < i)%nat → cards !! j = Some c →
         nullish c = false ∧ truthy (get c (js "url")) = false.

(** ** More of [String.prototype] *)

(** [s.includes(sub)] *)
Fixpoint includes (s sub : jsstring) : bool :=
  match s with
  | [] => is_empty sub
  | _ :: s' => startsWith s sub || includes s' sub
  end.

(** Lower case of an ASCII code unit. *)
Definition ascii_lower (c : N) : N :=
  if (0x41 <=? c) && (c <=? 0x5A) then c + 32 else c.

(** Upper case of an ASCII code unit. *)
Definition ascii_upper (c : N) : N :=
  if (0x61 <=? c) && (c <=? 0x7A) then c - 32 else c.

(** What [toLowerCase] is taken to do: on a string of ASCII characters it
    lowers the letters A to Z and keeps everything else.  Its value on
    other strings is left open. *)
Definition lowers_ascii (toLowerCase : jsstring → jsstring) : Prop :=
  ∀ s, Forall (λ c, c < 128) s → toLowerCase s = ascii_lower <$> s.

(** The same for [toUpperCase]. *)
Definition uppers_ascii (toUpperCase : jsstring → jsstring) : Prop :=
  ∀ s, Forall (λ c, c < 128) s → toUpperCase s = ascii_upper <$> s.

(** ** The error line under the form *)

(** What [{error && (error.toLowerCase().includes('memory') ? ... : ...)}]
    renders: nothing, the memory warning, or the message itself. *)
Inductive error_view :=
  | NoErrorLine
  | MemoryWarning
  | ErrorMessage (text : jsstring).

Definition error_line (toLowerCase : jsstring → jsstring)
    (error : option jsstring) : error_view :=
  match error with
  | None => NoErrorLine
  | Some e =>
      if is_empty e then NoErrorLine
      else if includes (toLowerCase e) (js "memory") then MemoryWarning
      else ErrorMessage e
  end.

(** Whenever the page shows itself as loading, the call of the latest
    submission is still pending. *)
Definition loading_has_cause (w : world) : Prop :=
  mounted w = true →
  loading (react w) = true →
  ∃ c a, abortController (react w) = Some c ∧ calls w !! c = Some a
         ∧ a ≠ Returned.

(** [s.split(sep)] for a separator that is not empty: the text between
    the occurrences of [sep], found from the left and not overlapping.
    [skip] counts the code units of a found separator still to pass. *)
Fixpoint split_go (sep : jsstring) (skip : nat) (s : jsstring) : list jsstring :=
  match s with
  | [] => [[]]
  | c :: s' =>
      match skip with
      | S k => split_go sep k s'
      | O =>
          if startsWith s sep
          then [] :: split_go sep (List.length sep - 1) s'
          else cons_head c (split_go sep 0 s')
      end
  end.

Definition split_on (sep s : jsstring) : list jsstring := split_go sep 0 s.

(** The part after the last separator, and the parts closed by one. *)
Definition open_part (sep s : jsstring) : jsstring :=
  default [] (last (split_on sep s)).

Definition closed_parts (sep s : jsstring) : list jsstring :=
  removelast (split_on sep s).

(** ** The earlier page

    [handleSubmit] of the earlier copy of the page: records are separated
    by a blank line, nothing is cancelled, nothing is read after the
    stream closes. *)
Module Legacy.

(** ["\n\n"] *)
Definition BLANK_LINE : jsstring := [LF; LF].

Definition COULD_NOT_REACH : jsstring :=
  js "Could not reach the Soccer LLM Analyst API.".

(** [line.replace(/^data:\s*/, ...)] with the empty string: the prefix [data:] and the white space after it are removed. *)
Definition strip_data (line : jsstring) : jsstring :=
  if startsWith line (js "data:") then trimStart (drop 5 line) else line.

(** The body of the inner [try] once [JSON.parse] has returned. *)
Definition classify_parsed (json : jsval) : option update :=
  stage0 ← member json (js "stage");
  let stageLike :=
    js_or stage0 (opt_member (opt_member json (js "data")) (js "stage")) in
  status0 ← member json (js "status");
  let statusLike :=
    js_or status0 (opt_member (opt_member json (js "data")) (js "status")) in
  message0 ← member json (js "message");
  let messageLike :=
    js_or message0 (opt_member (opt_member json (js "data")) (js "message")) in
  type ← member json (js "type");
  if eq_string type (js "result") then
    data ← member json (js "data");
    Some (SetApiData (normalizeResponse data))
  else if eq_string type (js "thinking") || truthy stageLike then
    Some (PushThinking
      {| stage := js_or stageLike (JStr (js "thinking"));
         message := js_or messageLike (JStr []);
         status := js_or statusLike (JStr (js "info")) |})
  else Some Ignore.

Section WithParser.

Variable JSON_parse : jsstring → option jsval.

(** One turn of [for (const raw of messages)]. *)
Definition classify_message (raw : jsstring) : update :=
  let line := trim raw in
  if negb (startsWith line (js "data:")) then Ignore
  else
    let payload := strip_data line in
    match JSON_parse payload with
    | None => Ignore
    | Some json => default Ignore (classify_parsed json)
    end.

Definition process_messages (messages : list jsstring) (st : AppState)
    : AppState :=
  foldl (λ st raw, apply_update (classify_message raw) st) st messages.

(** The statements before [try]. *)
Definition submit_prologue (st : AppState) : AppState :=
  let st := setLoading true st in
  let st := setStreamActive true st in
  let st := setError None st in
  let st := setApiData None st in
  setThinking (λ _, []) st.

(** The [finally] block. *)
Definition finally_block (st : AppState) : AppState :=
  let st := setLoading false st in
  setStreamActive false st.

(** The [catch] block, followed by [finally]. *)
Definition catch_block (st : AppState) : AppState :=
  finally_block (setError (Some COULD_NOT_REACH) st).

Definition after_fetch (o : fetch_outcome) (st : AppState) : await * AppState :=
  match o with
  | FetchRejected _ => (Returned, catch_block st)
  | FetchResponse ok has_body =>
      if negb ok || negb has_body then (Returned, catch_block st)
      else (AwaitRead new_TextDecoder [], st)
  end.

(** The body of the loop on a chunk. *)
Definition feed (decoder : TextDecoder) (buffer : jsstring) (value : list byte)
    : TextDecoder * jsstring * list jsstring :=
  let '(decoder, text) := decode decoder value in
  let buffer := buffer ++ text in
  let '(last_message, messages) := pop (split_on BLANK_LINE buffer) in
  let buffer := default [] last_message in
  (decoder, buffer, messages).

Definition after_read (o : read_outcome) (decoder : TextDecoder)
    (buffer : jsstring) (st : AppState) : await * AppState :=
  match o with
  | ReadRejected _ => (Returned, catch_block st)
  | ReadDone => (Returned, finally_block st)
  | ReadValue value =>
      let '(decoder, buffer, messages) := feed decoder buffer value in
      (AwaitRead decoder buffer, process_messages messages st)
  end.

Fixpoint reads (os : list read_outcome) (a : await) (st : AppState)
    : await * AppState :=
  match os with
  | [] => (a, st)
  | o :: os' =>
      match a with
      | AwaitRead decoder buffer =>
          let '(a', st') := after_read o decoder buffer st in
          reads os' a' st'
      | _ => (a, st)
      end
  end.

(** One whole call of the earlier [handleSubmit]. *)
Definition handleSubmit (fo : fetch_outcome) (os : list read_outcome)
    (st : AppState) : await * AppState :=
  let '(a, st) := after_fetch fo (submit_prologue st) in
  reads os a st.

Fixpoint feed_all (decoder : TextDecoder) (buffer : jsstring)
    (chunks : list (list byte)) : TextDecoder * jsstring * list jsstring :=
  match chunks with
  | [] => (decoder, buffer, [])
  | value :: chunks' =>
      let '(decoder, buffer, messages) := feed decoder buffer value in
      let '(decoder, buffer, messages') := feed_all decoder buffer chunks' in
      (decoder, buffer, messages ++ messages')
  end.

(** The classified records of a stream: those of its chunks; the [done]
    branch adds none. *)
Definition stream_updates (chunks : list (list byte)) : list update :=
  classify_message <$> (feed_all new_TextDecoder [] chunks).2.

End WithParser.

End Legacy.

(** ** embedUrl *)

Definition WATCH_MARK : jsstring := js "youtube.com/watch?v=".
Definition SHORT_MARK : jsstring := js "youtu.be/".

(** [`https://www.youtube.com/embed/${id}?autoplay=0`] *)
Definition embed (id : jsstring) : jsstring :=
  js "https://www.youtube.com/embed/" ++ id ++ js "?autoplay=0".

Section EmbedUrl.

(** [new URL(url).searchParams.get("v")]: [None] when the constructor
    throws, [Some None] when there is no such parameter. *)
Variable URL_v : jsstring → option (option jsstring).

(** [embedUrl(url)] for [url] a string or [undefined]; the result [None]
    is [null]. *)
Definition embedUrl (url : option jsstring) : option jsstring :=
  match url with
  | None => None
  | Some url =>
      if is_empty url then None
      else if includes url WATCH_MARK then
        match URL_v url with
        | None => Some url
        | Some videoId =>
            match videoId with
            | Some id => if is_empty id then Some url else Some (embed id)
            | None => Some url
            end
        end
      else if includes url SHORT_MARK then
        let id :=
          match split_on SHORT_MARK url !! 1%nat with
          | Some part => split_on (js "?") part !! 0%nat
          | None => None
          end in
        match id with
        | Some id => if is_empty id then Some url else Some (embed id)
        | None => Some url
        end
      else Some url
  end.

End EmbedUrl.

(** ** normalizeTeam and logoForTeam *)

(** The class [[a-z0-9]]. *)
Definition is_alnum (c : N) : bool :=
  ((0x61 <=? c) && (c <=? 0x7A)) || ((0x30 <=? c) && (c <=? 0x39)).

(** [s.replace(/[class]+/g, rep)]: every maximal run of characters of the
    class becomes one [rep].  [in_run] tells that the run of the current
    character has already been replaced. *)
Fixpoint replace_runs (class : N → bool) (rep : jsstring) (in_run : bool)
    (s : jsstring) : jsstring :=
  match s with
  | [] => []
  | c :: s' =>
      if class c then
        if in_run then replace_runs class rep true s'
        else rep ++ replace_runs class rep true s'
      else c :: replace_runs class rep false s'
  end.

(** The entries of the object literal [LOGO_ALIASES], in source order. *)
Definition LOGO_ENTRIES : list (jsstring * jsstring) :=
  [
   (js "arsenal", js "arsenal");
   (js "arsenal fc", js "arsenal");
   (js "aston villa", js "aston-villa");
   (js "aston villa fc", js "aston-villa");
   (js "ac milan", js "ac-milan");
   (js "milan", js "ac-milan");
   (js "athletic bilbao", js "athletic-bilbao");
   (js "bilbao", js "athletic-bilbao");
   (js "atalanta", js "atalanta");
   (js "barcelona", js "barcelona");
   (js "fc barcelona", js "barcelona");
   (js "barca", js "barcelona");
   (js "bayer leverkusen", js "bayer-leverkusen");
   (js "leverkusen", js "bayer-leverkusen");
   (js "bayern", js "bayern");
   (js "bayern munich", js "bayern");
   (js "fc bayern", js "bayern");
   (js "benfica", js "benfica");
   (js "real betis", js "betis");
   (js "betis", js "betis");
   (js "bournemouth", js "bournemouth");
   (js "brighton", js "brighton");
   (js "brighton & hove albion", js "brighton");
   (js "burnley", js "burnley");
   (js "brentford", js "brentford");
   (js "brentford fc", js "brentford");
   (js "brentford football club", js "brentford");
   (js "brentford fc cf", js "brentford");
   (js "chelsea", js "chelsea");
   (js "chelsea fc", js "chelsea");
   (js "chelsea football club", js "chelsea");
   (js "chelsea fc cf", js "chelsea");
   (js "crystal palace", js "crystal-palace");
   (js "palace", js "crystal-palace");
   (js "crystal palace fc", js "crystal-palace");
   (js "crystal palace football club", js "crystal-palace");
   (js "crystal palace fc cf", js "crystal-palace");
   (js "borussia dortmund", js "dortmund");
   (js "dortmund", js "dortmund");
   (js "fc dortmund", js "dortmund");
   (js "espanyol", js "espanyol");
   (js "espanyol barcelona", js "espanyol");
   (js "everton", js "everton");
   (js "everton fc", js "everton");
   (js "everton football club", js "everton");
   (js "everton fc cf", js "everton");
   (js "inter miami", js "inter-miami");
   (js "inter miami cf", js "inter-miami");
   (js "inter milan", js "inter-milan");
   (js "inter", js "inter-milan");
   (js "inter fc", js "inter-milan");
   (js "fc internazionale", js "inter-milan");
   (js "galatasaray", js "galatasaray");
   (js "galatasaray fc", js "galatasaray");
   (js "galatasaray football club", js "galatasaray");
   (js "galatasaray fc cf", js "galatasaray");
   (js "galatasaray afc", js "galatasaray");
   (js "juventus", js "juventus");
   (js "juve", js "juventus");
   (js "leeds", js "leeds");
   (js "leeds united", js "leeds");
   (js "leicester", js "leicester");
   (js "leicester city", js "leicester");
   (js "rb leipzig", js "leipzig");
   (js "leipzig", js "leipzig");
   (js "liverpool", js "liverpool");
   (js "liverpool fc", js "liverpool");
   (js "manchester city", js "manchester-city");
   (js "man city", js "manchester-city");
   (js "city", js "manchester-city");
   (js "manchester united", js "manchester-united");
   (js "man united", js "manchester-united");
   (js "man utd", js "manchester-united");
   (js "man u", js "manchester-united");
   (js "newcastle", js "newcastle");
   (js "newcastle united", js "newcastle");
   (js "psg", js "psg");
   (js "paris saint-germain", js "psg");
   (js "real madrid", js "real-madrid");
   (js "madrid", js "real-madrid");
   (js "as roma", js "roma");
   (js "roma", js "roma");
   (js "sevilla", js "sevilla");
   (js "valencia", js "valencia");
   (js "tottenham", js "tottenham");
   (js "tottenham hotspur", js "tottenham");
   (js "spurs", js "tottenham");
   (js "west ham", js "westham-united");
   (js "west ham united", js "westham-united");
   (js "bournemouth afc", js "bournemouth");
   (js "bournemouth football club", js "bournemouth");
   (js "bournemouth fc cf", js "bournemouth");
   (js "afc bournemouth", js "bournemouth");
   (js "wolves", js "wolves");
   (js "wolverhampton wanderers", js "wolves");
   (js "wolverhampton", js "wolves");
   (js "sunderland", js "sunderland");
   (js "bayer 04 leverkusen", js "bayer-leverkusen");
   (js "fc bayern munich", js "bayern");
   (js "fc porto", js "porto");
   (js "celta de vigo", js "celta-vigo");
   (js "celta", js "celta-vigo");
   (js "celta de vigo fc", js "celta-vigo");
   (js "celta de vigo cf", js "celta-vigo");
   (js "celta vigo", js "celta-vigo")
  ].

Definition LOGO_ALIASES : gmap jsstring jsstring := list_to_map LOGO_ENTRIES.

(** What [LOGO_ALIASES[norm]] can be for a normalised name: a string of
    the table, or the constructor that every object inherits. *)
Inductive alias_value :=
  | AliasString (mapped : jsstring)
  | ObjectConstructor.

Section Teams.

Variable toLowerCase : jsstring → jsstring.

(** The text of [`${Object}`], which the platform chooses. *)
Variable Object_text : jsstring.

Definition normalizeTeam (name : option jsstring) : jsstring :=
  match name with
  | None => []
  | Some name =>
      let norm :=
        trim (replace_runs (λ c, negb (is_alnum c)) (js " ") false
                (toLowerCase name)) in
      if is_empty norm then [] else norm
  end.

(** [LOGO_ALIASES[norm]] for [norm] made of lower-case letters, digits
    and spaces: among the inherited properties only [constructor] has
    such a name. *)
Definition alias_of (norm : jsstring) : option alias_value :=
  match LOGO_ALIASES !! norm with
  | Some mapped => Some (AliasString mapped)
  | None =>
      if bool_decide (norm = js "constructor") then Some ObjectConstructor
      else None
  end.

(** [`/logos/${x}.png`] *)
Definition logo_path (x : jsstring) : jsstring := js "/logos/" ++ x ++ js ".png".

(** [norm.replace(/\s+/g, "-")] *)
Definition slug (norm : jsstring) : jsstring :=
  replace_runs is_white_space (js "-") false norm.

Definition logoForTeam (name : option jsstring) : option jsstring :=
  let norm := normalizeTeam name in
  if is_empty norm then None
  else
    match alias_of norm with
    | Some (AliasString mapped) =>
        if is_empty mapped then Some (logo_path (slug norm))
        else Some (logo_path mapped)
    | Some ObjectConstructor => Some (logo_path Object_text)
    | None => Some (logo_path (slug norm))
    end.

End Teams.

(** A name in the form that [normalizeTeam] returns: lower-case letters,
    digits and single spaces, no space first or last. *)
Definition team_char (c : N) : bool := is_alnum c || (c =? 0x20).

Fixpoint single_spaced (s : jsstring) : bool :=
  match s with
  | c :: s' =>
      match s' with
      | d :: _ => negb ((c =? 0x20) && (d =? 0x20)) && single_spaced s'
      | [] => true
      end
  | [] => true
  end.

Definition is_normal (s : jsstring) : bool :=
  forallb team_char s && single_spaced s
  && negb (startsWith s [0x20]) && negb (startsWith (reverse s) [0x20]).

(** The characters of a file name made by [logoForTeam]. *)
Definition slug_char (c : N) : bool := is_alnum c || (c =? 0x2D).

(** [toLowerCase] restricted to what the examples need: ASCII. *)
Definition lower_ascii_only (s : jsstring) : jsstring := ascii_lower <$> s.

(** ** The score of ScoreBanner *)

(** The three code units that the source compares the score with and
    falls back to. *)
Definition SCORE_PLACEHOLDER : jsstring := [0x201A; 0xC4; 0xEC].

(** [x || "0"] for a destructured part of the score. *)
Definition or_zero (part : option jsstring) : jsstring :=
  match part with
  | Some x => if is_empty x then js "0" else x
  | None => js "0"
  end.

(** The two score texts that [ScoreBanner] displays for [meta.score], a
    string or [undefined]; [None] when the banner returns [null] on its
    score test. *)
Definition score_texts (score : option jsstring) : option (jsstring * jsstring) :=
  match score with
  | None => None
  | Some s =>
      if is_empty s || bool_decide (s = SCORE_PLACEHOLDER) || is_empty (trim s)
      then None
      else
        let scoreText := if is_empty s then SCORE_PLACEHOLDER else s in
        let parts := trim <$> split_on (js "-") scoreText in
        Some (or_zero (parts !! 0%nat), or_zero (parts !! 1%nat))
  end.

(** ** More sample inputs *)

(** A session that has received a result. *)
Definition result_trace : list action :=
  [Submit;
   Deliver 0 (ToFetch (FetchResponse true true));
   Deliver 0 (ToRead (ReadValue (sse_line progress_line)));
   Deliver 0 (ToRead (ReadValue (sse_line result_line)))].

(** The progress record without its final line feed. *)
Definition unterminated_chunk : list byte :=
  ascii_bytes (js "data: " ++ quoted progress_line).

(** [new URL(url).searchParams.get("v")] left unmodelled: it throws. *)
Definition no_URL (url : jsstring) : option (option jsstring) := None.

(** A session whose request fails. *)
Definition failed_trace : list action :=
  [Submit; Deliver 0 (ToFetch (FetchRejected (js "TypeError")))].

(** What [`${Object}`] gives in V8. *)
Definition V8_Object_text : jsstring := js "function Object() { [native code] }".

(** A result that reports a failure. *)
Definition failed_result_line : string :=
  "{'type':'result','data':{'success':false,'error':'Out of memory'}}".

(** A session that receives it, and the render that follows. *)
Definition retry_trace : list action :=
  [Submit;
   Deliver 0 (ToFetch (FetchResponse true true));
   Deliver 0 (ToRead (ReadValue (sse_line progress_line)));
   Deliver 0 (ToRead (ReadValue (sse_line failed_result_line)));
   Render].

(** * Properties *)

(** ** Strings and lines *)

Lemma split_cons c s :
  split (c :: s) = if c =? LF then [] :: split s else cons_head c (split s).
Proof. reflexivity. Qed.

Lemma split_nonempty s : split s ≠ [].
Proof.
  destruct s as [|c s]; [done|].
  rewrite split_cons. destruct (c =? LF); [done|].
  by destruct (split s).
Qed.

Lemma removelast_cons_ne {A} (x : A) l : l ≠ [] → removelast (x :: l) = x :: removelast l.
Proof. by destruct l. Qed.

Lemma last_cons_ne {A} (x : A) l : l ≠ [] → last (x :: l) = last l.
Proof. by destruct l. Qed.

Lemma split_app a b :
  split (a ++ b) = closed_lines a ++ split (open_line a ++ b).
Proof.
  unfold closed_lines, open_line.
  induction a as [|c a IH]; [done|].
  rewrite <- app_comm_cons, !split_cons.
  pose proof (split_nonempty a) as Hne.
  destruct (c =? LF) eqn:Hc.
  - rewrite removelast_cons_ne, last_cons_ne by done.
    by rewrite IH.
  - rewrite IH. destruct (split a) as [|l ls] eqn:Hs; [done|].
    destruct ls as [|l' ls]; simpl.
    + by rewrite Hc.
    + done.
Qed.

Lemma open_line_app a b : open_line (a ++ b) = open_line (open_line a ++ b).
Proof.
  unfold open_line at 1. rewrite split_app.
  rewrite last_app.
  pose proof (split_nonempty (open_line a ++ b)) as Hne.
  unfold open_line at 2.
  destruct (last (split (open_line a ++ b))) eqn:Hl; [done|].
  by apply last_None in Hl.
Qed.

Lemma closed_lines_app a b :
  closed_lines (a ++ b) = closed_lines a ++ closed_lines (open_line a ++ b).
Proof.
  unfold closed_lines at 1. rewrite split_app.
  pose proof (split_nonempty (open_line a ++ b)) as Hne.
  unfold closed_lines.
  destruct (split (open_line a ++ b)) as [|x l] using rev_ind; [done|].
  by rewrite app_assoc, !removelast_last.
Qed.

(** ** The streaming decoder *)

Lemma decode_app td a b :
  decode td (a ++ b) =
  let '(td1, s1) := decode td a in
  let '(td2, s2) := decode td1 b in
  (td2, s1 ++ s2).
Proof.
  revert td. induction a as [|x a IH]; intros td; simpl.
  - by destruct (decode td b).
  - destruct (decode_byte td x) as [td1 s1]. rewrite IH.
    destruct (decode td1 a) as [td2 s2].
    destruct (decode td2 b) as [td3 s3].
    by rewrite app_assoc.
Qed.

Lemma decode_nil_r td a : decode td (a ++ []) = decode td a.
Proof. by rewrite app_nil_r. Qed.

(** ** The read loop *)

Section Loop.

Variable JSON_parse : jsstring → option jsval.

Lemma payloads_app l1 l2 : payloads (l1 ++ l2) = payloads l1 ++ payloads l2.
Proof. unfold payloads. by rewrite filter_app, fmap_app. Qed.

Lemma process_lines_updates lines st :
  process_lines JSON_parse lines st =
  apply_updates (classify JSON_parse <$> payloads lines) st.
Proof.
  unfold process_lines, apply_updates, processSSELine.
  by rewrite foldl_fmap.
Qed.

Lemma process_lines_app l1 l2 st :
  process_lines JSON_parse (l1 ++ l2) st =
  process_lines JSON_parse l2 (process_lines JSON_parse l1 st).
Proof. unfold process_lines. by rewrite payloads_app, foldl_app. Qed.

Lemma feed_lines decoder buffer value :
  feed decoder buffer value =
  let '(decoder', text) := decode decoder value in
  (decoder', open_line (buffer ++ text), closed_lines (buffer ++ text)).
Proof.
  unfold feed, pop, open_line, closed_lines.
  destruct (decode decoder value) as [d text].
  destruct (last (split (buffer ++ text))) as [l|]; [|done].
  by destruct l.
Qed.

(** The buffer is the open line of everything decoded so far, and the
    lines handed over are the closed ones, whatever the chunking. *)
Lemma feed_all_lines decoder a chunks :
  ∃ lines,
    feed_all decoder (open_line a) chunks =
      ((decode decoder (List.concat chunks)).1,
       open_line (a ++ (decode decoder (List.concat chunks)).2), lines)
    ∧ closed_lines (a ++ (decode decoder (List.concat chunks)).2)
      = closed_lines a ++ lines.
Proof.
  revert decoder a. induction chunks as [|v cs IH]; intros d a; simpl.
  - exists []. by rewrite !app_nil_r.
  - rewrite feed_lines, decode_app.
    destruct (decode d v) as [d1 t1].
    rewrite <- open_line_app.
    destruct (IH d1 (a ++ t1)) as (lines & Hfeed & Hclosed).
    rewrite Hfeed.
    destruct (decode d1 (List.concat cs)) as [d2 t2]; simpl in *.
    eexists; split; [by rewrite app_assoc|].
    rewrite app_assoc, Hclosed, closed_lines_app.
    by rewrite app_assoc.
Qed.

Lemma feed_all_text chunks :
  feed_all new_TextDecoder [] chunks =
  let '(decoder, text) := decode new_TextDecoder (List.concat chunks) in
  (decoder, open_line text, closed_lines text).
Proof.
  destruct (feed_all_lines new_TextDecoder [] chunks) as (lines & Hfeed & Hclosed).
  change (open_line []) with (@nil N) in Hfeed.
  rewrite Hfeed. simpl in *.
  destruct (decode new_TextDecoder (List.concat chunks)); simpl in *.
  by rewrite Hclosed.
Qed.

(** The records of a stream are those of its decoded text. *)
Lemma stream_updates_text chunks :
  stream_updates JSON_parse chunks =
  let text := (decode new_TextDecoder (List.concat chunks)).2 in
  classify JSON_parse <$> payloads (closed_lines text ++ flush (open_line text)).
Proof.
  unfold stream_updates. rewrite feed_all_text.
  by destruct (decode new_TextDecoder (List.concat chunks)).
Qed.

Lemma reads_returned os st : reads JSON_parse os Returned st = (Returned, st).
Proof. by destruct os. Qed.

Lemma reads_app os1 os2 a st :
  reads JSON_parse (os1 ++ os2) a st =
  let '(a', st') := reads JSON_parse os1 a st in reads JSON_parse os2 a' st'.
Proof.
  revert a st. induction os1 as [|o os1 IH]; intros a st; [done|].
  simpl. destruct a as [|d b|].
  - by destruct os2.
  - destruct (after_read JSON_parse o d b st) as [a' st']. apply IH.
  - by destruct os2.
Qed.

Lemma reads_values chunks decoder buffer st :
  reads JSON_parse (ReadValue <$> chunks) (AwaitRead decoder buffer) st =
  let '(decoder', buffer', lines) := feed_all decoder buffer chunks in
  (AwaitRead decoder' buffer', process_lines JSON_parse lines st).
Proof.
  revert decoder buffer st.
  induction chunks as [|v cs IH]; intros d b st; [done|].
  simpl. destruct (feed d b v) as [[d1 b1] lines1].
  rewrite IH. destruct (feed_all d1 b1 cs) as [[d2 b2] lines2].
  by rewrite process_lines_app.
Qed.

(** A stream that closes leaves the state of its records, with the two
    activity flags cleared. *)
Lemma reads_closed_stream chunks st :
  reads JSON_parse (closed_stream chunks) (AwaitRead new_TextDecoder []) st =
  (Returned,
   setLoading false (setStreamActive false
     (apply_updates (stream_updates JSON_parse chunks) st))).
Proof.
  unfold closed_stream, stream_updates. rewrite reads_app, reads_values.
  destruct (feed_all new_TextDecoder [] chunks) as [[d b] lines]. simpl.
  by rewrite <- process_lines_updates, process_lines_app.
Qed.

(** C1. Chunk invariance: however a byte stream is cut into chunks,
    also inside a multi-byte character or inside a payload, the read
    loop hands the same records in the same order to [processSSELine]
    as it does when the whole stream arrives as one chunk, classifies
    them alike, and ends in the same state. *)
Theorem chunk_invariance (chunks : list (list byte)) (st : AppState) :
  stream_updates JSON_parse chunks = stream_updates JSON_parse [List.concat chunks]
  ∧ reads JSON_parse (closed_stream chunks) (AwaitRead new_TextDecoder []) st
    = reads JSON_parse (closed_stream [List.concat chunks])
        (AwaitRead new_TextDecoder []) st.
Proof.
  assert (stream_updates JSON_parse chunks
          = stream_updates JSON_parse [List.concat chunks]) as Heq.
  { rewrite !stream_updates_text. simpl. by rewrite app_nil_r. }
  split; [done|].
  by rewrite !reads_closed_stream, Heq.
Qed.

End Loop.

(** ** The reducer *)

Lemma apply_updates_snoc us u st :
  apply_updates (us ++ [u]) st = apply_update u (apply_updates us st).
Proof. unfold apply_updates. by rewrite foldl_app. Qed.

Lemma apply_update_error u st : error (apply_update u st) = error st.
Proof. by destruct u. Qed.

Lemma apply_update_flags u st :
  loading (apply_update u st) = loading st
  ∧ streamActive (apply_update u st) = streamActive st
  ∧ abortController (apply_update u st) = abortController st.
Proof. by destruct u. Qed.

Lemma apply_updates_error us st : error (apply_updates us st) = error st.
Proof.
  induction us as [|u us IH] using rev_ind; [done|].
  by rewrite apply_updates_snoc, apply_update_error.
Qed.

Lemma apply_updates_flags us st :
  loading (apply_updates us st) = loading st
  ∧ streamActive (apply_updates us st) = streamActive st
  ∧ abortController (apply_updates us st) = abortController st.
Proof.
  induction us as [|u us IH] using rev_ind; [done|].
  rewrite apply_updates_snoc.
  destruct (apply_update_flags u (apply_updates us st)) as (-> & -> & ->).
  exact IH.
Qed.

(** Without a result record the result stays what it was. *)
Lemma apply_updates_no_result us st :
  no_result us = true → apiData (apply_updates us st) = apiData st.
Proof.
  unfold no_result.
  induction us as [|u us IH] using rev_ind; intros Hno; [done|].
  rewrite forallb_app in Hno. apply andb_prop in Hno as [Hus Hu].
  rewrite apply_updates_snoc.
  destruct u as [|r|ev]; simpl; try by apply IH.
  done.
Qed.

Lemma slice_last_push {A} (l : list A) (x : A) :
  slice_last 12 (slice_last 12 l ++ [x]) = slice_last 12 (l ++ [x]).
Proof.
  unfold slice_last.
  destruct (decide (List.length l ≤ 12)%nat) as [Hle|Hgt].
  - by replace (List.length l - 12)%nat with 0%nat by lia.
  - rewrite !length_app, length_drop. simpl.
    replace (List.length l - (List.length l - 12) + 1 - 12)%nat with 1%nat by lia.
    rewrite !drop_app_le by (rewrite ?length_drop; lia).
    rewrite drop_drop. do 2 f_equal. lia.
Qed.

Lemma thinking_pushes evs st :
  thinking (apply_updates (PushThinking <$> evs) (setThinking (λ _, []) st))
  = slice_last 12 evs.
Proof.
  induction evs as [|ev evs IH] using rev_ind; [done|].
  rewrite fmap_app.
  change (PushThinking <$> [ev]) with [PushThinking ev].
  rewrite apply_updates_snoc. simpl.
  by rewrite IH, slice_last_push.
Qed.

(** C3. Bounded log: after N progress events applied to the empty log,
    the log is the list of events with its first N - 12 dropped, that is
    the min(N, 12) most recent events in arrival order, and its length is
    min(N, 12), so never more than 12. *)
Theorem bounded_log (evs : list ThinkingEvent) (st : AppState) :
  let log :=
    thinking (apply_updates (PushThinking <$> evs) (setThinking (λ _, []) st)) in
  log = drop (List.length evs - 12)%nat evs
  ∧ List.length log = Nat.min (List.length evs) 12
  ∧ (List.length log ≤ 12)%nat.
Proof.
  simpl. rewrite thinking_pushes. unfold slice_last.
  rewrite length_drop. repeat split; lia.
Qed.

(** ** Lines of a text *)

Lemma split_no_LF l : LF ∉ l → split l = [l].
Proof.
  induction l as [|c l IH]; intros Hl; [done|].
  rewrite split_cons.
  destruct (N.eqb_spec c LF) as [->|Hc].
  - exfalso. apply Hl. by left.
  - rewrite IH; [done|]. intros Hin. apply Hl. by right.
Qed.

Lemma split_line l rest : LF ∉ l → split (l ++ LF :: rest) = l :: split rest.
Proof.
  induction l as [|c l IH]; intros Hl; [done|].
  rewrite <- app_comm_cons, split_cons.
  destruct (N.eqb_spec c LF) as [->|Hc].
  - exfalso. apply Hl. by left.
  - rewrite IH; [done|]. intros Hin. apply Hl. by right.
Qed.

Lemma payloads_data p ls :
  payloads ((js "data: " ++ p) :: ls) = p :: payloads ls.
Proof. unfold payloads. rewrite filter_cons_True; reflexivity. Qed.

Section Records.

Variable JSON_parse : jsstring → option jsval.

Lemma classify_malformed data :
  JSON_parse data = None → classify JSON_parse data = Ignore.
Proof.
  intros H. unfold classify. rewrite H.
  by destruct (bool_decide (data = js "[DONE]") || is_empty (trim data)).
Qed.

(** The end-of-stream sentinel is read and dropped like a blank line. *)
Lemma classify_sentinel : classify JSON_parse (js "[DONE]") = Ignore.
Proof. reflexivity. Qed.

(** C7. A malformed record between two records: when the decoded stream
    is the three lines [data: p1], [data: bad], [data: p2] and [bad] is
    rejected by [JSON.parse], the malformed record is ignored, the stream
    yields the classification of [p1], nothing, then that of [p2], and
    the session ends in the state of [p1] then [p2], nothing thrown. *)
Theorem malformed_record_skipped (chunks : list (list byte))
    (p1 bad p2 : jsstring) (st : AppState) :
  LF ∉ p1 → LF ∉ bad → LF ∉ p2 →
  JSON_parse bad = None →
  (decode new_TextDecoder (List.concat chunks)).2
    = (js "data: " ++ p1) ++ LF :: (js "data: " ++ bad) ++ LF
        :: (js "data: " ++ p2) ++ [LF] →
  classify JSON_parse bad = Ignore
  ∧ stream_updates JSON_parse chunks
    = [classify JSON_parse p1; Ignore; classify JSON_parse p2]
  ∧ reads JSON_parse (closed_stream chunks) (AwaitRead new_TextDecoder []) st
    = (Returned,
       setLoading false (setStreamActive false
         (processSSELine JSON_parse p2 (processSSELine JSON_parse p1 st)))).
Proof.
  intros H1 Hb H2 Hbad Htext.
  assert (∀ p, LF ∉ p → LF ∉ js "data: " ++ p) as Hpre.
  { intros p Hp Hin. apply elem_of_app in Hin as [Hin|Hin]; [|done].
    revert Hin. apply (bool_decide_unpack _). by vm_compute. }
  assert (stream_updates JSON_parse chunks
          = [classify JSON_parse p1; Ignore; classify JSON_parse p2]) as Hups.
  { rewrite stream_updates_text. cbv zeta. rewrite Htext.
    unfold closed_lines, open_line.
    rewrite !split_line by (by apply Hpre).
    change (split []) with [@nil N].
    cbn [removelast last default app flush trim trimStart reverse is_empty negb].
    rewrite (payloads_data p1), (payloads_data bad), (payloads_data p2).
    change (payloads (flush (id []))) with (@nil jsstring).
    cbn [fmap list_fmap].
    by rewrite (classify_malformed bad). }
  split; [by apply classify_malformed|]. split; [done|].
  by rewrite reads_closed_stream, Hups.
Qed.

End Records.

(** ** One session *)

Lemma submit_prologue_resets c st :
  submit_prologue c st =
  {| apiData := None; loading := true; error := None; thinking := [];
     streamActive := true; abortController := Some c |}.
Proof. unfold submit_prologue. by destruct (abortController st). Qed.

Lemma catch_block_abort st :
  catch_block AbortError st = setLoading false (setStreamActive false st).
Proof. reflexivity. Qed.

Lemma catch_block_failure name st :
  name ≠ AbortError →
  catch_block name st =
  setLoading false (setStreamActive false (setError (Some NO_LIVE_UPDATES) st)).
Proof. intros H. unfold catch_block. by rewrite bool_decide_eq_true_2. Qed.

Section Session.

Variable JSON_parse : jsstring → option jsval.

Lemma reads_then_rejected chunks name st :
  reads JSON_parse ((ReadValue <$> chunks) ++ [ReadRejected name])
    (AwaitRead new_TextDecoder []) st
  = (Returned, catch_block name (apply_updates (fed_updates JSON_parse chunks) st)).
Proof.
  unfold fed_updates. rewrite reads_app, reads_values.
  destruct (feed_all new_TextDecoder [] chunks) as [[d b] lines]. simpl.
  by rewrite process_lines_updates.
Qed.

Lemma handleSubmit_ok c os st :
  handleSubmit JSON_parse c (FetchResponse true true) os st
  = reads JSON_parse os (AwaitRead new_TextDecoder []) (submit_prologue c st).
Proof. reflexivity. Qed.

Lemma handleSubmit_fetch_rejected c name st :
  handleSubmit JSON_parse c (FetchRejected name) [] st
  = (Returned, catch_block name (submit_prologue c st)).
Proof. reflexivity. Qed.

Lemma handleSubmit_bad_response c ok has_body st :
  ok && has_body = false →
  handleSubmit JSON_parse c (FetchResponse ok has_body) [] st
  = (Returned, catch_block PlainError (submit_prologue c st)).
Proof. by destruct ok, has_body. Qed.

(** C6, as the code has it.  When the fetch succeeds and the stream then
    closes, with or without a sentinel line, and no result record was
    received, the call returns with both activity flags cleared, no
    result and no error message.  The no-live-updates message is what a
    failed transport leaves: a read or a fetch rejected with an error
    other than an AbortError, a response that is not ok, or one without a
    body. *)
Theorem stream_end_without_result (c : nat) (chunks : list (list byte))
    (st : AppState) :
  no_result (stream_updates JSON_parse chunks) = true →
  (∃ st',
     handleSubmit JSON_parse c (FetchResponse true true) (closed_stream chunks) st
       = (Returned, st')
     ∧ error st' = None ∧ apiData st' = None
     ∧ loading st' = false ∧ streamActive st' = false)
  ∧ (∀ name, name ≠ AbortError →
       error (handleSubmit JSON_parse c (FetchResponse true true)
                ((ReadValue <$> chunks) ++ [ReadRejected name]) st).2
         = Some NO_LIVE_UPDATES
       ∧ error (handleSubmit JSON_parse c (FetchRejected name) [] st).2
         = Some NO_LIVE_UPDATES)
  ∧ (∀ ok, error (handleSubmit JSON_parse c (FetchResponse ok false) [] st).2
           = Some NO_LIVE_UPDATES)
  ∧ (∀ has_body,
       error (handleSubmit JSON_parse c (FetchResponse false has_body) [] st).2
         = Some NO_LIVE_UPDATES).
Proof.
  intros Hno. split; [|split; [|split]].
  - eexists. split.
    + rewrite handleSubmit_ok. apply reads_closed_stream.
    + cbn [error apiData loading streamActive setLoading setStreamActive].
      rewrite apply_updates_error, apply_updates_no_result by done.
      by rewrite submit_prologue_resets.
  - intros name Hname. split.
    + rewrite handleSubmit_ok, reads_then_rejected. cbn [snd].
      by rewrite catch_block_failure.
    + rewrite handleSubmit_fetch_rejected. cbn [snd].
      by rewrite catch_block_failure.
  - intros ok. rewrite handleSubmit_bad_response by (by destruct ok).
    cbn [snd]. by rewrite catch_block_failure.
  - intros has_body. rewrite handleSubmit_bad_response by done.
    cbn [snd]. by rewrite catch_block_failure.
Qed.

(** C8. Cancellation: when the pending read is rejected with an
    AbortError after any number of chunks, none of which carried a result
    record, the call returns with both activity flags cleared, no result,
    and no error message; the same holds when the fetch itself is
    rejected with an AbortError. *)
Theorem cancellation_is_not_an_error (c : nat) (chunks : list (list byte))
    (st : AppState) :
  no_result (fed_updates JSON_parse chunks) = true →
  (∃ st',
     handleSubmit JSON_parse c (FetchResponse true true)
       ((ReadValue <$> chunks) ++ [ReadRejected AbortError]) st
       = (Returned, st')
     ∧ error st' = None ∧ apiData st' = None
     ∧ loading st' = false ∧ streamActive st' = false)
  ∧ (∃ st',
     handleSubmit JSON_parse c (FetchRejected AbortError) [] st = (Returned, st')
     ∧ error st' = None ∧ apiData st' = None
     ∧ loading st' = false ∧ streamActive st' = false).
Proof.
  intros Hno. split.
  - eexists. split.
    + rewrite handleSubmit_ok. apply reads_then_rejected.
    + rewrite catch_block_abort.
      cbn [error apiData loading streamActive setLoading setStreamActive].
      rewrite apply_updates_error, apply_updates_no_result by done.
      by rewrite submit_prologue_resets.
  - eexists. split; [apply handleSubmit_fetch_rejected|].
    rewrite catch_block_abort.
    cbn [error apiData loading streamActive setLoading setStreamActive].
    by rewrite submit_prologue_resets.
Qed.

End Session.

(** ** Overlapping sessions *)

Lemma observable_apply_update u st1 st2 :
  observable st1 = observable st2 →
  observable (apply_update u st1) = observable (apply_update u st2).
Proof.
  unfold observable. intros [= Ht Ha He].
  destruct u; simpl; congruence.
Qed.

Lemma observable_apply_updates us st1 st2 :
  observable st1 = observable st2 →
  observable (apply_updates us st1) = observable (apply_updates us st2).
Proof.
  induction us as [|u us IH] using rev_ind; intros H; [done|].
  rewrite !apply_updates_snoc. by apply observable_apply_update, IH.
Qed.

Lemma observable_catch_block name st1 st2 :
  observable st1 = observable st2 →
  observable (catch_block name st1) = observable (catch_block name st2).
Proof.
  unfold observable, catch_block. intros [= Ht Ha He].
  destruct (bool_decide (name ≠ AbortError)); simpl; congruence.
Qed.

Lemma observable_flags b1 b2 st :
  observable (setLoading b1 (setStreamActive b2 st)) = observable st.
Proof. reflexivity. Qed.

Section Overlap.

Variable JSON_parse : jsstring → option jsval.

Lemma resume_pending d a st r : resume JSON_parse d a st = Some r → a ≠ Returned.
Proof. by destruct a. Qed.

Lemma resume_abortController d a st a' st' :
  resume JSON_parse d a st = Some (a', st') →
  abortController st' = abortController st.
Proof.
  destruct a as [|decoder buffer|], d as [o|o]; simpl; try done.
  - intros [= Heq]. destruct o as [name|ok has_body];
      [|destruct ok, has_body]; simpl in Heq; injection Heq as <- <-;
      try done; unfold catch_block; by destruct (bool_decide _).
  - intros [= Heq]. destruct o as [value| |name]; simpl in Heq.
    + destruct (feed decoder buffer value) as [[d1 b1] lines].
      injection Heq as <- <-. rewrite process_lines_updates.
      apply apply_updates_flags.
    + injection Heq as <- <-. simpl. rewrite process_lines_updates.
      apply apply_updates_flags.
    + injection Heq as <- <-. unfold catch_block. by destruct (bool_decide _).
Qed.

(** The observable part of the outcome depends on the observable part of
    the state only, not on the activity flags. *)
Lemma resume_observable d a st1 st2 a' st1' :
  observable st1 = observable st2 →
  resume JSON_parse d a st1 = Some (a', st1') →
  ∃ st2', resume JSON_parse d a st2 = Some (a', st2')
          ∧ observable st1' = observable st2'.
Proof.
  intros Hobs.
  destruct a as [|decoder buffer|], d as [o|o]; simpl; try done.
  - intros [= Heq].
    destruct o as [name|ok has_body]; [|destruct ok, has_body];
      simpl in *; injection Heq as <- <-;
      (eexists; split; [reflexivity|]);
      try by apply observable_catch_block.
    done.
  - intros [= Heq].
    destruct o as [value| |name]; simpl in *.
    + destruct (feed decoder buffer value) as [[d1 b1] lines].
      injection Heq as <- <-. eexists; split; [reflexivity|].
      rewrite !process_lines_updates.
      by apply observable_apply_updates.
    + injection Heq as <- <-. eexists; split; [reflexivity|].
      rewrite !observable_flags.
      rewrite !process_lines_updates. by apply observable_apply_updates.
    + injection Heq as <- <-. eexists; split; [reflexivity|].
      by apply observable_catch_block.
Qed.

Lemma submit_prologue_seen_eq seen c st :
  submit_prologue_seen seen c st = submit_prologue c st.
Proof.
  rewrite submit_prologue_resets. unfold submit_prologue_seen. by destruct seen.
Qed.

Lemma abort_mono (seen : option nat) (s : gset nat) (x : nat) :
  x ∈ s → x ∈ abort seen s.
Proof.
  destruct seen as [c|]; simpl; [|done]. intros H.
  apply elem_of_union. by right.
Qed.

Lemma abort_seen (c : nat) (s : gset nat) : c ∈ abort (Some c) s.
Proof. simpl. apply elem_of_union. left. by apply elem_of_singleton. Qed.

Lemma effect_cleanup_mono w x : x ∈ aborted w → x ∈ effect_cleanup w.
Proof.
  unfold effect_cleanup. destruct (bool_decide _); [done|]. apply abort_mono.
Qed.

Lemma stale_aborted_world0 : stale_aborted world0.
Proof. intros c a H. simpl in H. by rewrite lookup_empty in H. Qed.

(** A submission made on a page that holds the current controller aborts
    the call it supersedes; no other action lets a pending call lose the
    controller without being aborted. *)
Lemma exec_stale_aborted act w w' :
  stale_aborted w →
  (is_submit act = true → sees_current w = true) →
  exec JSON_parse act w = Some w' → stale_aborted w'.
Proof.
  intros Hinv Hsee. destruct act as [|c d| | |]; simpl.
  - destruct (mounted w); [|done].
    intros [= <-] c a. cbn [react calls aborted].
    rewrite submit_prologue_seen_eq, submit_prologue_resets.
    cbn [abortController]. intros Hc Ha Hcur.
    rewrite lookup_insert_ne in Hc by congruence.
    pose proof (Hsee eq_refl) as Hs. apply bool_decide_eq_true_1 in Hs.
    rewrite Hs.
    destruct (decide (abortController (react w) = Some c)) as [->|Hne].
    + apply abort_seen.
    + apply abort_mono. by apply (Hinv c a).
  - destruct (calls w !! c) as [a|] eqn:Hc; simpl; [|done].
    destruct (permitted w c d); [|done].
    destruct (resume JSON_parse d a (react w)) as [[a' st']|] eqn:Hres; simpl; [|done].
    intros [= <-] c2 a2. cbn [react calls aborted].
    assert (abortController (if mounted w then st' else react w)
            = abortController (react w)) as ->.
    { destruct (mounted w); [|done]. by eapply resume_abortController. }
    destruct (decide (c = c2)) as [<-|Hne].
    + intros _ _ Hcur. apply (Hinv c a Hc); [|done].
      by eapply resume_pending.
    + rewrite lookup_insert_ne by done. apply Hinv.
  - destruct (mounted w); [|done].
    intros [= <-] c a. cbn [react calls aborted]. intros Hc Ha Hcur.
    apply effect_cleanup_mono. by apply (Hinv c a).
  - destruct (mounted w && shows_try_another (rendered w)); [|done].
    intros [= <-] c a. cbn [react calls aborted]. intros Hc Ha Hcur.
    by apply (Hinv c a).
  - destruct (mounted w); [|done].
    intros [= <-] c a. cbn [react calls aborted]. intros Hc Ha Hcur.
    apply abort_mono. by apply (Hinv c a).
Qed.

Lemma run_stale_aborted acts w w' :
  stale_aborted w →
  submits_see_current JSON_parse acts w = true →
  run JSON_parse acts w = Some w' → stale_aborted w'.
Proof.
  revert w. induction acts as [|act acts IH]; intros w Hinv; cbn [run submits_see_current].
  - by intros _ [= <-].
  - destruct (exec JSON_parse act w) as [w1|] eqn:Hex; cbn [mbind option_bind]; [|done].
    intros [Hsee Hrest]%andb_true_iff. apply IH; [|done].
    apply (exec_stale_aborted act w w1 Hinv); [|done].
    intros Hact. rewrite Hact in Hsee. exact Hsee.
Qed.

(** A delivery to a call that does not own the current controller can
    only be the rejection of its aborted promise: the call returns and
    the observable state stays. *)
Lemma stale_delivery w c d w' :
  stale_aborted w →
  abortController (react w) ≠ Some c →
  exec JSON_parse (Deliver c d) w = Some w' →
  observable (react w') = observable (react w)
  ∧ abortController (react w') = abortController (react w)
  ∧ calls w' = <[c := Returned]> (calls w)
  ∧ aborted w' = aborted w
  ∧ mounted w' = mounted w.
Proof.
  intros Hinv Hcur. simpl.
  destruct (calls w !! c) as [a|] eqn:Hc; simpl; [|done].
  unfold permitted.
  destruct (resume JSON_parse d a (react w)) as [[a' st']|] eqn:Hres;
    [|by destruct (if bool_decide (c ∈ aborted w) then _ else _)].
  assert (c ∈ aborted w) as Hab.
  { apply (Hinv c a Hc); [|done]. by eapply resume_pending. }
  rewrite bool_decide_eq_true_2 by done.
  destruct a as [|decoder buffer|], d as [o|o]; try done; simpl in Hres.
  - destruct o as [name|ok has_body]; [|done].
    destruct (bool_decide (name = AbortError)) eqn:Hn; simpl; [|done].
    apply bool_decide_eq_true_1 in Hn as ->.
    injection Hres as <- <-. intros [= <-]. by destruct (mounted w).
  - destruct o as [value| |name]; try done.
    destruct (bool_decide (name = AbortError)) eqn:Hn; simpl; [|done].
    apply bool_decide_eq_true_1 in Hn as ->.
    injection Hres as <- <-. intros [= <-]. by destruct (mounted w).
Qed.

(** A call resumed on its own deliveries is the call run alone. *)
Lemma replay_reads os a st :
  replay JSON_parse (ToRead <$> os) a st = reads JSON_parse os a st.
Proof.
  revert a st. induction os as [|o os IH]; intros a st; [done|].
  destruct a as [|decoder buffer|]; try done.
  cbn [fmap list_fmap replay resume reads].
  destruct (after_read JSON_parse o decoder buffer st) as [a' st'].
  apply IH.
Qed.

Lemma replay_handleSubmit c fo os st :
  replay JSON_parse (ToFetch fo :: (ToRead <$> os)) AwaitFetch
    (submit_prologue c st)
  = handleSubmit JSON_parse c fo os st.
Proof.
  unfold handleSubmit. cbn [replay resume].
  destruct (after_fetch fo (submit_prologue c st)) as [a st'].
  apply replay_reads.
Qed.

(** While promises settle and the page renders, the observable state is
    the one that the call owning the controller would produce alone from
    the outcomes delivered to it. *)
Lemma latest_call_only tr w a st B w2 :
  stale_aborted w →
  mounted w = true →
  abortController (react w) = Some B →
  calls w !! B = Some a →
  observable (react w) = observable st →
  forallb is_progress tr = true →
  run JSON_parse tr w = Some w2 →
  observable (react w2)
  = observable (replay JSON_parse (deliveries B tr) a st).2.
Proof.
  revert w a st. induction tr as [|act tr IH];
    intros w a st Hinv Hm Hcur Ha Hobs Hpr.
  - by intros [= <-].
  - cbn [run]. destruct (exec JSON_parse act w) as [w1|] eqn:Hex; [|done].
    cbn [mbind option_bind]. intros Hrun.
    cbn [forallb] in Hpr. apply andb_true_iff in Hpr as [Hact Hpr].
    assert (stale_aborted w1) as Hinv1.
    { apply (exec_stale_aborted act w w1 Hinv); [|done]. by destruct act. }
    destruct act as [|c d| | |]; try done.
    + destruct (decide (c = B)) as [->|Hne].
      * cbn [exec] in Hex. rewrite Ha in Hex. cbn [mbind option_bind] in Hex.
        destruct (permitted w B d); [|done].
        destruct (resume JSON_parse d a (react w)) as [[a' st']|] eqn:Hres; [|done].
        rewrite Hm in Hex. injection Hex as <-.
        destruct (resume_observable _ _ _ _ _ _ Hobs Hres) as (st2' & Hres2 & Hobs').
        unfold deliveries. cbn [omap list_omap].
        rewrite bool_decide_eq_true_2 by done. cbn [replay].
        rewrite Hres2.
        refine (IH _ a' st2' Hinv1 _ _ _ Hobs' Hpr Hrun).
        -- done.
        -- cbn [react]. by rewrite (resume_abortController _ _ _ _ _ Hres).
        -- cbn [calls]. by rewrite lookup_insert_eq.
      * assert (abortController (react w) ≠ Some c) as Hstale by congruence.
        destruct (stale_delivery _ _ _ _ Hinv Hstale Hex)
          as (Ho & Hc & Hcalls & _ & Hm1).
        unfold deliveries. cbn [omap list_omap].
        rewrite bool_decide_eq_false_2 by done.
        refine (IH w1 a st Hinv1 _ _ _ _ Hpr Hrun).
        -- congruence.
        -- congruence.
        -- rewrite Hcalls. by rewrite lookup_insert_ne.
        -- congruence.
    + cbn [exec] in Hex. rewrite Hm in Hex. injection Hex as <-.
      exact (IH _ a st Hinv1 eq_refl Hcur Ha Hobs Hpr Hrun).
Qed.

(** X30. Session isolation holds on a page that renders between
    submissions.  In every state reached by a run whose submissions were
    all made on a page holding the current controller, a promise settling
    for a call of [handleSubmit] other than the one whose controller is
    current leaves the progress log, the result and the error as they
    are; and after a further such submission, while promises settle and
    the page renders, these three are exactly what the submitted call
    produces from its own transport. *)
Theorem session_isolation_when_rendered (acts : list action) (w : world) :
  run JSON_parse acts world0 = Some w →
  submits_see_current JSON_parse acts world0 = true →
  (∀ c d w',
     abortController (react w) ≠ Some c →
     exec JSON_parse (Deliver c d) w = Some w' →
     observable (react w') = observable (react w))
  ∧ (∀ w1 tr w2,
       sees_current w = true →
       exec JSON_parse Submit w = Some w1 →
       forallb is_progress tr = true →
       run JSON_parse tr w1 = Some w2 →
       observable (react w2)
       = observable
           (replay JSON_parse (deliveries (fresh w) tr) AwaitFetch
              (submit_prologue (fresh w) (react w))).2).
Proof.
  intros Hrun Hsee.
  pose proof (run_stale_aborted _ _ _ stale_aborted_world0 Hsee Hrun) as Hinv.
  split.
  - intros c d w' Hstale Hex.
    by destruct (stale_delivery _ _ _ _ Hinv Hstale Hex) as (? & _).
  - intros w1 tr w2 Hcur Hsub Hpr Htr.
    assert (stale_aborted w1) as Hinv1
      by (by apply (exec_stale_aborted Submit w w1 Hinv)).
    cbn [exec] in Hsub. destruct (mounted w); [|done]. injection Hsub as <-.
    refine (latest_call_only tr _ AwaitFetch _ (fresh w) w2 Hinv1 _ _ _ _ Hpr Htr).
    + done.
    + cbn [react]. by rewrite submit_prologue_seen_eq, submit_prologue_resets.
    + cbn [calls]. by rewrite lookup_insert_eq.
    + cbn [react]. by rewrite submit_prologue_seen_eq.
Qed.

End Overlap.

(** ** Values and records *)

Ltac js_ne := let H := fresh in intros H; vm_compute in H; discriminate H.

Lemma js_String c s : js (String c s) = N_of_ascii c :: js s.
Proof. reflexivity. Qed.

Lemma pretty_N_char_digit x : Json.is_digit (N_of_ascii (pretty_N_char x)) = true.
Proof. unfold pretty_N_char. by repeat case_match. Qed.

Lemma pretty_N_go_index_like x s :
  (0 < x)%N ∨ index_like (js s) = true →
  index_like (js (pretty_N_go x s)) = true.
Proof.
  revert s. induction (N.lt_wf_0 x) as [x _ IH]; intros s Hx.
  destruct (decide (x = 0)) as [->|Hpos].
  - rewrite pretty_N_go_0. destruct Hx as [Hx|Hx]; [lia|done].
  - rewrite pretty_N_go_step by lia. apply IH.
    + apply N.div_lt; lia.
    + right. rewrite js_String. apply pretty_N_char_digit.
Qed.

Lemma pretty_nat_index_like (i : nat) : index_like (js (pretty i)) = true.
Proof.
  unfold pretty, pretty_nat, pretty, pretty_N.
  destruct (decide (N.of_nat i = 0)); [done|].
  apply pretty_N_go_index_like. left. lia.
Qed.

(** Arrays and strings have no own property whose name starts with a
    letter. *)
Lemma index_props_named {A} (f : A → jsval) (l : list A) (k : jsstring) :
  index_like k = false → index_props f l !! k = None.
Proof.
  intros Hk. unfold index_props. apply not_elem_of_list_to_map_1.
  intros Hin. apply list_elem_of_fmap in Hin as ([k' v] & -> & Hin).
  apply elem_of_lookup_imap in Hin as (i & x & [= -> ->] & _).
  simpl in Hk. by rewrite pretty_nat_index_like in Hk.
Qed.

Lemma own_props_not_object (data : jsval) (k : jsstring) :
  (∀ m, data ≠ JObj m) → index_like k = false → own_props data !! k = None.
Proof.
  intros Hobj Hk.
  destruct data as [| | | | s | l | m]; simpl;
    rewrite ?lookup_empty, ?index_props_named by done; try done.
  by destruct (Hobj m).
Qed.

Lemma get_not_object (data : jsval) (k : jsstring) :
  (∀ m, data ≠ JObj m) → index_like k = false → get data k = JUndef.
Proof. intros Hobj Hk. unfold get. by rewrite own_props_not_object. Qed.

Lemma opt_member_get v k : opt_member v k = get v k.
Proof. by destruct v. Qed.

Lemma get_typed_not_nullish v k s : get v k = JStr s → nullish v = false.
Proof. by destruct v. Qed.

Lemma normalizeResponse_summary data :
  normalizeResponse data !! js "summary"
  = Some (js_coalesce (js_coalesce (get data (js "summary"))
                                   (get data (js "answer"))) JNull).
Proof.
  unfold normalizeResponse. rewrite !opt_member_get.
  rewrite !lookup_insert_ne by js_ne. by rewrite lookup_insert_eq.
Qed.

Lemma normalizeResponse_highlights data :
  normalizeResponse data !! js "highlights"
  = Some (if isArray (get data (js "highlights"))
          then get data (js "highlights") else JArr []).
Proof.
  unfold normalizeResponse. rewrite !opt_member_get.
  rewrite !lookup_insert_ne by js_ne. by rewrite lookup_insert_eq.
Qed.

Lemma normalizeResponse_sources data :
  normalizeResponse data !! js "sources"
  = Some (if isArray (get data (js "sources"))
          then get data (js "sources") else JArr []).
Proof.
  unfold normalizeResponse. rewrite !opt_member_get.
  by rewrite lookup_insert_eq.
Qed.

(** "All other fields pass through unchanged." *)
Lemma normalizeResponse_other data k :
  k ≠ js "summary" → k ≠ js "highlights" → k ≠ js "sources" →
  normalizeResponse data !! k = own_props data !! k.
Proof.
  intros H1 H2 H3. unfold normalizeResponse.
  by rewrite !lookup_insert_ne.
Qed.

Lemma js_or_field top nested dflt :
  js_or (js_or top nested) dflt = truthy_field top nested dflt.
Proof.
  unfold js_or, truthy_field.
  destruct (truthy top) eqn:Ht; [by rewrite Ht|].
  by destruct (truthy nested).
Qed.

(** The progress event of a record that is classified as one. *)
Lemma classify_parsed_progress parsed ev :
  classify_parsed parsed = Some (PushThinking ev) →
  ev = {| stage := truthy_field (get parsed (js "stage"))
                     (get (get parsed (js "data")) (js "stage"))
                     (JStr (js "thinking"));
          message := truthy_field (get parsed (js "message"))
                       (get (get parsed (js "data")) (js "message"))
                       (JStr []);
          status := truthy_field (get parsed (js "status"))
                      (get (get parsed (js "data")) (js "status"))
                      (JStr (js "info")) |}.
Proof.
  unfold classify_parsed, member.
  destruct (nullish parsed); [done|]. cbn [mbind option_bind].
  rewrite !opt_member_get.
  destruct (eq_string (get parsed (js "type")) (js "result")).
  { by destruct (eq_false _). }
  destruct (eq_string _ _ || truthy _); [|done].
  intros [= <-]. by rewrite !js_or_field.
Qed.

(** C4, as the code has it.  In the progress event of a parsed record,
    each of stage, message and status is the top-level field when that
    field is truthy; otherwise the field of the nested [data] object when
    that one is truthy; otherwise the default ("thinking", the empty
    string, "info").  A top-level field that is present but falsy (the
    empty string, 0, false, null) does not win.  In particular a truthy
    top-level field always wins over the nested one. *)
Theorem field_precedence (parsed : jsval) (ev : ThinkingEvent) :
  classify_parsed parsed = Some (PushThinking ev) →
  let nested := get parsed (js "data") in
  stage ev = truthy_field (get parsed (js "stage")) (get nested (js "stage"))
               (JStr (js "thinking"))
  ∧ message ev = truthy_field (get parsed (js "message"))
                   (get nested (js "message")) (JStr [])
  ∧ status ev = truthy_field (get parsed (js "status"))
                  (get nested (js "status")) (JStr (js "info"))
  ∧ (truthy (get parsed (js "stage")) = true →
     stage ev = get parsed (js "stage"))
  ∧ (truthy (get parsed (js "message")) = true →
     message ev = get parsed (js "message"))
  ∧ (truthy (get parsed (js "status")) = true →
     status ev = get parsed (js "status")).
Proof.
  intros H. apply classify_parsed_progress in H as ->. cbn [stage message status].
  unfold truthy_field.
  repeat split; try done; by intros ->.
Qed.

(** Where every field that is present is also truthy, the code and the
    specification's precedence agree. *)
Lemma truthy_field_spec top nested dflt :
  present top = truthy top → present nested = truthy nested →
  truthy_field top nested dflt = spec_field top nested dflt.
Proof. unfold truthy_field, spec_field. by intros -> ->. Qed.

(** C5, as the code has it.  [normalizeResponse] keeps a [highlights]
    array as it is, string elements included, and puts the empty array
    where the field is not an array; the string elements become
    [{title: element}], objects passing through unchanged, in
    [highlightCards], which the page computes from the stored result. *)
Theorem highlights_normalized (raw : jsval) :
  normalizeResponse raw !! js "highlights"
  = Some (match get raw (js "highlights") with
          | JArr hs => JArr hs
          | _ => JArr []
          end)
  ∧ JArr (highlightCards (Some (normalizeResponse raw))) = spec_highlights raw.
Proof.
  split.
  - rewrite normalizeResponse_highlights.
    by destruct (get raw (js "highlights")).
  - unfold highlightCards, spec_highlights.
    rewrite normalizeResponse_highlights, opt_member_get.
    by destruct (get raw (js "highlights")).
Qed.

(** A result is left as it is by the normaliser when its two lists are
    arrays and its summary is what the normaliser would compute again. *)
Lemma normalizeResponse_fixed (r : ApiResponse) (s : jsval) (hs ss : list jsval) :
  r !! js "summary" = Some s →
  r !! js "highlights" = Some (JArr hs) →
  r !! js "sources" = Some (JArr ss) →
  js_coalesce (js_coalesce s (default JUndef (r !! js "answer"))) JNull = s →
  normalizeResponse (JObj r) = r.
Proof.
  intros Hs Hh Hc Hsum. unfold normalizeResponse.
  rewrite !opt_member_get. unfold get. cbn [own_props].
  set (answer := default JUndef (r !! js "answer")) in *.
  rewrite Hs, Hh, Hc. cbn [default from_option id isArray]. rewrite Hsum.
  rewrite (insert_id r (js "summary")) by done.
  rewrite (insert_id r (js "highlights")) by done.
  by rewrite (insert_id r (js "sources")).
Qed.

(** C9. Normalisation is idempotent on normalised results: a result whose
    highlights and sources are arrays and whose summary is present
    (neither undefined nor null) is returned unchanged. *)
Theorem normalize_idempotent (r : ApiResponse) (s : jsval) (hs ss : list jsval) :
  r !! js "summary" = Some s → nullish s = false →
  r !! js "highlights" = Some (JArr hs) →
  r !! js "sources" = Some (JArr ss) →
  normalizeResponse (JObj r) = r.
Proof.
  intros Hs Hn Hh Hc. apply (normalizeResponse_fixed r s hs ss); try done.
  unfold js_coalesce. by rewrite !Hn.
Qed.

(** Every output of the normaliser is a fixed point of it, also when the
    summary came out null. *)
Lemma normalizeResponse_twice (data : jsval) :
  normalizeResponse (JObj (normalizeResponse data)) = normalizeResponse data.
Proof.
  pose proof (normalizeResponse_summary data) as Hs.
  pose proof (normalizeResponse_highlights data) as Hh.
  pose proof (normalizeResponse_sources data) as Hc.
  assert (∃ hs, (if isArray (get data (js "highlights"))
                 then get data (js "highlights") else JArr []) = JArr hs)
    as [hs Hhs] by (destruct (get data (js "highlights")); by eexists).
  assert (∃ ss, (if isArray (get data (js "sources"))
                 then get data (js "sources") else JArr []) = JArr ss)
    as [ss Hss] by (destruct (get data (js "sources")); by eexists).
  rewrite Hhs in Hh. rewrite Hss in Hc.
  eapply normalizeResponse_fixed; [exact Hs|exact Hh|exact Hc|].
  rewrite normalizeResponse_other by js_ne.
  change (default JUndef (own_props data !! js "answer"))
    with (get data (js "answer")).
  unfold js_coalesce.
  destruct (nullish (get data (js "summary"))) eqn:H1;
    destruct (nullish (get data (js "answer"))) eqn:H2;
    repeat (first [rewrite H1 | rewrite H2 | progress cbn [nullish]]); done.
Qed.

(** The update of a record whose type is "result". *)
Lemma classify_parsed_result parsed :
  get parsed (js "type") = JStr (js "result") →
  classify_parsed parsed =
  Some (SetApiData
    (let responseData := normalizeResponse (get parsed (js "data")) in
     if eq_false (default JUndef (responseData !! js "success"))
     then <[js "error" :=
              js_or (default JUndef (responseData !! js "error"))
                    (JStr (js "The API returned an unsuccessful response."))]>
            responseData
     else responseData)).
Proof.
  intros Htype. unfold classify_parsed, member.
  rewrite (get_typed_not_nullish _ _ _ Htype). cbn [mbind option_bind].
  rewrite Htype. cbn [eq_string]. rewrite bool_decide_eq_true_2 by done.
  cbv zeta. by destruct (eq_false _).
Qed.

(** C10. A record whose type is "result" is turned into a result from its
    [data] field alone: two such records with the same [data] give the
    same update, whatever their other top-level fields; the update
    replaces the current result wholesale; and when [data] is absent or
    not an object, the new result has a null summary and empty highlights
    and sources. *)
Theorem result_from_data_only (parsed : jsval) :
  get parsed (js "type") = JStr (js "result") →
  (∀ other,
     get other (js "type") = JStr (js "result") →
     get other (js "data") = get parsed (js "data") →
     classify_parsed other = classify_parsed parsed)
  ∧ (∃ r, classify_parsed parsed = Some (SetApiData r)
          ∧ ∀ st, apiData (apply_update (SetApiData r) st) = Some r)
  ∧ ((∀ m, get parsed (js "data") ≠ JObj m) →
     ∃ r, classify_parsed parsed = Some (SetApiData r)
          ∧ r !! js "summary" = Some JNull
          ∧ r !! js "highlights" = Some (JArr [])
          ∧ r !! js "sources" = Some (JArr [])).
Proof.
  intros Htype. split; [|split].
  - intros other Hother Hdata.
    by rewrite !classify_parsed_result, Hdata.
  - eexists. split; [by apply classify_parsed_result|done].
  - intros Hobj. eexists. split; [by apply classify_parsed_result|].
    cbv zeta.
    rewrite (normalizeResponse_other _ (js "success")) by js_ne.
    rewrite own_props_not_object by done.
    cbn [default from_option eq_false].
    rewrite normalizeResponse_summary, normalizeResponse_highlights,
      normalizeResponse_sources.
    by rewrite !get_not_object.
Qed.

(** ** The specification's scenarios and the sample streams *)

Example parse_progress_line :
  classify Json.parse (quoted progress_line) = PushThinking fetch_event.
Proof. vm_compute. reflexivity. Qed.

Example parse_result_line :
  classify Json.parse (quoted result_line) = SetApiData scenario_result.
Proof. vm_compute. reflexivity. Qed.

Example parse_malformed_line : Json.parse (quoted malformed_line) = None.
Proof. vm_compute. reflexivity. Qed.

(** A progress record, the result, the sentinel: the log holds the one
    event, the result is stored with its highlights as the backend sent
    them, the cards carry the title, and nothing is in error. *)
Example scenario_completed :
  let st := (handleSubmit Json.parse 0 (FetchResponse true true)
               (closed_stream [sse_line progress_line; sse_line result_line;
                               sse_line "[DONE]"]) initial_state).2 in
  thinking st = [fetch_event]
  ∧ apiData st = Some scenario_result
  ∧ highlightCards (apiData st)
    = [JObj {[ js "title" := JStr (js "Goal highlight") ]}]
  ∧ error st = None ∧ loading st = false ∧ streamActive st = false.
Proof. vm_compute. repeat split; reflexivity. Qed.

(** The euro sign cut after its first byte. *)
Example euro_stream_cut :
  stream_updates Json.parse [take 17 euro_stream; drop 17 euro_stream]
  = [PushThinking {| stage := JStr [0x20AC]; message := JStr [];
                     status := JStr (js "info") |}]
  ∧ last (take 17 euro_stream) = Some xe2.
Proof. vm_compute. split; reflexivity. Qed.

(** The rejection that reaches a superseded call runs its [catch]
    block: progress, result and error stay, the two activity flags of the
    page are cleared. *)
Example stale_catch_clears_flags :
  let w := default world0 (run Json.parse overlap_trace world0) in
  let w' := default world0
              (exec Json.parse (Deliver 0 (ToRead (ReadRejected AbortError))) w) in
  loading (react w) = true ∧ streamActive (react w) = true
  ∧ loading (react w') = false ∧ streamActive (react w') = false
  ∧ error (react w') = None.
Proof. vm_compute. repeat split; reflexivity. Qed.

(** A chunk cannot reach a superseded call: the delivery is refused. *)
Example stale_chunk_refused :
  let w := default world0 (run Json.parse overlap_trace world0) in
  exec Json.parse (Deliver 0 (ToRead (ReadValue (sse_line result_line)))) w
  = None.
Proof. vm_compute. reflexivity. Qed.

(** ** Where the code departs from the specification *)


(** C4 fails as stated: a top-level [stage] that is present and empty
    loses to the nested one. *)
Lemma precedence_counterexample :
  classify_parsed (record_of shadowed_line)
  = Some (PushThinking {| stage := JStr (js "fetch"); message := JStr [];
                          status := JStr (js "info") |})
  ∧ get (record_of shadowed_line) (js "stage") = JStr []
  ∧ stage (spec_progress (record_of shadowed_line)) = JStr []
  ∧ {| stage := JStr (js "fetch"); message := JStr [];
       status := JStr (js "info") |}
    ≠ spec_progress (record_of shadowed_line).
Proof. vm_compute. repeat split; try reflexivity. discriminate. Qed.

(** C5 fails as stated: [normalizeResponse] returns the string element
    itself, not [{title: element}]. *)
Lemma normalizer_keeps_strings :
  let raw := JObj {[ js "highlights" := JArr [JStr (js "Goal highlight")] ]} in
  normalizeResponse raw !! js "highlights"
  = Some (JArr [JStr (js "Goal highlight")])
  ∧ spec_highlights raw
    = JArr [JObj {[ js "title" := JStr (js "Goal highlight") ]}]
  ∧ normalizeResponse raw !! js "highlights" ≠ Some (spec_highlights raw).
Proof. vm_compute. repeat split; try reflexivity. discriminate. Qed.

(** C6 fails as stated: a stream that closes after a progress record and
    the sentinel, with no result and no cancellation, leaves no error
    message. *)
Lemma closed_stream_sets_no_error :
  let r := handleSubmit Json.parse 0 (FetchResponse true true)
             (closed_stream [sse_line progress_line; sse_line "[DONE]"])
             initial_state in
  r.1 = Returned ∧ apiData r.2 = None ∧ thinking r.2 = [fetch_event]
  ∧ error r.2 = None ∧ error r.2 ≠ Some NO_LIVE_UPDATES.
Proof. vm_compute. repeat split; try reflexivity. discriminate. Qed.

(** ** The theorems at the sample inputs *)

(** A first call superseded after one progress record, on a page that
    rendered before the second submission: its rejection leaves the
    observable state of the second call. *)
Lemma session_isolation_when_rendered_witness :
  let w := default world0 (run Json.parse overlap_trace world0) in
  let w' := default world0
              (exec Json.parse (Deliver 0 (ToRead (ReadRejected AbortError))) w) in
  run Json.parse overlap_trace world0 = Some w
  ∧ abortController (react w) = Some 1%nat
  ∧ calls w' !! 0%nat = Some Returned
  ∧ observable (react w') = observable (react w).
Proof.
  intros w w'.
  assert (run Json.parse overlap_trace world0 = Some w) as Hrun
    by (vm_compute; reflexivity).
  assert (submits_see_current Json.parse overlap_trace world0 = true) as Hsee
    by (vm_compute; reflexivity).
  assert (exec Json.parse (Deliver 0 (ToRead (ReadRejected AbortError))) w = Some w')
    as Hex by (vm_compute; reflexivity).
  split; [exact Hrun|]. split; [vm_compute; reflexivity|].
  split; [vm_compute; reflexivity|].
  destruct (session_isolation_when_rendered Json.parse overlap_trace w Hrun Hsee)
    as [Hstale _].
  apply (Hstale 0%nat (ToRead (ReadRejected AbortError)) w'); [|exact Hex].
  vm_compute. discriminate.
Defined.

(** The top-level stage of the sample progress record wins. *)
Lemma field_precedence_witness :
  classify_parsed (record_of progress_line) = Some (PushThinking fetch_event)
  ∧ stage fetch_event = get (record_of progress_line) (js "stage").
Proof.
  assert (classify_parsed (record_of progress_line)
          = Some (PushThinking fetch_event)) as H by (vm_compute; reflexivity).
  split; [exact H|].
  destruct (field_precedence (record_of progress_line) fetch_event H)
    as (_ & _ & _ & Hstage & _).
  apply Hstage. vm_compute. reflexivity.
Defined.

(** A progress record, the sentinel, then the stream closes. *)
Lemma stream_end_without_result_witness :
  ∃ st',
    handleSubmit Json.parse 0 (FetchResponse true true)
      (closed_stream [sse_line progress_line; sse_line "[DONE]"]) initial_state
      = (Returned, st')
    ∧ error st' = None ∧ apiData st' = None
    ∧ loading st' = false ∧ streamActive st' = false.
Proof.
  apply (stream_end_without_result Json.parse 0
           [sse_line progress_line; sse_line "[DONE]"] initial_state).
  vm_compute. reflexivity.
Defined.

(** A truncated record between the progress record and the result. *)
Lemma malformed_record_skipped_witness :
  stream_updates Json.parse
    [sse_line progress_line; sse_line malformed_line; sse_line result_line]
  = [classify Json.parse (quoted progress_line); Ignore;
     classify Json.parse (quoted result_line)].
Proof.
  apply (malformed_record_skipped Json.parse
           [sse_line progress_line; sse_line malformed_line; sse_line result_line]
           (quoted progress_line) (quoted malformed_line) (quoted result_line)
           initial_state).
  - apply (bool_decide_unpack _). vm_compute. exact I.
  - apply (bool_decide_unpack _). vm_compute. exact I.
  - apply (bool_decide_unpack _). vm_compute. exact I.
  - vm_compute. reflexivity.
  - vm_compute. reflexivity.
Defined.

(** The read is aborted after one progress record. *)
Lemma cancellation_is_not_an_error_witness :
  ∃ st',
    handleSubmit Json.parse 0 (FetchResponse true true)
      ((ReadValue <$> [sse_line progress_line]) ++ [ReadRejected AbortError])
      initial_state
      = (Returned, st')
    ∧ error st' = None ∧ apiData st' = None
    ∧ loading st' = false ∧ streamActive st' = false.
Proof.
  apply (cancellation_is_not_an_error Json.parse 0
           [sse_line progress_line] initial_state).
  vm_compute. reflexivity.
Defined.

(** The result of the scenario is already normalised. *)
Lemma normalize_idempotent_witness :
  normalizeResponse (JObj scenario_result) = scenario_result.
Proof.
  apply (normalize_idempotent scenario_result
           (JStr (js "Team A won 2-1"))
           [JStr (js "Goal highlight")]
           [JStr (js "https://example.com/a")]);
    vm_compute; reflexivity.
Defined.

(** A result record without [data]: its top-level summary is not used. *)
Lemma result_from_data_only_witness :
  get (record_of bare_result_line) (js "summary")
  = JStr (js "at the top level")
  ∧ ∃ r, classify_parsed (record_of bare_result_line) = Some (SetApiData r)
         ∧ r !! js "summary" = Some JNull
         ∧ r !! js "highlights" = Some (JArr [])
         ∧ r !! js "sources" = Some (JArr []).
Proof.
  split; [vm_compute; reflexivity|].
  assert (get (record_of bare_result_line) (js "type") = JStr (js "result"))
    as Htype by (vm_compute; reflexivity).
  destruct (result_from_data_only (record_of bare_result_line) Htype)
    as (_ & _ & Hbare).
  apply Hbare. intros m H. vm_compute in H. discriminate H.
Defined.

(** * Further properties of the page *)

(** ** The read loop *)

Lemma join_cons_ne sep l ls :
  ls ≠ [] → join sep (l :: ls) = l ++ sep ++ join sep ls.
Proof. by destruct ls. Qed.

Lemma join_cons_head c ls :
  ls ≠ [] → join [LF] (cons_head c ls) = c :: join [LF] ls.
Proof. destruct ls as [|l [|l' ls]]; done. Qed.

Lemma join_split s : join [LF] (split s) = s.
Proof.
  induction s as [|c s IH]; [done|].
  rewrite split_cons. pose proof (split_nonempty s) as Hne.
  destruct (N.eqb_spec c LF) as [->|Hc].
  - rewrite join_cons_ne by done. by rewrite IH.
  - rewrite join_cons_head by done. by rewrite IH.
Qed.

Lemma Forall_cons_head (P : jsstring → Prop) c ls :
  (∀ l, P l → P (c :: l)) → P [c] → Forall P ls → Forall P (cons_head c ls).
Proof.
  intros Hc H1 Hls. destruct Hls as [|l ls Hl Hls]; simpl.
  - by constructor.
  - constructor; [by apply Hc|done].
Qed.

Lemma split_LF_free s : Forall (λ l, LF ∉ l) (split s).
Proof.
  induction s as [|c s IH].
  - constructor; [|done]. by intros ?%elem_of_nil.
  - rewrite split_cons. destruct (N.eqb_spec c LF) as [->|Hc].
    + constructor; [|done]. by intros ?%elem_of_nil.
    + apply Forall_cons_head; [| |done].
      * intros l Hl [?|?]%elem_of_cons; [congruence|by apply Hl].
      * intros [?|?%elem_of_nil]%elem_of_cons; [congruence|done].
Qed.

Lemma split_closed_open s : closed_lines s ++ [open_line s] = split s.
Proof.
  unfold closed_lines, open_line. pose proof (split_nonempty s) as Hne.
  destruct (split s) as [|x l] using rev_ind; [done|].
  by rewrite removelast_last, last_snoc.
Qed.

Lemma open_line_LF_free s : LF ∉ open_line s.
Proof.
  pose proof (split_LF_free s) as H.
  rewrite <- split_closed_open in H.
  apply Forall_app in H as [_ H]. by inversion H.
Qed.

Lemma closed_lines_LF_free s : Forall (λ l, LF ∉ l) (closed_lines s).
Proof.
  pose proof (split_LF_free s) as H.
  rewrite <- split_closed_open in H.
  by apply Forall_app in H as [H _].
Qed.

(** X1. Whatever the chunks, the buffer kept between two reads holds no
    line feed, no line handed to the [for] loop holds one, and the lines
    joined by line feeds, followed by the buffer, are exactly the text
    decoded so far: nothing of the stream is lost or duplicated. *)
Theorem buffer_reassembly (chunks : list (list byte)) :
  let '(decoder, buffer, lines) := feed_all new_TextDecoder [] chunks in
  ((LF ∉ buffer)
   ∧ Forall (λ l, LF ∉ l) lines
   ∧ join [LF] (lines ++ [buffer])
     = (decode new_TextDecoder (List.concat chunks)).2).
Proof.
  rewrite feed_all_text.
  destruct (decode new_TextDecoder (List.concat chunks)) as [d text].
  split; [apply open_line_LF_free|]. split; [apply closed_lines_LF_free|].
  cbn [snd]. by rewrite split_closed_open, join_split.
Qed.

Section LoopProperties.

Variable JSON_parse : jsstring → option jsval.

(** X2. Records are applied as soon as their line is complete and are
    never revised: the records classified after the first chunks are a
    prefix of those classified after any further chunks, and of those of
    the whole stream once it closes. *)
Theorem applied_records_stable (chunks more : list (list byte)) :
  fed_updates JSON_parse chunks `prefix_of` fed_updates JSON_parse (chunks ++ more)
  ∧ fed_updates JSON_parse chunks `prefix_of` stream_updates JSON_parse chunks.
Proof.
  unfold fed_updates, stream_updates. split.
  - rewrite !feed_all_text, concat_app, decode_app.
    destruct (decode new_TextDecoder (List.concat chunks)) as [d1 t1].
    destruct (decode d1 (List.concat more)) as [d2 t2]. cbn [snd].
    rewrite closed_lines_app, payloads_app, fmap_app.
    by eexists.
  - destruct (feed_all new_TextDecoder [] chunks) as [[d b] lines]. cbn [snd].
    rewrite payloads_app, fmap_app. by eexists.
Qed.

Lemma trimStart_nil s : trimStart s = [] → forallb is_white_space s = true.
Proof.
  induction s as [|c s IH]; [done|]. simpl.
  destruct (is_white_space c); [by auto|done].
Qed.

Lemma trim_nil s : trim s = [] → forallb is_white_space s = true.
Proof.
  unfold trim. intros H.
  apply (f_equal reverse) in H. rewrite reverse_involutive in H.
  change (reverse []) with (@nil N) in H.
  apply trimStart_nil in H. rewrite forallb_forall in H.
  assert (trimStart s = []) as Hs.
  { destruct (trimStart s) as [|c r] eqn:E; [done|].
    assert (is_white_space c = false) as Hc.
    { clear H. induction s as [|x s IH]; [done|]. simpl in E.
      destruct (is_white_space x) eqn:Hx; [by apply IH|]. by injection E as -> _. }
    rewrite (H c) in Hc; [done|].
    apply list_elem_of_In, elem_of_reverse. by left. }
  by apply trimStart_nil.
Qed.

(** A line of white space only is not a data line. *)
Lemma blank_not_data s :
  is_empty (trim s) = true → startsWith s (js "data: ") = false.
Proof.
  intros H. destruct (trim s) eqn:E; [|done].
  apply trim_nil in E. destruct s as [|c s]; [done|].
  simpl in E. apply andb_prop in E as [Hc _].
  change (js "data: ") with (100 :: js "ata: "). cbn [startsWith].
  destruct (N.eqb_spec c 100) as [->|]; [done|done].
Qed.

Lemma payloads_flush s : LF ∉ s → payloads (flush s) = payloads [s].
Proof.
  intros Hs. unfold flush. rewrite split_no_LF by done.
  destruct (is_empty (trim s)) eqn:E; [|done]. simpl.
  unfold payloads. by rewrite filter_cons_False, filter_nil
    by (rewrite blank_not_data; done).
Qed.

Lemma split_terminated lines tail :
  Forall (λ l, LF ∉ l) lines → LF ∉ tail →
  split (List.concat ((λ l, l ++ [LF]) <$> lines) ++ tail) = lines ++ [tail].
Proof.
  intros Hlines Htail. induction Hlines as [|l ls Hl Hls IH].
  - by apply split_no_LF.
  - rewrite fmap_cons. cbn [List.concat]. rewrite <- !app_assoc.
    change ([LF] ++ ?z) with (LF :: z).
    rewrite split_line by done. by rewrite IH.
Qed.

(** X4. The records applied are exactly the data lines of the decoded
    text, in order: when the text consists of lines each ended by a line
    feed and of a last part without one, the stream yields the
    classification of every line that starts with the data prefix, the
    unterminated last one included. *)
Theorem stream_of_lines (chunks : list (list byte)) (lines : list jsstring)
    (tail : jsstring) :
  Forall (λ l, LF ∉ l) lines → LF ∉ tail →
  (decode new_TextDecoder (List.concat chunks)).2
    = List.concat ((λ l, l ++ [LF]) <$> lines) ++ tail →
  stream_updates JSON_parse chunks
  = classify JSON_parse <$> payloads (lines ++ [tail]).
Proof.
  intros Hlines Htail Htext.
  rewrite stream_updates_text. cbv zeta. rewrite Htext.
  unfold closed_lines, open_line. rewrite split_terminated by done.
  rewrite removelast_last, last_snoc. cbn [default from_option id].
  by rewrite !payloads_app, payloads_flush.
Qed.

Lemma decode_LF decoder :
  bytes_needed (utf8 decoder) = 0 → (decode decoder [x0a]).2 = [LF].
Proof.
  intros H. unfold decode, decode_byte, utf8_handler. rewrite H.
  by destruct (BOM_seen decoder).
Qed.

(** X3. The line feed after the last record is optional: when the stream
    does not end inside a multi-byte character, one more chunk holding a
    single line feed changes nothing in the records applied. *)
Theorem final_newline_optional (chunks : list (list byte)) :
  bytes_needed (utf8 (decode new_TextDecoder (List.concat chunks)).1) = 0 →
  stream_updates JSON_parse (chunks ++ [[x0a]]) = stream_updates JSON_parse chunks.
Proof.
  intros Hclean. rewrite !stream_updates_text. cbv zeta.
  rewrite concat_app, decode_app.
  destruct (decode new_TextDecoder (List.concat chunks)) as [d t].
  cbn [fst snd] in *.
  change (List.concat [[x0a]]) with [x0a].
  pose proof (decode_LF d Hclean) as HLF.
  destruct (decode d [x0a]) as [d' s]. cbn [snd] in *. subst s.
  rewrite closed_lines_app, open_line_app.
  pose proof (open_line_LF_free t) as Hopen.
  assert (split (open_line t ++ [LF]) = [open_line t; []]) as Hsplit
    by (by rewrite (split_line (open_line t) [])).
  assert (closed_lines (open_line t ++ [LF]) = [open_line t]) as ->
    by (unfold closed_lines; by rewrite Hsplit).
  assert (open_line (open_line t ++ [LF]) = []) as ->
    by (unfold open_line at 1; by rewrite Hsplit).
  rewrite !payloads_app, (payloads_flush (open_line t) Hopen).
  change (payloads (flush [])) with (@nil jsstring).
  by rewrite app_nil_r.
Qed.

End LoopProperties.

(** ** Classification of a record *)

Lemma eq_string_true v s : eq_string v s = true → v = JStr s.
Proof.
  destruct v; try done. simpl. intros H.
  by apply bool_decide_eq_true_1 in H as ->.
Qed.

Lemma classify_parsed_throws v : classify_parsed v = None ↔ nullish v = true.
Proof.
  unfold classify_parsed, member. destruct (nullish v); [done|].
  cbn [mbind option_bind]. split; [|done].
  destruct (eq_string _ (js "result")); [by destruct (eq_false _)|].
  by destruct (eq_string _ _ || truthy _).
Qed.

(** X5. Only [null] makes the body of the [try] throw, and the [catch]
    swallows it; every other payload that is valid JSON but not an object
    (a number, a string, a boolean, an array) is read and changes nothing.
    So a line whose payload parses to anything but an object leaves the
    state as it is. *)
Theorem non_object_ignored (JSON_parse : jsstring → option jsval)
    (data : jsstring) (v : jsval) (st : AppState) :
  JSON_parse data = Some v → (∀ m, v ≠ JObj m) →
  (classify_parsed v = None ↔ nullish v = true)
  ∧ (nullish v = false → classify_parsed v = Some Ignore)
  ∧ processSSELine JSON_parse data st = st.
Proof.
  intros Hparse Hobj.
  assert (nullish v = false → classify_parsed v = Some Ignore) as Hign.
  { intros Hn. unfold classify_parsed, member. rewrite Hn.
    cbn [mbind option_bind]. rewrite !opt_member_get.
    rewrite !(get_not_object v) by done.
    reflexivity. }
  split; [apply classify_parsed_throws|]. split; [done|].
  unfold processSSELine, classify. rewrite Hparse.
  destruct (bool_decide _ || is_empty _); [done|].
  destruct (nullish v) eqn:Hn.
  - by rewrite (proj2 (classify_parsed_throws v) Hn).
  - by rewrite Hign.
Qed.

Lemma classify_parsed_result_inv parsed r :
  classify_parsed parsed = Some (SetApiData r) →
  get parsed (js "type") = JStr (js "result").
Proof.
  unfold classify_parsed, member. destruct (nullish parsed); [done|].
  cbn [mbind option_bind].
  destruct (eq_string (get parsed (js "type")) (js "result")) eqn:E.
  - intros _. by apply eq_string_true.
  - by destruct (eq_string _ _ || truthy _).
Qed.

Lemma normalizeResponse_shape data :
  (∃ hs, normalizeResponse data !! js "highlights" = Some (JArr hs))
  ∧ (∃ ss, normalizeResponse data !! js "sources" = Some (JArr ss))
  ∧ (∃ s, normalizeResponse data !! js "summary" = Some s ∧ s ≠ JUndef).
Proof.
  rewrite normalizeResponse_summary, normalizeResponse_highlights,
    normalizeResponse_sources.
  split; [destruct (get _ (js "highlights")); by eexists|].
  split; [destruct (get _ (js "sources")); by eexists|].
  eexists. split; [done|]. unfold js_coalesce.
  destruct (nullish (if nullish (get _ (js "summary")) then _ else _)) eqn:E;
    [done|]. intros H. by rewrite H in E.
Qed.

(** The object that the result branch stores for the payload [data]. *)
Lemma stored_value_normalized data :
  normalized
    (let responseData := normalizeResponse data in
     if eq_false (default JUndef (responseData !! js "success"))
     then <[js "error" :=
              js_or (default JUndef (responseData !! js "error"))
                    (JStr (js "The API returned an unsuccessful response."))]>
            responseData
     else responseData).
Proof.
  cbv zeta. destruct (normalizeResponse_shape data) as (Hh & Hs & Hsum).
  set (n := normalizeResponse data) in *. unfold normalized.
  destruct (eq_false (default JUndef (n !! js "success"))) eqn:Hsucc.
  - rewrite !lookup_insert_ne by js_ne. rewrite lookup_insert_eq.
    repeat split; try done. intros _. cbn [default from_option id].
    unfold js_or. by destruct (truthy (default JUndef (n !! js "error"))) eqn:E.
  - repeat split; try done. intros H. by rewrite H in Hsucc.
Qed.

(** X6. Every result that [processSSELine] stores is in the shape the
    page renders from: [highlights] and [sources] are arrays, [summary]
    is defined (null when the backend sent neither summary nor answer),
    and a result with [success === false] carries a truthy [error], the
    backend's or the fallback text. *)
Theorem stored_result_normalized (parsed : jsval) (r : ApiResponse) :
  classify_parsed parsed = Some (SetApiData r) → normalized r.
Proof.
  intros H. pose proof (classify_parsed_result_inv _ _ H) as Htype.
  rewrite (classify_parsed_result _ Htype) in H. injection H as <-.
  apply stored_value_normalized.
Qed.

Lemma truthy_field_truthy top nested dflt :
  truthy dflt = true → truthy (truthy_field top nested dflt) = true.
Proof.
  intros Hd. unfold truthy_field.
  destruct (truthy top) eqn:E1; [done|]. by destruct (truthy nested) eqn:E2.
Qed.

Lemma truthy_field_or_default top nested dflt :
  truthy (truthy_field top nested dflt) = true
  ∨ truthy_field top nested dflt = dflt.
Proof.
  unfold truthy_field.
  destruct (truthy top) eqn:E1; [by left|].
  destruct (truthy nested) eqn:E2; [by left|by right].
Qed.

(** X7. Every progress event that is logged can be displayed: its stage
    and status are truthy (the defaults "thinking" and "info" replace
    anything falsy), and its message is either truthy or the empty
    string, never null, undefined, 0 or false. *)
Theorem progress_event_displayable (parsed : jsval) (ev : ThinkingEvent) :
  classify_parsed parsed = Some (PushThinking ev) → displayable ev.
Proof.
  intros H. apply classify_parsed_progress in H as ->.
  unfold displayable. cbn [stage message status].
  split; [by apply truthy_field_truthy|].
  split; [by apply truthy_field_truthy|].
  apply truthy_field_or_default.
Qed.

(** ** normalizeResponse *)

(** X8. The fixed points of the normaliser are exactly the objects whose
    highlights and sources are arrays and whose summary is the one the
    normaliser computes again; and every output of the normaliser, for
    any input at all (an object, an array, a string, null), is such a
    fixed point. *)
Theorem normalizeResponse_fixed_points (r : ApiResponse) :
  (normalizeResponse (JObj r) = r
   ↔ (∃ hs, r !! js "highlights" = Some (JArr hs))
     ∧ (∃ ss, r !! js "sources" = Some (JArr ss))
     ∧ (∃ s, r !! js "summary" = Some s
             ∧ js_coalesce (js_coalesce s (default JUndef (r !! js "answer")))
                 JNull = s))
  ∧ (∀ data,
       normalizeResponse (JObj (normalizeResponse data)) = normalizeResponse data).
Proof.
  split; [|apply normalizeResponse_twice]. split.
  - intros Hfix.
    pose proof (normalizeResponse_highlights (JObj r)) as Hh.
    pose proof (normalizeResponse_sources (JObj r)) as Hc.
    pose proof (normalizeResponse_summary (JObj r)) as Hs.
    rewrite Hfix in Hh, Hc, Hs. unfold get in Hh, Hc, Hs. cbn [own_props] in *.
    split; [|split].
    + rewrite Hh. destruct (r !! js "highlights") as [v|]; [|by eexists].
      cbn [default from_option id] in *. destruct v; by eexists.
    + rewrite Hc. destruct (r !! js "sources") as [v|]; [|by eexists].
      cbn [default from_option id] in *. destruct v; by eexists.
    + destruct (r !! js "summary") as [s|] eqn:E; [|done].
      exists s. split; [done|]. cbn [default from_option id] in Hs.
      by injection Hs.
  - intros ([hs Hh] & [ss Hc] & (s & Hs & Hsum)).
    by apply (normalizeResponse_fixed r s hs ss).
Qed.

(** X9. The normaliser drops no field: the fields of its output are those
    of the payload plus [summary], [highlights] and [sources]; every
    other field keeps its value; and when the payload has no summary but
    an answer, the summary is that answer. *)
Theorem normalizeResponse_keeps_fields (data : jsval) :
  dom (normalizeResponse data)
    = {[ js "summary"; js "highlights"; js "sources" ]} ∪ dom (own_props data)
  ∧ (∀ k, k ≠ js "summary" → k ≠ js "highlights" → k ≠ js "sources" →
          normalizeResponse data !! k = own_props data !! k)
  ∧ (nullish (get data (js "summary")) = true →
     nullish (get data (js "answer")) = false →
     normalizeResponse data !! js "summary" = Some (get data (js "answer"))).
Proof.
  split; [|split].
  - unfold normalizeResponse. rewrite !dom_insert_L.
    apply set_eq. intros k. rewrite !elem_of_union, !elem_of_singleton. tauto.
  - apply normalizeResponse_other.
  - intros H1 H2. rewrite normalizeResponse_summary.
    unfold js_coalesce. by rewrite H1, H2.
Qed.

(** ** The highlight cards *)

Lemma highlightCards_array (r : ApiResponse) (hs : list jsval) :
  r !! js "highlights" = Some (JArr hs) →
  highlightCards (Some r) = title_card <$> hs.
Proof.
  intros Hh. unfold highlightCards. rewrite Hh.
  by cbn [default from_option id truthy negb].
Qed.

Lemma primaryHighlight_no_url (cards : list jsval) :
  Forall (λ c, nullish c = false ∧ truthy (get c (js "url")) = false) cards →
  primaryHighlight cards = Some None.
Proof.
  induction 1 as [|c cards [Hn Hu] _ IH]; [done|].
  cbn [primaryHighlight]. unfold member. rewrite Hn.
  cbn [mbind option_bind]. by rewrite Hu.
Qed.

(** X10. The cards are the highlights of the stored result in the same
    order and number, with every string replaced by an object; so no card
    is a string.  Without a stored result, or when its highlights are not
    an array, there are no cards. *)
Theorem highlightCards_cards (r : ApiResponse) :
  (∀ hs, r !! js "highlights" = Some (JArr hs) →
         highlightCards (Some r) = title_card <$> hs
         ∧ List.length (highlightCards (Some r)) = List.length hs
         ∧ Forall (λ c, is_string c = false) (highlightCards (Some r)))
  ∧ ((∀ hs, r !! js "highlights" ≠ Some (JArr hs)) → highlightCards (Some r) = [])
  ∧ highlightCards None = [].
Proof.
  split; [|split; [|done]].
  - intros hs Hh. rewrite (highlightCards_array r hs Hh).
    split; [done|]. split; [by rewrite length_fmap|].
    apply Forall_fmap, Forall_forall. intros h _. unfold title_card.
    simpl. by destruct (is_string h) eqn:E.
  - intros Hno. unfold highlightCards.
    destruct (r !! js "highlights") as [v|]; [|done].
    cbn [default from_option id].
    destruct (negb (truthy v)); [done|].
    destruct v; try done. by destruct (Hno l).
Qed.

Lemma truthy_url_object h :
  truthy (get h (js "url")) = true → ∃ m, h = JObj m.
Proof.
  intros H.
  assert (∀ v, (∀ m, v ≠ JObj m) → truthy (get v (js "url")) = false) as Hno
    by (intros v Hv; by rewrite get_not_object).
  destruct h as [| | | | s | l | m]; [..|by exists m];
    by rewrite Hno in H.
Qed.

Lemma passed_over_cons c cards i :
  passed_over (c :: cards) (S i)
  ↔ (nullish c = false ∧ truthy (get c (js "url")) = false)
    ∧ passed_over cards i.
Proof.
  split.
  - intros H. split; [apply (H 0%nat c); [lia|done]|].
    intros j c' Hj Hc. apply (H (S j) c'); [lia|done].
  - intros [Hc H] [|j] c' Hj Hc'.
    + by injection Hc' as <-.
    + apply (H j c'); [lia|done].
Qed.

Lemma passed_over_all cards :
  passed_over cards (List.length cards)
  ↔ Forall (λ c, nullish c = false ∧ truthy (get c (js "url")) = false) cards.
Proof.
  induction cards as [|c cards IH].
  - split; [constructor|]. intros _ j c Hj. simpl in Hj. lia.
  - cbn [List.length]. rewrite passed_over_cons, Forall_cons, IH. done.
Qed.

(** X11. The primary highlight is a card exactly when that card is the
    first one, in order, whose [url] is truthy, every card before it
    being passed over; such a card is an object.  It is null exactly when
    every card is passed over.  And looking for it throws exactly when a
    [null] or [undefined] card comes with every card before it passed
    over, that is before any card with a truthy [url]: a [null] card
    after such a card is never read. *)
Theorem primaryHighlight_first (cards : list jsval) :
  (∀ h, primaryHighlight cards = Some (Some h)
        ↔ ∃ i, cards !! i = Some h
               ∧ truthy (get h (js "url")) = true
               ∧ passed_over cards i)
  ∧ (∀ h, primaryHighlight cards = Some (Some h) → ∃ m, h = JObj m)
  ∧ (primaryHighlight cards = Some None
     ↔ Forall (λ c, nullish c = false ∧ truthy (get c (js "url")) = false) cards)
  ∧ (primaryHighlight cards = None
     ↔ ∃ i c, cards !! i = Some c ∧ nullish c = true ∧ passed_over cards i).
Proof.
  induction cards as [|c cards (IH1 & IH2 & IH3 & IH4)].
  { split; [|split; [done|split]].
    - intros h. split; [done|]. by intros (i & Hi & _).
    - by split.
    - split; [done|]. by intros (i & c & Hi & _). }
  cbn [primaryHighlight]. unfold member.
  destruct (nullish c) eqn:Hn; cbn [mbind option_bind].
  { split; [|split; [done|split]].
    - intros h. split; [done|]. intros ([|i] & Hi & Hu & Hbefore).
      + injection Hi as <-. destruct (truthy_url_object _ Hu) as [m ->]. done.
      + apply passed_over_cons in Hbefore as [[Hc _] _]. congruence.
    - split; [done|]. intros H. apply Forall_cons in H as [[H _] _]. congruence.
    - split; [|done]. intros _. exists 0%nat, c. split; [done|]. split; [done|].
      intros j c' Hj. lia. }
  destruct (truthy (get c (js "url"))) eqn:Hu.
  - split; [|split; [|split]].
    + intros h. split.
      * intros [= <-]. exists 0%nat. split; [done|]. split; [done|].
        intros j c' Hj. lia.
      * intros ([|i] & Hi & Hu' & Hbefore).
        -- by injection Hi as <-.
        -- apply passed_over_cons in Hbefore as [[_ Hc] _]. congruence.
    + intros h [= <-]. by apply truthy_url_object.
    + split; [done|]. intros H. apply Forall_cons in H as [[_ H] _]. congruence.
    + split; [done|]. intros ([|i] & c' & Hi & Hc' & Hbefore).
      * injection Hi as <-. congruence.
      * apply passed_over_cons in Hbefore as [[_ Hc] _]. congruence.
  - split; [|split; [|split]].
    + intros h. rewrite IH1. split.
      * intros (i & Hi & Hu' & Hbefore). exists (S i).
        split; [done|]. split; [done|]. by apply passed_over_cons.
      * intros ([|i] & Hi & Hu' & Hbefore).
        -- injection Hi as <-. congruence.
        -- exists i. split; [done|]. split; [done|].
           by apply passed_over_cons in Hbefore as [_ Hbefore].
    + exact IH2.
    + rewrite IH3, Forall_cons. tauto.
    + rewrite IH4. split.
      * intros (i & c' & Hi & Hc' & Hbefore). exists (S i), c'.
        split; [done|]. split; [done|]. by apply passed_over_cons.
      * intros ([|i] & c' & Hi & Hc' & Hbefore).
        -- injection Hi as <-. congruence.
        -- exists i, c'. split; [done|]. split; [done|].
           by apply passed_over_cons in Hbefore as [_ Hbefore].
Qed.

(** X12. A result whose highlights are all plain strings has no primary
    highlight: its cards carry a title and no url, so no video is
    embedded for it. *)
Theorem string_highlights_not_embedded (r : ApiResponse) (hs : list jsval) :
  r !! js "highlights" = Some (JArr hs) →
  Forall (λ h, is_string h = true) hs →
  primaryHighlight (highlightCards (Some r)) = Some None.
Proof.
  intros Hh Hs.
  rewrite (highlightCards_array r hs Hh).
  apply primaryHighlight_no_url.
  apply Forall_fmap, Forall_forall. intros h Hin.
  rewrite Forall_forall in Hs. unfold title_card. simpl. rewrite (Hs h Hin).
  split; [done|]. unfold get. cbn [own_props].
  by rewrite lookup_singleton_ne by js_ne.
Qed.

(** ** What holds in every state the page can reach *)

Section Reachable.

Variable JSON_parse : jsstring → option jsval.

(** A property of the page state that the prologue establishes and that
    every later update keeps holds in every reachable state, whatever
    the order of submissions, settlements, renders and clicks. *)
Lemma reachable_state_ind (P : AppState → Prop) :
  P initial_state →
  (∀ c st, P (submit_prologue c st)) →
  (∀ name st, P st → P (catch_block name st)) →
  (∀ data st, P st → P (processSSELine JSON_parse data st)) →
  (∀ st, P st → P (setLoading false (setStreamActive false st))) →
  (∀ st, P st → P (try_another_query st)) →
  ∀ acts w, run JSON_parse acts world0 = Some w → P (react w).
Proof.
  intros H0 Hsub Hcatch Hline Hend Htry.
  assert (∀ lines st, P st → P (process_lines JSON_parse lines st)) as Hlines.
  { intros lines. unfold process_lines.
    induction (payloads lines) as [|data ds IH] using rev_ind; intros st Hst;
      [done|]. rewrite foldl_app. simpl. by apply Hline, IH. }
  assert (∀ d a st r, P st → resume JSON_parse d a st = Some r → P r.2) as Hres.
  { intros d a st r Hst.
    destruct a as [|decoder buffer|], d as [o|o]; simpl; try done;
      intros [= <-].
    - destruct o as [name|ok has_body]; [by apply Hcatch|].
      destruct ok, has_body; simpl; try by apply Hcatch. done.
    - destruct o as [value| |name]; simpl.
      + destruct (feed decoder buffer value) as [[d1 b1] lines]. simpl.
        by apply Hlines.
      + by apply Hend, Hlines.
      + by apply Hcatch. }
  assert (∀ acts w w', P (react w) → run JSON_parse acts w = Some w' →
                       P (react w')) as Hrun.
  { induction acts as [|act acts IH]; intros w w' Hw; simpl.
    - by intros [= <-].
    - destruct (exec JSON_parse act w) as [w1|] eqn:Hex; simpl; [|done].
      apply IH. destruct act as [|c d| | |]; simpl in Hex.
      + destruct (mounted w); [|done]. injection Hex as <-.
        cbn [react]. rewrite submit_prologue_seen_eq. apply Hsub.
      + destruct (calls w !! c) as [a|]; simpl in Hex; [|done].
        destruct (permitted w c d); [|done].
        destruct (resume JSON_parse d a (react w)) as [[a' st']|] eqn:Hr;
          simpl in Hex; [|done].
        injection Hex as <-. cbn [react].
        destruct (mounted w); [|done].
        by apply (Hres d a (react w) (a', st')).
      + destruct (mounted w); [|done]. by injection Hex as <-.
      + destruct (mounted w && shows_try_another (rendered w)); [|done].
        injection Hex as <-. by apply Htry.
      + destruct (mounted w); [|done]. by injection Hex as <-. }
  intros acts w. by apply Hrun.
Qed.

(** X13. The error of the page is only ever null or the one generic
    message: whatever the backend sends, however the transport fails and
    however submissions, settlements of any call (aborted or not),
    renders, clicks on Try Another Query and the unmount interleave, no
    other text reaches it. *)
Theorem error_is_generic (acts : list action) (w : world) :
  run JSON_parse acts world0 = Some w →
  error (react w) = None ∨ error (react w) = Some NO_LIVE_UPDATES.
Proof.
  apply (reachable_state_ind
           (λ st, error st = None ∨ error st = Some NO_LIVE_UPDATES)).
  - by left.
  - intros c st. rewrite submit_prologue_resets. by left.
  - intros name st H. unfold catch_block.
    destruct (bool_decide (name ≠ AbortError)); simpl; [by right|done].
  - intros data st H. unfold processSSELine. by rewrite apply_update_error.
  - done.
  - done.
Qed.

Lemma error_line_generic toLowerCase :
  lowers_ascii toLowerCase →
  error_line toLowerCase (Some NO_LIVE_UPDATES) = ErrorMessage NO_LIVE_UPDATES.
Proof.
  intros Hlow. unfold error_line. rewrite Hlow.
  - reflexivity.
  - apply (bool_decide_unpack _). by vm_compute.
Qed.

(** X14. The memory warning under the form is never shown: the only
    message the page ever puts in [error] does not contain "memory", so
    the error line is either absent or that message. *)
Theorem memory_warning_never_shown (toLowerCase : jsstring → jsstring)
    (acts : list action) (w : world) :
  lowers_ascii toLowerCase →
  run JSON_parse acts world0 = Some w →
  error_line toLowerCase (error (react w)) = NoErrorLine
  ∨ error_line toLowerCase (error (react w)) = ErrorMessage NO_LIVE_UPDATES.
Proof.
  intros Hlow.
  apply (reachable_state_ind
           (λ st, error_line toLowerCase (error st) = NoErrorLine
                  ∨ error_line toLowerCase (error st)
                    = ErrorMessage NO_LIVE_UPDATES)).
  - by left.
  - intros c st. rewrite submit_prologue_resets. by left.
  - intros name st H. unfold catch_block.
    destruct (bool_decide (name ≠ AbortError)); [|done].
    right. by apply error_line_generic.
  - intros data st H. unfold processSSELine. by rewrite apply_update_error.
  - done.
  - done.
Qed.

Lemma classify_cases data :
  classify JSON_parse data = Ignore
  ∨ ∃ parsed, classify_parsed parsed = Some (classify JSON_parse data).
Proof.
  unfold classify.
  destruct (bool_decide _ || is_empty _); [by left|].
  destruct (JSON_parse data) as [parsed|]; [|by left].
  destruct (classify_parsed parsed) as [u|] eqn:E; [|by left].
  right. by exists parsed.
Qed.

Lemma length_slice_last {A} (l : list A) : (List.length (slice_last 12 l) ≤ 12)%nat.
Proof. unfold slice_last. rewrite length_drop. lia. Qed.

(** X15. In every state the page can reach, the progress log holds at
    most 12 events and every one of them can be displayed, whatever
    sessions were started, superseded or failed before. *)
Theorem reachable_log_bounded (acts : list action) (w : world) :
  run JSON_parse acts world0 = Some w →
  (List.length (thinking (react w)) ≤ 12)%nat
  ∧ Forall displayable (thinking (react w)).
Proof.
  apply (reachable_state_ind
           (λ st, (List.length (thinking st) ≤ 12)%nat
                  ∧ Forall displayable (thinking st))).
  - split; [simpl; lia|constructor].
  - intros c st. rewrite submit_prologue_resets. split; [simpl; lia|constructor].
  - intros name st H. unfold catch_block.
    by destruct (bool_decide (name ≠ AbortError)).
  - intros data st [Hlen Hall]. unfold processSSELine.
    destruct (classify_cases data) as [->|[parsed Hp]]; [done|].
    destruct (classify JSON_parse data) as [|r|ev]; [done|done|].
    cbn [apply_update setThinking thinking]. split; [apply length_slice_last|].
    unfold slice_last. apply Forall_drop, Forall_app. split; [done|].
    apply Forall_singleton.
    apply classify_parsed_progress in Hp as ->.
    unfold displayable. cbn [stage message status].
    split; [by apply truthy_field_truthy|].
    split; [by apply truthy_field_truthy|].
    apply truthy_field_or_default.
  - done.
  - intros st _. split; [simpl; lia|constructor].
Qed.

(** X16. In every state the page can reach, the stored result, when there
    is one, is in the shape the page renders from: array highlights and
    sources, a defined summary, and a truthy error text whenever
    [success] is false, so the second fallback text of the failure panel
    is never needed. *)
Theorem reachable_result_normalized (acts : list action) (w : world)
    (r : ApiResponse) :
  run JSON_parse acts world0 = Some w →
  apiData (react w) = Some r → normalized r.
Proof.
  intros Hrun. revert r.
  apply (reachable_state_ind
           (λ st, ∀ r, apiData st = Some r → normalized r)) with (acts := acts);
    [| | | | | |done].
  - done.
  - intros c st r. by rewrite submit_prologue_resets.
  - intros name st H. unfold catch_block.
    by destruct (bool_decide (name ≠ AbortError)).
  - intros data st H r. unfold processSSELine.
    destruct (classify_cases data) as [->|[parsed Hp]]; [by apply H|].
    destruct (classify JSON_parse data) as [|r'|ev]; [by apply H| |by apply H].
    cbn [apply_update setApiData apiData]. intros [= <-].
    pose proof (classify_parsed_result_inv _ _ Hp) as Htype.
    rewrite (classify_parsed_result _ Htype) in Hp. injection Hp as <-.
    apply stored_value_normalized.
  - done.
  - done.
Qed.

Lemma resume_returned_not_loading d a st st' :
  resume JSON_parse d a st = Some (Returned, st') →
  loading st' = false ∧ streamActive st' = false.
Proof.
  destruct a as [|decoder buffer|], d as [o|o]; simpl; try done; intros [= H].
  - destruct o as [name|ok has_body]; [|destruct ok, has_body];
      simpl in H; try done; by injection H as <-.
  - destruct o as [value| |name]; simpl in H.
    + by destruct (feed decoder buffer value) as [[d1 b1] lines].
    + by injection H as <-.
    + by injection H as <-.
Qed.

Lemma resume_pending_keeps_flags d a st a' st' :
  resume JSON_parse d a st = Some (a', st') → a' ≠ Returned →
  loading st' = loading st ∧ streamActive st' = streamActive st.
Proof.
  destruct a as [|decoder buffer|], d as [o|o]; simpl; try done; intros [= H] Ha.
  - destruct o as [name|ok has_body]; [|destruct ok, has_body];
      simpl in H; injection H as <- <-; done.
  - destruct o as [value| |name]; simpl in H.
    + destruct (feed decoder buffer value) as [[d1 b1] lines].
      injection H as <- <-. rewrite process_lines_updates.
      by destruct (apply_updates_flags
                     (classify JSON_parse <$> payloads lines) st) as (-> & -> & _).
    + by injection H as <- <-.
    + by injection H as <- <-.
Qed.

Lemma exec_mounted act w w' :
  exec JSON_parse act w = Some w' → mounted w' = true → mounted w = true.
Proof.
  destruct act as [|c d| | |]; simpl.
  - by destruct (mounted w).
  - destruct (calls w !! c) as [a|]; simpl; [|done].
    destruct (permitted w c d); [|done].
    destruct (resume JSON_parse d a (react w)) as [[a' st']|]; simpl; [|done].
    by intros [= <-].
  - by destruct (mounted w).
  - by destruct (mounted w).
  - destruct (mounted w); [|done]. by intros [= <-].
Qed.

Lemma exec_loading_has_cause act w w' :
  loading_has_cause w → exec JSON_parse act w = Some w' → loading_has_cause w'.
Proof.
  intros HJ Hex Hm'. pose proof (exec_mounted _ _ _ Hex Hm') as Hm.
  specialize (HJ Hm). clear Hm'. revert Hex.
  destruct act as [|c d| | |]; simpl; rewrite ?Hm; cbn [andb].
  - intros [= <-] _. cbn [react calls].
    rewrite submit_prologue_seen_eq, submit_prologue_resets.
    exists (fresh w), AwaitFetch. by rewrite lookup_insert_eq.
  - destruct (calls w !! c) as [a|] eqn:Hc; simpl; [|done].
    destruct (permitted w c d); [|done].
    destruct (resume JSON_parse d a (react w)) as [[a' st']|] eqn:Hres; simpl; [|done].
    intros [= <-]. cbn [react calls].
    assert (a' = Returned ∨ a' ≠ Returned) as [->|Hpend]
      by (destruct a'; [by right|by right|by left]).
    + destruct (resume_returned_not_loading _ _ _ _ Hres) as [-> _]. done.
    + destruct (resume_pending_keeps_flags _ _ _ _ _ Hres Hpend) as [-> _].
      rewrite (resume_abortController _ _ _ _ _ _ Hres).
      intros Hl. destruct (HJ Hl) as (c0 & a0 & Hcur & Hc0 & Ha0).
      destruct (decide (c0 = c)) as [->|Hne].
      * exists c, a'. by rewrite lookup_insert_eq.
      * exists c0, a0. by rewrite lookup_insert_ne.
  - by intros [= <-].
  - destruct (shows_try_another (rendered w)); [|done]. by intros [= <-].
  - by intros [= <-].
Qed.

Lemma run_loading_has_cause acts w w' :
  loading_has_cause w → run JSON_parse acts w = Some w' → loading_has_cause w'.
Proof.
  revert w. induction acts as [|act acts IH]; intros w HJ; simpl.
  - by intros [= <-].
  - destruct (exec JSON_parse act w) as [w1|] eqn:Hex; simpl; [|done].
    apply IH. by eapply exec_loading_has_cause.
Qed.

(** X17. In every state the page can reach, the loading flag and the
    streaming indicator agree; and while the page is mounted it shows
    itself as loading only while the call of the latest submission is
    still pending: once every call has returned, neither flag is set. *)
Theorem flags_consistent (acts : list action) (w : world) :
  run JSON_parse acts world0 = Some w →
  loading (react w) = streamActive (react w)
  ∧ loading_has_cause w
  ∧ (mounted w = true →
     (∀ c a, calls w !! c = Some a → a = Returned) → loading (react w) = false).
Proof.
  intros Hrun.
  assert (loading_has_cause w) as HJ.
  { apply (run_loading_has_cause acts world0); [|done]. by intros ? ?. }
  split; [|split; [done|]].
  - revert Hrun.
    apply (reachable_state_ind (λ st, loading st = streamActive st)).
    + done.
    + intros c st. by rewrite submit_prologue_resets.
    + intros name st H. unfold catch_block.
      by destruct (bool_decide (name ≠ AbortError)).
    + intros data st H. unfold processSSELine.
      by destruct (apply_update_flags (classify JSON_parse data) st)
        as (-> & -> & _).
    + done.
    + done.
  - intros Hm Hall. destruct (loading (react w)) eqn:Hl; [|done].
    destruct (HJ Hm Hl) as (c & a & _ & Hc & Ha). by destruct (Ha (Hall c a Hc)).
Qed.

End Reachable.

(** ** Splitting on a separator *)

Lemma split_go_skip sep k s : split_go sep k s = split_go sep 0 (drop k s).
Proof.
  revert k. induction s as [|c s IH]; intros k; [by destruct k|].
  destruct k as [|k]; [done|]. simpl. apply IH.
Qed.

Lemma split_on_nonempty sep s : split_on sep s ≠ [].
Proof.
  unfold split_on. generalize 0%nat. induction s as [|c s IH]; intros k; [done|].
  simpl. destruct k as [|k]; [|apply IH].
  destruct (startsWith (c :: s) sep); [done|].
  specialize (IH 0%nat). by destruct (split_go sep 0 s).
Qed.

Lemma startsWith_length s sep :
  startsWith s sep = true → (List.length sep ≤ List.length s)%nat.
Proof.
  revert s. induction sep as [|c sep IH]; intros s; simpl; [lia|].
  destruct s as [|d s]; [done|]. intros [_ H]%andb_prop. apply IH in H.
  simpl. lia.
Qed.

Lemma startsWith_take_drop s sep :
  startsWith s sep = true → s = sep ++ drop (List.length sep) s.
Proof.
  revert s. induction sep as [|c sep IH]; intros s; simpl; [done|].
  destruct s as [|d s]; [done|]. intros [Hc H]%andb_prop.
  apply N.eqb_eq in Hc as ->. simpl. f_equal. by apply IH.
Qed.

Lemma startsWith_app_long s t sep :
  (List.length sep ≤ List.length s)%nat →
  startsWith (s ++ t) sep = startsWith s sep.
Proof.
  revert s. induction sep as [|c sep IH]; intros s Hlen; [done|].
  destruct s as [|d s]; [simpl in Hlen; lia|]. simpl.
  rewrite IH; [done|]. simpl in Hlen. lia.
Qed.

Lemma startsWith_app_true s t sep :
  startsWith s sep = true → startsWith (s ++ t) sep = true.
Proof.
  intros H. rewrite startsWith_app_long; [done|]. by apply startsWith_length.
Qed.

Lemma split_on_match sep s :
  sep ≠ [] → startsWith s sep = true →
  split_on sep s = [] :: split_on sep (drop (List.length sep) s).
Proof.
  intros Hsep H. destruct s as [|c s].
  - by destruct sep.
  - unfold split_on. cbn [split_go]. rewrite H, split_go_skip.
    destruct sep as [|x sep]; [done|]. simpl. by rewrite Nat.sub_0_r.
Qed.

Lemma split_on_no_match sep c s :
  startsWith (c :: s) sep = false →
  split_on sep (c :: s) = cons_head c (split_on sep s).
Proof. intros H. unfold split_on. cbn [split_go]. by rewrite H. Qed.

Lemma split_on_short sep s :
  (List.length s < List.length sep)%nat → split_on sep s = [s].
Proof.
  induction s as [|c s IH]; intros Hlen; [done|].
  rewrite split_on_no_match.
  - rewrite IH; [done|]. simpl in Hlen. lia.
  - destruct (startsWith (c :: s) sep) eqn:E; [|done].
    apply startsWith_length in E. lia.
Qed.

Lemma join_cons_head_sep sep c ls :
  ls ≠ [] → join sep (cons_head c ls) = c :: join sep ls.
Proof. destruct ls as [|l [|l' ls]]; done. Qed.

(** Joining what [split] returned gives the text back. *)
Lemma join_split_on sep s : sep ≠ [] → join sep (split_on sep s) = s.
Proof.
  intros Hsep. remember (List.length s) as n eqn:Hn. revert s Hn.
  induction (lt_wf n) as [n _ IH]. intros s Hn.
  destruct s as [|c s]; [done|].
  destruct (startsWith (c :: s) sep) eqn:E.
  - rewrite split_on_match by done.
    rewrite join_cons_ne by apply split_on_nonempty.
    rewrite (IH (List.length (drop (List.length sep) (c :: s)))); [| |done].
    + by rewrite <- startsWith_take_drop.
    + rewrite length_drop. destruct sep; [done|]. simpl in *. lia.
  - rewrite split_on_no_match by done.
    rewrite join_cons_head_sep by apply split_on_nonempty.
    rewrite (IH (List.length s)); [done| |done]. simpl in Hn. lia.
Qed.

Lemma split_on_single sep s l : sep ≠ [] → split_on sep s = [l] → l = s.
Proof.
  intros Hsep H. rewrite <- (join_split_on sep s Hsep). by rewrite H.
Qed.

(** Cutting a text in two and splitting the second part together with
    what the first part left open gives the split of the whole. *)
Lemma split_on_app sep a b :
  sep ≠ [] →
  split_on sep (a ++ b)
  = closed_parts sep a ++ split_on sep (open_part sep a ++ b).
Proof.
  intros Hsep. unfold closed_parts, open_part.
  remember (List.length a) as n eqn:Hn. revert a Hn.
  induction (lt_wf n) as [n _ IH]. intros a Hn.
  destruct a as [|c a]; [done|].
  destruct (startsWith (c :: a) sep) eqn:E.
  - rewrite (split_on_match sep (c :: a)) by done.
    rewrite (split_on_match sep ((c :: a) ++ b) Hsep
               (startsWith_app_true _ b _ E)).
    pose proof (startsWith_length _ _ E) as Hlen.
    rewrite drop_app_le by done.
    rewrite removelast_cons_ne, last_cons_ne by apply split_on_nonempty.
    rewrite (IH (List.length (drop (List.length sep) (c :: a)))); [done| |done].
    rewrite length_drop. destruct sep; [done|]. simpl in *. lia.
  - destruct (startsWith ((c :: a) ++ b) sep) eqn:E2.
    + assert (List.length (c :: a) < List.length sep)%nat as Hshort.
      { destruct (decide (List.length sep ≤ List.length (c :: a))%nat) as [H|H];
          [|lia].
        rewrite startsWith_app_long in E2 by done. congruence. }
      by rewrite (split_on_short sep (c :: a)).
    + rewrite <- app_comm_cons in *.
      rewrite (split_on_no_match sep c (a ++ b)) by done.
      rewrite (split_on_no_match sep c a) by done.
      destruct (split_on sep a) as [|l [|l' ls]] eqn:Hs.
      * by destruct (split_on_nonempty sep a).
      * apply split_on_single in Hs as ->; [|done]. simpl.
        by rewrite (split_on_no_match sep c (a ++ b)).
      * rewrite (IH (List.length a)); [|simpl in Hn; lia|done].
        rewrite Hs. done.
Qed.

(** The split on a line feed is the split of the read loop. *)
Lemma split_on_LF s : split_on [LF] s = split s.
Proof.
  induction s as [|c s IH]; [done|].
  rewrite split_cons. unfold split_on in *. cbn [split_go startsWith].
  rewrite andb_true_r. destruct (c =? LF); simpl; by rewrite IH.
Qed.

Lemma split_closed_open_on sep s :
  closed_parts sep s ++ [open_part sep s] = split_on sep s.
Proof.
  unfold closed_parts, open_part. pose proof (split_on_nonempty sep s) as Hne.
  destruct (split_on sep s) as [|x l] using rev_ind; [done|].
  by rewrite removelast_last, last_snoc.
Qed.

Lemma open_part_app sep a b :
  sep ≠ [] → open_part sep (a ++ b) = open_part sep (open_part sep a ++ b).
Proof.
  intros Hsep. unfold open_part at 1. rewrite split_on_app by done.
  rewrite last_app.
  pose proof (split_on_nonempty sep (open_part sep a ++ b)) as Hne.
  unfold open_part at 2.
  destruct (last (split_on sep (open_part sep a ++ b))) eqn:Hl; [done|].
  by apply last_None in Hl.
Qed.

Lemma closed_parts_app sep a b :
  sep ≠ [] →
  closed_parts sep (a ++ b)
  = closed_parts sep a ++ closed_parts sep (open_part sep a ++ b).
Proof.
  intros Hsep. unfold closed_parts at 1. rewrite split_on_app by done.
  pose proof (split_on_nonempty sep (open_part sep a ++ b)) as Hne.
  unfold closed_parts.
  destruct (split_on sep (open_part sep a ++ b)) as [|x l] using rev_ind; [done|].
  by rewrite app_assoc, !removelast_last.
Qed.

Lemma includes_false_split sep s :
  includes s sep = false → split_on sep s = [s].
Proof.
  induction s as [|c s IH]; [done|]. cbn [includes].
  intros [H1 H2]%orb_false_elim.
  by rewrite split_on_no_match, IH.
Qed.

(** ** The earlier page *)

Section LegacyProperties.

Variable JSON_parse : jsstring → option jsval.

Lemma legacy_feed_parts decoder buffer value :
  Legacy.feed decoder buffer value =
  let '(decoder', text) := decode decoder value in
  (decoder', open_part Legacy.BLANK_LINE (buffer ++ text),
   closed_parts Legacy.BLANK_LINE (buffer ++ text)).
Proof.
  unfold Legacy.feed, pop, open_part, closed_parts.
  by destruct (decode decoder value) as [d text].
Qed.

Lemma legacy_feed_all_parts decoder a chunks :
  ∃ messages,
    Legacy.feed_all decoder (open_part Legacy.BLANK_LINE a) chunks =
      ((decode decoder (List.concat chunks)).1,
       open_part Legacy.BLANK_LINE (a ++ (decode decoder (List.concat chunks)).2),
       messages)
    ∧ closed_parts Legacy.BLANK_LINE (a ++ (decode decoder (List.concat chunks)).2)
      = closed_parts Legacy.BLANK_LINE a ++ messages.
Proof.
  revert decoder a. induction chunks as [|v cs IH]; intros d a; simpl.
  - exists []. by rewrite !app_nil_r.
  - rewrite legacy_feed_parts, decode_app.
    destruct (decode d v) as [d1 t1].
    rewrite <- open_part_app by done.
    destruct (IH d1 (a ++ t1)) as (messages & Hfeed & Hclosed).
    rewrite Hfeed.
    destruct (decode d1 (List.concat cs)) as [d2 t2]; simpl in *.
    eexists; split; [by rewrite app_assoc|].
    rewrite app_assoc, Hclosed, closed_parts_app by done.
    by rewrite app_assoc.
Qed.

Lemma legacy_stream_updates_text chunks :
  Legacy.stream_updates JSON_parse chunks =
  Legacy.classify_message JSON_parse
    <$> closed_parts Legacy.BLANK_LINE
          (decode new_TextDecoder (List.concat chunks)).2.
Proof.
  unfold Legacy.stream_updates.
  destruct (legacy_feed_all_parts new_TextDecoder [] chunks)
    as (messages & Hfeed & Hclosed).
  change (open_part Legacy.BLANK_LINE []) with (@nil N) in Hfeed.
  rewrite Hfeed. simpl in *. by rewrite Hclosed.
Qed.

Lemma legacy_process_messages_app l1 l2 st :
  Legacy.process_messages JSON_parse (l1 ++ l2) st =
  Legacy.process_messages JSON_parse l2 (Legacy.process_messages JSON_parse l1 st).
Proof. unfold Legacy.process_messages. by rewrite foldl_app. Qed.

Lemma legacy_process_messages_updates messages st :
  Legacy.process_messages JSON_parse messages st =
  apply_updates (Legacy.classify_message JSON_parse <$> messages) st.
Proof. unfold Legacy.process_messages, apply_updates. by rewrite foldl_fmap. Qed.

Lemma legacy_reads_app os1 os2 a st :
  Legacy.reads JSON_parse (os1 ++ os2) a st =
  let '(a', st') := Legacy.reads JSON_parse os1 a st in
  Legacy.reads JSON_parse os2 a' st'.
Proof.
  revert a st. induction os1 as [|o os1 IH]; intros a st; [done|].
  simpl. destruct a as [|d b|].
  - by destruct os2.
  - destruct (Legacy.after_read JSON_parse o d b st) as [a' st']. apply IH.
  - by destruct os2.
Qed.

Lemma legacy_reads_values chunks decoder buffer st :
  Legacy.reads JSON_parse (ReadValue <$> chunks) (AwaitRead decoder buffer) st =
  let '(decoder', buffer', messages) := Legacy.feed_all decoder buffer chunks in
  (AwaitRead decoder' buffer', Legacy.process_messages JSON_parse messages st).
Proof.
  revert decoder buffer st.
  induction chunks as [|v cs IH]; intros d b st; [done|].
  simpl. destruct (Legacy.feed d b v) as [[d1 b1] m1].
  rewrite IH. destruct (Legacy.feed_all d1 b1 cs) as [[d2 b2] m2].
  by rewrite legacy_process_messages_app.
Qed.

Lemma legacy_reads_chunks chunks st :
  Legacy.reads JSON_parse (ReadValue <$> chunks) (AwaitRead new_TextDecoder []) st
  = (AwaitRead (Legacy.feed_all new_TextDecoder [] chunks).1.1
               (Legacy.feed_all new_TextDecoder [] chunks).1.2,
     apply_updates (Legacy.stream_updates JSON_parse chunks) st).
Proof.
  rewrite legacy_reads_values. unfold Legacy.stream_updates.
  destruct (Legacy.feed_all new_TextDecoder [] chunks) as [[d b] m]. simpl.
  by rewrite legacy_process_messages_updates.
Qed.

(** X18. The earlier page is chunk invariant too: with records separated
    by a blank line, any cut of the byte stream into chunks, also between
    the two line feeds of a separator, yields the same records and the
    same final state as the whole stream in one chunk. *)
Theorem legacy_chunk_invariance (chunks : list (list byte)) (st : AppState) :
  Legacy.stream_updates JSON_parse chunks
    = Legacy.stream_updates JSON_parse [List.concat chunks]
  ∧ (Legacy.reads JSON_parse (closed_stream chunks)
       (AwaitRead new_TextDecoder []) st).2
    = (Legacy.reads JSON_parse (closed_stream [List.concat chunks])
         (AwaitRead new_TextDecoder []) st).2.
Proof.
  assert (Legacy.stream_updates JSON_parse chunks
          = Legacy.stream_updates JSON_parse [List.concat chunks]) as Heq.
  { rewrite !legacy_stream_updates_text. simpl. by rewrite app_nil_r. }
  split; [done|].
  unfold closed_stream. rewrite !legacy_reads_app, !legacy_reads_chunks.
  by rewrite Heq.
Qed.

(** X19. The earlier page never reads what follows the last blank line:
    its records are the parts of the decoded text that a blank line
    closes, so a stream without any blank line, however long, applies no
    record and leaves the log and the result empty when it closes. *)
Theorem legacy_unterminated_dropped (chunks : list (list byte)) (st : AppState) :
  Legacy.stream_updates JSON_parse chunks
    = Legacy.classify_message JSON_parse
        <$> closed_parts Legacy.BLANK_LINE
              (decode new_TextDecoder (List.concat chunks)).2
  ∧ (includes (decode new_TextDecoder (List.concat chunks)).2 Legacy.BLANK_LINE
       = false →
     Legacy.stream_updates JSON_parse chunks = []
     ∧ observable
         (Legacy.handleSubmit JSON_parse (FetchResponse true true)
            (closed_stream chunks) st).2
       = ([], None, None)).
Proof.
  split; [apply legacy_stream_updates_text|].
  intros Hno.
  assert (Legacy.stream_updates JSON_parse chunks = []) as Hups.
  { rewrite legacy_stream_updates_text. unfold closed_parts.
    by rewrite includes_false_split. }
  split; [done|].
  unfold Legacy.handleSubmit, closed_stream. cbn [Legacy.after_fetch negb orb].
  rewrite legacy_reads_app, legacy_reads_chunks, Hups. reflexivity.
Qed.

(** X20. The earlier page reports every failure with one message and
    always clears its flags: a stream that closes leaves no error; a
    read or a fetch that is rejected, whatever the error and also an
    AbortError, a response that is not ok and a response without body
    all leave the same message; and in each case the loading flag and the
    streaming indicator end cleared. *)
Theorem legacy_outcomes (chunks : list (list byte)) (st : AppState) :
  (let r := Legacy.handleSubmit JSON_parse (FetchResponse true true)
              (closed_stream chunks) st in
   r.1 = Returned ∧ error r.2 = None
   ∧ loading r.2 = false ∧ streamActive r.2 = false)
  ∧ (∀ name,
       let r := Legacy.handleSubmit JSON_parse (FetchResponse true true)
                  ((ReadValue <$> chunks) ++ [ReadRejected name]) st in
       r.1 = Returned ∧ error r.2 = Some Legacy.COULD_NOT_REACH
       ∧ loading r.2 = false ∧ streamActive r.2 = false)
  ∧ (∀ fo,
       fo ≠ FetchResponse true true →
       let r := Legacy.handleSubmit JSON_parse fo [] st in
       r.1 = Returned ∧ error r.2 = Some Legacy.COULD_NOT_REACH
       ∧ loading r.2 = false ∧ streamActive r.2 = false).
Proof.
  split; [|split].
  - unfold Legacy.handleSubmit, closed_stream. cbn [Legacy.after_fetch negb orb].
    rewrite legacy_reads_app, legacy_reads_chunks. cbn.
    by rewrite apply_updates_error.
  - intros name. unfold Legacy.handleSubmit. cbn [Legacy.after_fetch negb orb].
    rewrite legacy_reads_app, legacy_reads_chunks. done.
  - intros fo Hfo. destruct fo as [name|[] []]; done.
Qed.

End LegacyProperties.

(** X21. The two versions of the page classify every parsed record
    alike, with one difference: for a result whose [success] is false the
    current page adds the error text (the backend's, or the fallback),
    which the earlier page does not. *)
Theorem versions_classify_alike (parsed : jsval) :
  match Legacy.classify_parsed parsed, classify_parsed parsed with
  | Some (SetApiData r0), Some (SetApiData r1) =>
      r0 = normalizeResponse (get parsed (js "data"))
      ∧ r1 = if eq_false (default JUndef (r0 !! js "success"))
             then <[js "error" :=
                      js_or (default JUndef (r0 !! js "error"))
                        (JStr (js "The API returned an unsuccessful response."))]>
                    r0
             else r0
  | earlier, current => earlier = current
  end.
Proof.
  unfold Legacy.classify_parsed, classify_parsed, member.
  destruct (nullish parsed); [done|]. cbn [mbind option_bind].
  destruct (eq_string (get parsed (js "type")) (js "result")).
  - by destruct (eq_false _).
  - by destruct (eq_string _ _ || truthy _).
Qed.

(** ** embedUrl *)

Lemma includes_cons_false c s sep :
  includes (c :: s) sep = false →
  startsWith (c :: s) sep = false ∧ includes s sep = false.
Proof. cbn [includes]. by intros [? ?]%orb_false_elim. Qed.

Lemma startsWith_self sep t : startsWith (sep ++ t) sep = true.
Proof. induction sep as [|x sep IH]; [done|]. simpl. by rewrite N.eqb_refl. Qed.

(** Before its first occurrence the separator cuts nothing. *)
Lemma split_on_first sep pre post :
  sep ≠ [] →
  includes (pre ++ removelast sep) sep = false →
  split_on sep (pre ++ sep ++ post) = pre :: split_on sep post.
Proof.
  intros Hsep. induction pre as [|c pre IH]; intros Hno.
  - simpl. rewrite (split_on_match sep (sep ++ post) Hsep (startsWith_self _ _)).
    by rewrite drop_app_length.
  - rewrite <- app_comm_cons in Hno.
    apply includes_cons_false in Hno as [Hhead Hrest].
    assert (startsWith ((c :: pre) ++ sep ++ post) sep = false) as Hnm.
    { assert (sep = removelast sep ++ [List.last sep 0]) as Hsnoc
        by (by apply app_removelast_last).
      assert (List.length sep = S (List.length (removelast sep))) as Hlen.
      { rewrite Hsnoc at 1. rewrite length_app. simpl. lia. }
      rewrite Hsnoc at 1. rewrite <- (app_assoc _ [_]), app_assoc.
      rewrite startsWith_app_long; [done|].
      rewrite length_app, Hlen. simpl. lia. }
    rewrite <- app_comm_cons in *.
    rewrite split_on_no_match by done. by rewrite IH.
Qed.

Lemma startsWith_through s c t sep :
  startsWith (s ++ c :: t) sep = true →
  (List.length sep ≤ List.length s)%nat ∨ c ∈ sep.
Proof.
  revert s. induction sep as [|x sep IH]; intros s; [left; simpl; lia|].
  destruct s as [|d s]; simpl.
  - intros [Hc _]%andb_prop. apply N.eqb_eq in Hc as ->. right. by left.
  - intros [_ H]%andb_prop. destruct (IH s H) as [Hl|Hin].
    + left. lia.
    + right. by right.
Qed.

(** The first part of a split goes at least up to a character that the
    separator does not contain. *)
Lemma split_on_head_through sep x c y :
  c ∉ sep → includes x sep = false →
  ∃ z rest, split_on sep (x ++ c :: y) = (x ++ c :: z) :: rest.
Proof.
  intros Hc. induction x as [|d x IH]; intros Hno.
  - simpl. rewrite split_on_no_match.
    + pose proof (split_on_nonempty sep y) as Hne.
      destruct (split_on sep y) as [|l ls]; [done|]. by exists l, ls.
    + destruct (startsWith (c :: y) sep) eqn:E; [|done].
      destruct (startsWith_through [] c y sep E) as [Hl|Hin]; [|done].
      destruct sep; [done|simpl in Hl; lia].
  - apply includes_cons_false in Hno as [Hhead Hrest].
    destruct (IH Hrest) as (z & rest & Heq).
    rewrite <- app_comm_cons, split_on_no_match, Heq; [by exists z, rest|].
    destruct (startsWith (d :: x ++ c :: y) sep) eqn:E; [|done].
    destruct (startsWith_through (d :: x) c y sep E) as [Hl|Hin]; [|done].
    rewrite app_comm_cons, startsWith_app_long in E by done. congruence.
Qed.

Lemma includes_app_sep pre sep post : includes (pre ++ sep ++ post) sep = true.
Proof.
  induction pre as [|c pre IH].
  - simpl. destruct (sep ++ post) as [|c r] eqn:E.
    + by apply app_eq_nil in E as [-> _].
    + cbn [includes]. by rewrite <- E, startsWith_self.
  - rewrite <- app_comm_cons. cbn [includes]. by rewrite IH, orb_true_r.
Qed.

Lemma includes_single c s : c ∉ s → includes s [c] = false.
Proof.
  induction s as [|d s IH]; intros Hc; [done|].
  cbn [includes startsWith]. rewrite IH by (intros ?; apply Hc; by right).
  destruct (N.eqb_spec d c) as [->|]; [|done].
  destruct Hc. by left.
Qed.

Section EmbedUrlProperties.

Variable URL_v : jsstring → option (option jsstring).

(** X22. [embedUrl] returns null only for a missing or empty url and
    never throws; for any other url the result is a non-empty string,
    either the url itself or an embed address with a non-empty id; and a
    url that contains neither the watch marker nor the short-link marker
    is returned unchanged. *)
Theorem embedUrl_result (url : option jsstring) :
  (embedUrl URL_v url = None ↔ url = None ∨ url = Some [])
  ∧ (∀ u r, url = Some u → embedUrl URL_v url = Some r →
            r ≠ [] ∧ (r = u ∨ ∃ id, id ≠ [] ∧ r = embed id))
  ∧ (∀ u, url = Some u → u ≠ [] →
          includes u WATCH_MARK = false → includes u SHORT_MARK = false →
          embedUrl URL_v url = Some u).
Proof.
  assert (∀ (u : jsstring) (id : option jsstring) (r : jsstring), u ≠ [] →
            match id with
            | Some id => if is_empty id then Some u else Some (embed id)
            | None => Some u
            end = Some r →
            r ≠ [] ∧ (r = u ∨ ∃ id, id ≠ [] ∧ r = embed id)) as Hid.
  { intros u [id|] r Hu; [|intros [= <-]; split; [done|by left]].
    destruct id as [|c id]; simpl; intros [= <-]; [split; [done|by left]|].
    split; [done|]. right. by exists (c :: id). }
  destruct url as [u|]; [|split; [split; [by left|done]|split; done]].
  destruct u as [|c u].
  { split; [split; [by right|done]|]. split; [done|]. by intros u [= <-]. }
  split; [|split].
  - split; [|by intros [|[=]]].
    cbn [embedUrl is_empty]. intros H. exfalso.
    destruct (includes (c :: u) WATCH_MARK).
    { destruct (URL_v (c :: u)) as [[id|]|]; try done. by destruct (is_empty id). }
    destruct (includes (c :: u) SHORT_MARK); [|done].
    destruct (match split_on SHORT_MARK (c :: u) !! 1%nat with
              | Some part => split_on (js "?") part !! 0%nat
              | None => None
              end) as [id|]; [|done].
    by destruct (is_empty id).
  - intros u' r [= <-]. cbn [embedUrl is_empty].
    destruct (includes (c :: u) WATCH_MARK).
    { destruct (URL_v (c :: u)) as [videoId|]; [by apply Hid|].
      intros [= <-]. split; [done|by left]. }
    destruct (includes (c :: u) SHORT_MARK); [by apply Hid|].
    intros [= <-]. split; [done|by left].
  - intros u' [= <-] _ H1 H2. cbn [embedUrl is_empty]. by rewrite H1, H2.
Qed.

(** X23. A short link is rewritten to the embed address of its id: for a
    url made of a part without the short-link marker, the marker, a
    non-empty id free of marker and question mark, and then nothing or a
    query string, and that does not contain the watch marker, the result
    is the embed address of that id. *)
Theorem embedUrl_short_link (pre id rest : jsstring) :
  includes (pre ++ removelast SHORT_MARK) SHORT_MARK = false →
  includes id SHORT_MARK = false → 0x3F ∉ id → id ≠ [] →
  (rest = [] ∨ ∃ q, rest = 0x3F :: q) →
  includes (pre ++ SHORT_MARK ++ id ++ rest) WATCH_MARK = false →
  embedUrl URL_v (Some (pre ++ SHORT_MARK ++ id ++ rest)) = Some (embed id).
Proof.
  intros Hpre Hid Hq Hne Hrest Hwatch. cbn [embedUrl].
  assert (is_empty (pre ++ SHORT_MARK ++ id ++ rest) = false) as ->.
  { destruct pre; [|done]. reflexivity. }
  rewrite Hwatch, includes_app_sep.
  rewrite split_on_first by done.
  assert (∃ part more, split_on SHORT_MARK (id ++ rest) = part :: more
                       ∧ split_on (js "?") part !! 0%nat = Some id)
    as (part & more & -> & Hpart).
  { destruct Hrest as [->|[q ->]].
    - rewrite app_nil_r, includes_false_split by done.
      exists id, []. split; [done|].
      rewrite includes_false_split; [done|]. by apply includes_single.
    - destruct (split_on_head_through SHORT_MARK id 0x3F q) as (z & more & ->);
        [|done|].
      { apply (bool_decide_unpack _). by vm_compute. }
      exists (id ++ 0x3F :: z), more. split; [done|].
      change (js "?") with [0x3F].
      change (id ++ 0x3F :: z) with (id ++ [0x3F] ++ z).
      rewrite (split_on_first [0x3F] id z); [done|done|].
      rewrite app_nil_r. by apply includes_single. }
  cbn [lookup list_lookup]. rewrite Hpart.
  by destruct id.
Qed.

End EmbedUrlProperties.

(** ** Team names and logos *)

Lemma trimStart_suffix s :
  ∃ a, s = a ++ trimStart s ∧ forallb is_white_space a = true.
Proof.
  induction s as [|c s (a & Hs & Ha)]; [by exists []|].
  simpl. destruct (is_white_space c) eqn:Hc.
  - exists (c :: a). split; [by rewrite <- app_comm_cons, <- Hs|].
    simpl. by rewrite Hc.
  - by exists [].
Qed.

Lemma trimStart_head s c r : trimStart s = c :: r → is_white_space c = false.
Proof.
  induction s as [|x s IH]; [done|]. simpl.
  destruct (is_white_space x) eqn:Hx; [done|]. by intros [= <- _].
Qed.

Lemma forallb_reverse {A} (p : A → bool) l :
  forallb p (reverse l) = forallb p l.
Proof.
  induction l as [|x l IH]; [done|].
  rewrite reverse_cons, forallb_app, IH. simpl. by rewrite andb_true_r, andb_comm.
Qed.

(** [trim] cuts white space off both ends and nothing else. *)
Lemma trim_infix s :
  ∃ a b, s = a ++ trim s ++ b
         ∧ forallb is_white_space a = true ∧ forallb is_white_space b = true.
Proof.
  destruct (trimStart_suffix s) as (a & Hs & Ha).
  destruct (trimStart_suffix (reverse (trimStart s))) as (b & Hr & Hb).
  exists a, (reverse b). split; [|split; [done|by rewrite forallb_reverse]].
  unfold trim. rewrite <- reverse_app, <- Hr, reverse_involutive. done.
Qed.

Lemma trim_ends s :
  negb (startsWith (trim s) [0x20]) = true
  ∧ negb (startsWith (reverse (trim s)) [0x20]) = true.
Proof.
  assert (∀ t, (∀ c r, t = c :: r → is_white_space c = false) →
               negb (startsWith t [0x20]) = true) as Hhead.
  { intros [|c r] H; [done|]. specialize (H c r eq_refl). simpl.
    destruct (N.eqb_spec c 0x20) as [->|]; [done|done]. }
  split; apply Hhead; intros c r Hc.
  - destruct (trim_infix s) as (a & b & Hs & Ha & Hb).
    destruct (trimStart_suffix (reverse (trimStart s))) as (b' & Hr & Hb').
    assert (trimStart s = trim s ++ reverse b') as Ht.
    { unfold trim. rewrite <- reverse_app, <- Hr. by rewrite reverse_involutive. }
    rewrite Hc in Ht. by apply (trimStart_head s c (r ++ reverse b')).
  - unfold trim in Hc. rewrite reverse_involutive in Hc.
    by apply trimStart_head in Hc.
Qed.

Lemma single_spaced_cons c s : single_spaced (c :: s) = true → single_spaced s = true.
Proof. destruct s as [|d s]; [done|]. simpl. by intros [_ ?]%andb_prop. Qed.

Lemma single_spaced_app_r a t : single_spaced (a ++ t) = true → single_spaced t = true.
Proof.
  induction a as [|c a IH]; [done|]. intros H. apply IH.
  by apply (single_spaced_cons c).
Qed.

Lemma single_spaced_app_l t b : single_spaced (t ++ b) = true → single_spaced t = true.
Proof.
  induction t as [|c t IH]; [done|]. destruct t as [|d t]; [done|].
  simpl. intros [H1 H2]%andb_prop. rewrite H1. simpl. by apply IH.
Qed.

Lemma is_alnum_not_space c : is_alnum c = true → (c =? 0x20) = false.
Proof.
  unfold is_alnum. destruct (N.eqb_spec c 0x20) as [->|]; [done|done].
Qed.

(** After the replacement only letters, digits and single spaces remain. *)
Lemma replace_runs_spaced s in_run :
  let r := replace_runs (λ c, negb (is_alnum c)) (js " ") in_run s in
  forallb team_char r = true
  ∧ single_spaced r = true
  ∧ (in_run = true → startsWith r [0x20] = false).
Proof.
  revert in_run. induction s as [|c s IH]; intros in_run; [by destruct in_run|].
  simpl. destruct (is_alnum c) eqn:Hc; simpl.
  - destruct (IH false) as (Hall & Hsp & _).
    unfold team_char at 1. rewrite Hc. simpl. split; [done|]. split.
    + destruct (replace_runs _ _ false s) as [|d r] eqn:E; [done|].
      rewrite (is_alnum_not_space c Hc). simpl.
      exact Hsp.
    + intros _. by rewrite (is_alnum_not_space c Hc).
  - destruct (IH true) as (Hall & Hsp & Hhead).
    destruct in_run; [done|].
    change (js " " ++ ?x) with (0x20 :: x).
    split; [done|]. split; [|done].
    specialize (Hhead eq_refl).
    destruct (replace_runs _ _ true s) as [|d r] eqn:E; [done|].
    change (negb ((0x20 =? 0x20) && (d =? 0x20)) && single_spaced (d :: r) = true).
    simpl in Hhead. rewrite andb_true_r in Hhead. rewrite Hhead. simpl.
    exact Hsp.
Qed.

Lemma forallb_infix {A} (p : A → bool) a t b :
  forallb p (a ++ t ++ b) = true → forallb p t = true.
Proof.
  rewrite !forallb_app. intros [_ [H _]%andb_prop]%andb_prop. done.
Qed.

Lemma is_alnum_range c : is_alnum c = true → 0x30 ≤ c ≤ 0x7A.
Proof.
  unfold is_alnum. intros [[H1 H2]%andb_prop|[H1 H2]%andb_prop]%orb_prop;
    apply N.leb_le in H1, H2; lia.
Qed.

Lemma is_alnum_not_white c : is_alnum c = true → is_white_space c = false.
Proof.
  intros H%is_alnum_range. unfold is_white_space.
  repeat match goal with
         | |- context [c =? ?k] => rewrite (proj2 (N.eqb_neq c k)) by lia
         end.
  by rewrite (proj2 (N.leb_gt 0x2000 c)) by lia.
Qed.

Lemma team_char_cases c :
  team_char c = true → is_alnum c = true ∨ (c = 0x20 ∧ is_alnum c = false).
Proof.
  unfold team_char. destruct (is_alnum c) eqn:E; [by left|].
  simpl. intros ->%N.eqb_eq. by right.
Qed.

Lemma team_char_ascii c : team_char c = true → c < 128.
Proof.
  intros [H%is_alnum_range|[-> _]]%team_char_cases; lia.
Qed.

Lemma team_char_lower c : team_char c = true → ascii_lower c = c.
Proof.
  intros H. unfold ascii_lower.
  destruct ((0x41 <=? c) && (c <=? 0x5A)) eqn:E; [|done].
  apply andb_prop in E as [H1%N.leb_le H2%N.leb_le].
  apply team_char_cases in H as [H|[-> _]]; [|lia].
  unfold is_alnum in H.
  apply orb_prop in H as [[H3%N.leb_le _]%andb_prop|[_ H4%N.leb_le]%andb_prop]; lia.
Qed.

Lemma replace_runs_all class rep in_run s :
  forallb class s = true →
  replace_runs class rep in_run s
  = if in_run || is_empty s then [] else rep.
Proof.
  revert in_run. induction s as [|c s IH]; intros in_run; [by destruct in_run|].
  simpl. intros [Hc Hs]%andb_prop. rewrite Hc, !IH by done.
  destruct in_run; [done|]. simpl. by rewrite app_nil_r.
Qed.

Lemma replace_runs_keeps class rep in_run s c :
  c ∈ s → class c = false → c ∈ replace_runs class rep in_run s.
Proof.
  revert in_run. induction s as [|d s IH]; intros in_run Hin Hc.
  - by apply elem_of_nil in Hin.
  - simpl. apply elem_of_cons in Hin as [<-|Hin].
    + rewrite Hc. by left.
    + destruct (class d); [|right; by apply IH].
      destruct in_run; [by apply IH|]. apply elem_of_app. right. by apply IH.
Qed.

Lemma replace_runs_normal s in_run :
  forallb team_char s = true → single_spaced s = true →
  (in_run = true → startsWith s [0x20] = false) →
  replace_runs (λ c, negb (is_alnum c)) (js " ") in_run s = s.
Proof.
  revert in_run. induction s as [|c s IH]; intros in_run; [done|].
  intros Hall Hsp Hhead. cbn [forallb] in Hall.
  apply andb_prop in Hall as [Hc Hall].
  pose proof (single_spaced_cons _ _ Hsp) as Hsp'.
  cbn [replace_runs]. apply team_char_cases in Hc as [Hc|[-> Hc]]; rewrite Hc.
  - cbn [negb]. by rewrite IH.
  - cbn [negb]. destruct in_run; [by specialize (Hhead eq_refl)|].
    change (js " " ++ ?x) with (0x20 :: x). rewrite IH; [done|done|done|].
    intros _. destruct s as [|d s]; [done|]. simpl in Hsp.
    apply andb_prop in Hsp as [Hd _]. simpl. rewrite andb_true_r.
    by destruct (d =? 0x20).
Qed.

Lemma trimStart_normal s :
  forallb team_char s = true → startsWith s [0x20] = false → trimStart s = s.
Proof.
  destruct s as [|c s]; [done|]. cbn [forallb startsWith trimStart].
  intros [Hc _]%andb_prop. rewrite andb_true_r. intros Hsp.
  apply team_char_cases in Hc as [Hc|[-> _]]; [|done].
  by rewrite (is_alnum_not_white c Hc).
Qed.

Lemma trim_normal s : is_normal s = true → trim s = s.
Proof.
  unfold is_normal.
  intros [[[H1 H2]%andb_prop H3%negb_true_iff]%andb_prop H4%negb_true_iff]%andb_prop.
  unfold trim. rewrite (trimStart_normal s) by done.
  rewrite trimStart_normal; [by rewrite reverse_involutive| |done].
  by rewrite forallb_reverse.
Qed.

Lemma slug_chars s in_run :
  forallb team_char s = true →
  forallb slug_char (replace_runs is_white_space (js "-") in_run s) = true.
Proof.
  revert in_run. induction s as [|c s IH]; intros in_run; [done|].
  cbn [forallb replace_runs]. intros [Hc Hs]%andb_prop.
  apply team_char_cases in Hc as [Hc|[-> _]].
  - rewrite (is_alnum_not_white c Hc). cbn [forallb]. unfold slug_char at 1.
    rewrite Hc. by apply IH.
  - change (is_white_space 0x20) with true. cbv iota.
    destruct in_run; [by apply IH|].
    change (js "-" ++ ?x) with (0x2D :: x). cbn [forallb]. by rewrite IH.
Qed.

Section TeamProperties.

Variable toLowerCase : jsstring → jsstring.
Variable Object_text : jsstring.

Lemma normalizeTeam_trim name :
  normalizeTeam toLowerCase (Some name)
  = trim (replace_runs (λ c, negb (is_alnum c)) (js " ") false (toLowerCase name)).
Proof. unfold normalizeTeam. by destruct (trim _). Qed.

Lemma normalizeTeam_is_normal name :
  is_normal (normalizeTeam toLowerCase name) = true.
Proof.
  destruct name as [name|]; [|done]. rewrite normalizeTeam_trim.
  set (r := replace_runs _ _ false (toLowerCase name)).
  destruct (replace_runs_spaced (toLowerCase name) false) as (Hall & Hsp & _).
  fold r in Hall, Hsp.
  destruct (trim_infix r) as (a & b & Hr & _ & _).
  destruct (trim_ends r) as [Hh Hl].
  unfold is_normal. rewrite Hh, Hl.
  rewrite Hr in Hall, Hsp.
  rewrite (forallb_infix _ _ _ _ Hall).
  apply single_spaced_app_r, single_spaced_app_l in Hsp. by rewrite Hsp.
Qed.

(** X24. Whatever the name, and whatever [toLowerCase] does to it, the
    normalised team name is made of lower-case ASCII letters, digits and
    single spaces only, and neither starts nor ends with a space. *)
Theorem normalizeTeam_normal_form (name : option jsstring) :
  let norm := normalizeTeam toLowerCase name in
  Forall (λ c, is_alnum c = true ∨ c = 0x20) norm
  ∧ single_spaced norm = true
  ∧ startsWith norm [0x20] = false
  ∧ startsWith (reverse norm) [0x20] = false.
Proof.
  pose proof (normalizeTeam_is_normal name) as H. unfold is_normal in H.
  apply andb_prop in H as [[[H1 H2]%andb_prop H3]%andb_prop H4].
  cbv zeta. split; [|split; [done|split]].
  - apply Forall_forall. intros c Hc%list_elem_of_In.
    rewrite forallb_forall in H1. specialize (H1 c Hc). unfold team_char in H1.
    apply orb_prop in H1 as [?|?%N.eqb_eq]; auto.
  - by apply negb_true_iff in H3.
  - by apply negb_true_iff in H4.
Qed.

Lemma normalizeTeam_empty_iff name :
  normalizeTeam toLowerCase (Some name) = []
  ↔ forallb (λ c, negb (is_alnum c)) (toLowerCase name) = true.
Proof.
  rewrite normalizeTeam_trim. split.
  - intros H%trim_nil. apply forallb_forall. intros c Hc%list_elem_of_In.
    destruct (is_alnum c) eqn:E; [|done].
    rewrite forallb_forall in H.
    pose proof (is_alnum_not_white c E) as Hw.
    rewrite (H c) in Hw; [done|].
    apply list_elem_of_In, replace_runs_keeps; [done|by rewrite E].
  - intros H. rewrite replace_runs_all by done.
    by destruct (is_empty (toLowerCase name)).
Qed.

(** X25. A team has no logo exactly when its name has no letter or digit
    left after lower-casing, a missing or empty name included; every
    other team gets a path of the form /logos/....png . *)
Theorem logoForTeam_null_iff (name : option jsstring) :
  (logoForTeam toLowerCase Object_text name = None
   ↔ match name with
     | None => True
     | Some n => forallb (λ c, negb (is_alnum c)) (toLowerCase n) = true
     end)
  ∧ (∀ r, logoForTeam toLowerCase Object_text name = Some r →
          ∃ x, r = logo_path x).
Proof.
  split.
  - assert (logoForTeam toLowerCase Object_text name = None
            ↔ normalizeTeam toLowerCase name = []) as ->.
    { unfold logoForTeam.
      destruct (normalizeTeam toLowerCase name) as [|c n]; [done|]. cbn [is_empty].
      split; [|done].
      destruct (alias_of (c :: n)) as [[m|]|]; [by destruct (is_empty m)|done|done]. }
    destruct name as [n|]; [apply normalizeTeam_empty_iff|done].
  - intros r. unfold logoForTeam.
    destruct (is_empty (normalizeTeam toLowerCase name)); [done|].
    destruct (alias_of _) as [[m|]|]; [destruct (is_empty m)|..];
      intros [= <-]; by eexists.
Qed.

Lemma normalizeTeam_fixed s :
  lowers_ascii toLowerCase → is_normal s = true →
  normalizeTeam toLowerCase (Some s) = s.
Proof.
  intros Hlow Hn. rewrite normalizeTeam_trim.
  pose proof Hn as Hn'. unfold is_normal in Hn'.
  apply andb_prop in Hn' as [[[H1 H2]%andb_prop H3%negb_true_iff]%andb_prop _].
  rewrite Hlow.
  - assert (ascii_lower <$> s = s) as ->.
    { clear -H1. induction s as [|c s IH]; [done|]. cbn [forallb] in H1.
      apply andb_prop in H1 as [Hc Hs]. rewrite fmap_cons, IH by done.
      by rewrite team_char_lower. }
    rewrite replace_runs_normal by done. by apply trim_normal.
  - apply Forall_forall. intros c Hc%list_elem_of_In.
    rewrite forallb_forall in H1. by apply team_char_ascii, H1.
Qed.

(** X26. Normalising a team name twice changes nothing more: the result
    of [normalizeTeam] is a fixed point of it, and so is every string of
    lower-case letters, digits and single inner spaces. *)
Theorem normalizeTeam_idempotent (name : option jsstring) :
  lowers_ascii toLowerCase →
  normalizeTeam toLowerCase (Some (normalizeTeam toLowerCase name))
    = normalizeTeam toLowerCase name
  ∧ ∀ s, is_normal s = true → normalizeTeam toLowerCase (Some s) = s.
Proof.
  intros Hlow. split.
  - apply normalizeTeam_fixed; [done|]. apply normalizeTeam_is_normal.
  - intros s. by apply normalizeTeam_fixed.
Qed.

Lemma LOGO_ENTRIES_NoDup : NoDup (LOGO_ENTRIES.*1).
Proof. apply (bool_decide_unpack _). by vm_compute. Qed.

Lemma LOGO_ALIASES_lookup k v :
  LOGO_ALIASES !! k = Some v ↔ (k, v) ∈ LOGO_ENTRIES.
Proof.
  unfold LOGO_ALIASES. symmetry. apply elem_of_list_to_map, LOGO_ENTRIES_NoDup.
Qed.

Lemma LOGO_ENTRIES_checked :
  forallb (λ kv, negb (is_empty kv.1) && negb (is_empty kv.2)
                 && forallb slug_char kv.2) LOGO_ENTRIES = true.
Proof. vm_compute. reflexivity. Qed.

(** X27. Two entries of the alias table can never apply, because their
    keys hold a character that normalisation removes: ["brighton & hove
    albion"] and ["paris saint-germain"].  No name normalises to them.
    Every other entry is live: its key, as a name, gets the logo the
    entry names. *)
Theorem alias_entries_reachable :
  filter (λ kv, is_normal kv.1 = false) LOGO_ENTRIES
    = [(js "brighton & hove albion", js "brighton");
       (js "paris saint-germain", js "psg")]
  ∧ (∀ name k v, (k, v) ∈ LOGO_ENTRIES → is_normal k = false →
                 normalizeTeam toLowerCase name ≠ k)
  ∧ (lowers_ascii toLowerCase →
     ∀ k v, (k, v) ∈ LOGO_ENTRIES → is_normal k = true →
            logoForTeam toLowerCase Object_text (Some k) = Some (logo_path v)).
Proof.
  split; [by vm_compute|]. split.
  - intros name k v _ Hk Heq. rewrite <- Heq in Hk.
    by rewrite normalizeTeam_is_normal in Hk.
  - intros Hlow k v Hin Hk.
    pose proof LOGO_ENTRIES_checked as Hcheck. rewrite forallb_forall in Hcheck.
    specialize (Hcheck (k, v) (proj1 (list_elem_of_In _ _) Hin)). cbn [fst snd] in Hcheck.
    apply andb_prop in Hcheck as [[Hk1%negb_true_iff Hv1%negb_true_iff]%andb_prop _].
    unfold logoForTeam. rewrite normalizeTeam_fixed by done. rewrite Hk1.
    unfold alias_of. rewrite (proj2 (LOGO_ALIASES_lookup k v) Hin). by rewrite Hv1.
Qed.

(** X28. Every logo path is a clean file name: for any team whose
    normalised name is not ["constructor"], the path is /logos/ followed
    by a non-empty name made of lower-case letters, digits and hyphens,
    followed by .png , whether the name comes from the alias table or
    from the normalised name itself. *)
Theorem logo_path_clean (name : option jsstring) (r : jsstring) :
  logoForTeam toLowerCase Object_text name = Some r →
  normalizeTeam toLowerCase name ≠ js "constructor" →
  ∃ x, r = logo_path x ∧ x ≠ [] ∧ forallb slug_char x = true.
Proof.
  unfold logoForTeam. pose proof (normalizeTeam_is_normal name) as Hn.
  set (norm := normalizeTeam toLowerCase name) in *.
  destruct norm as [|c n] eqn:E; [done|]. cbn [is_empty]. intros Hr Hctor.
  assert (∃ x, x = slug (c :: n) ∧ x ≠ [] ∧ forallb slug_char x = true)
    as (sl & Hsl & Hne & Hchars).
  { eexists. split; [done|].
    unfold is_normal in Hn.
    apply andb_prop in Hn as [[[H1 _]%andb_prop H3%negb_true_iff]%andb_prop _].
    split; [|by apply slug_chars].
    unfold slug. cbn [replace_runs]. cbn [forallb] in H1.
    apply andb_prop in H1 as [Hc _]. simpl in H3. rewrite andb_true_r in H3.
    apply team_char_cases in Hc as [Hc|[-> _]]; [|done].
    by rewrite (is_alnum_not_white c Hc). }
  unfold alias_of in Hr.
  destruct (LOGO_ALIASES !! (c :: n)) as [m|] eqn:Hm.
  - apply LOGO_ALIASES_lookup in Hm.
    pose proof LOGO_ENTRIES_checked as Hcheck. rewrite forallb_forall in Hcheck.
    specialize (Hcheck _ (proj1 (list_elem_of_In _ _) Hm)). cbn [fst snd] in Hcheck.
    apply andb_prop in Hcheck as [[_ Hv%negb_true_iff]%andb_prop Hv2].
    rewrite Hv in Hr. injection Hr as <-. exists m. split; [done|].
    split; [by destruct m|done].
  - rewrite bool_decide_eq_false_2 in Hr by done. injection Hr as <-.
    exists sl. by rewrite Hsl in *.
Qed.

End TeamProperties.

(** ** The score of ScoreBanner *)

Lemma trim_keeps c s : c ∈ s → is_white_space c = false → c ∈ trim s.
Proof.
  intros Hin Hc. destruct (trim_infix s) as (a & b & Hs & Ha & Hb).
  rewrite Hs in Hin. rewrite forallb_forall in Ha, Hb.
  apply elem_of_app in Hin as [Hin|Hin%elem_of_app].
  - apply list_elem_of_In, Ha in Hin. congruence.
  - destruct Hin as [Hin|Hin]; [done|].
    apply list_elem_of_In, Hb in Hin. congruence.
Qed.

(** X29. A score with a hyphen is shown by its two sides: for a score
    made of a home part, a hyphen and an away part, neither holding a
    hyphen, the banner shows the trimmed parts, with 0 in place of a part
    that is blank.  A score without any hyphen but with some visible
    character, other than the placeholder, is shown whole as the home
    score with 0 as the away score. *)
Theorem score_texts_sides (h a s : jsstring) :
  (0x2D ∉ h → 0x2D ∉ a →
   score_texts (Some (h ++ js "-" ++ a))
   = Some (or_zero (Some (trim h)), or_zero (Some (trim a))))
  ∧ (0x2D ∉ s → is_empty (trim s) = false → s ≠ SCORE_PLACEHOLDER →
     score_texts (Some s) = Some (trim s, js "0")).
Proof.
  split.
  - intros Hh Ha. unfold score_texts.
    assert (0x2D ∈ h ++ js "-" ++ a) as Hin
      by (apply elem_of_app; right; by left).
    assert (is_empty (h ++ js "-" ++ a) = false) as -> by (by destruct h).
    rewrite bool_decide_eq_false_2.
    2:{ intros Heq. rewrite Heq in Hin. revert Hin.
        apply (bool_decide_unpack _). by vm_compute. }
    assert (is_empty (trim (h ++ js "-" ++ a)) = false) as ->.
    { pose proof (trim_keeps _ _ Hin eq_refl) as Ht.
      by destruct (trim (h ++ js "-" ++ a)); [apply elem_of_nil in Ht|]. }
    cbn [orb]. change (js "-") with [0x2D].
    rewrite (split_on_first [0x2D] h a);
      [|done|rewrite app_nil_r; by apply includes_single].
    rewrite (includes_false_split [0x2D] a) by (by apply includes_single).
    reflexivity.
  - intros Hs Hblank Hne. unfold score_texts.
    assert (is_empty s = false) as -> by (by destruct s).
    rewrite bool_decide_eq_false_2, Hblank by done. cbn [orb].
    change (js "-") with [0x2D].
    rewrite (includes_false_split [0x2D] s) by (by apply includes_single).
    cbn [fmap list_fmap lookup list_lookup or_zero]. by rewrite Hblank.
Qed.

(** ** The further properties at sample inputs *)

(** A stream whose last record lacks its line feed, and the same stream
    followed by one. *)
Lemma final_newline_optional_witness :
  stream_updates Json.parse [sse_line progress_line; unterminated_chunk; [x0a]]
  = stream_updates Json.parse [sse_line progress_line; unterminated_chunk].
Proof.
  apply (final_newline_optional Json.parse
           [sse_line progress_line; unterminated_chunk]).
  vm_compute. reflexivity.
Defined.

(** A progress line and a result line, then an unterminated progress
    line. *)
Lemma stream_of_lines_witness :
  stream_updates Json.parse
    [sse_line progress_line; sse_line result_line; unterminated_chunk]
  = classify Json.parse
      <$> payloads [js "data: " ++ quoted progress_line;
                    js "data: " ++ quoted result_line;
                    js "data: " ++ quoted progress_line].
Proof.
  apply (stream_of_lines Json.parse
           [sse_line progress_line; sse_line result_line; unterminated_chunk]
           [js "data: " ++ quoted progress_line;
            js "data: " ++ quoted result_line]
           (js "data: " ++ quoted progress_line)).
  - repeat constructor; apply (bool_decide_unpack _); vm_compute; exact I.
  - apply (bool_decide_unpack _). vm_compute. exact I.
  - vm_compute. reflexivity.
Defined.

(** A line whose payload is a JSON array. *)
Lemma non_object_ignored_witness :
  processSSELine Json.parse (quoted "['fetch']") initial_state = initial_state.
Proof.
  apply (non_object_ignored Json.parse (quoted "['fetch']")
           (JArr [JStr (js "fetch")]) initial_state).
  - vm_compute. reflexivity.
  - intros m H. discriminate H.
Defined.

(** The result of the sample result line. *)
Lemma stored_result_normalized_witness :
  classify_parsed (record_of result_line) = Some (SetApiData scenario_result)
  ∧ normalized scenario_result.
Proof.
  assert (classify_parsed (record_of result_line)
          = Some (SetApiData scenario_result)) as H by (vm_compute; reflexivity).
  split; [exact H|].
  apply (stored_result_normalized (record_of result_line) scenario_result H).
Defined.

(** The event of the sample progress line. *)
Lemma progress_event_displayable_witness : displayable fetch_event.
Proof.
  apply (progress_event_displayable (record_of progress_line) fetch_event).
  vm_compute. reflexivity.
Defined.

(** The sample result has one highlight, a string: no video is embedded. *)
Lemma string_highlights_not_embedded_witness :
  primaryHighlight (highlightCards (Some scenario_result)) = Some None.
Proof.
  apply (string_highlights_not_embedded scenario_result
           [JStr (js "Goal highlight")]).
  - vm_compute. reflexivity.
  - repeat constructor.
Defined.

(** After a failed request the error is the generic message. *)
Lemma error_is_generic_witness :
  let w := default world0 (run Json.parse failed_trace world0) in
  run Json.parse failed_trace world0 = Some w
  ∧ error (react w) = Some NO_LIVE_UPDATES
  ∧ (error (react w) = None ∨ error (react w) = Some NO_LIVE_UPDATES).
Proof.
  intros w.
  assert (run Json.parse failed_trace world0 = Some w) as Hrun
    by (vm_compute; reflexivity).
  split; [exact Hrun|]. split; [vm_compute; reflexivity|].
  apply (error_is_generic Json.parse failed_trace w Hrun).
Defined.

(** After a failed request the line under the form is the message. *)
Lemma memory_warning_never_shown_witness :
  let w := default world0 (run Json.parse failed_trace world0) in
  run Json.parse failed_trace world0 = Some w
  ∧ (error_line lower_ascii_only (error (react w)) = NoErrorLine
     ∨ error_line lower_ascii_only (error (react w))
       = ErrorMessage NO_LIVE_UPDATES).
Proof.
  intros w.
  assert (run Json.parse failed_trace world0 = Some w) as Hrun
    by (vm_compute; reflexivity).
  split; [exact Hrun|].
  apply (memory_warning_never_shown Json.parse lower_ascii_only failed_trace w).
  - intros s _. reflexivity.
  - exact Hrun.
Defined.

(** The log after a progress record and a result. *)
Lemma reachable_log_bounded_witness :
  let w := default world0 (run Json.parse result_trace world0) in
  run Json.parse result_trace world0 = Some w
  ∧ thinking (react w) = [fetch_event]
  ∧ (List.length (thinking (react w)) ≤ 12)%nat
  ∧ Forall displayable (thinking (react w)).
Proof.
  intros w.
  assert (run Json.parse result_trace world0 = Some w) as Hrun
    by (vm_compute; reflexivity).
  split; [exact Hrun|]. split; [vm_compute; reflexivity|].
  apply (reachable_log_bounded Json.parse result_trace w Hrun).
Defined.

(** The result held after a progress record and a result. *)
Lemma reachable_result_normalized_witness :
  let w := default world0 (run Json.parse result_trace world0) in
  run Json.parse result_trace world0 = Some w
  ∧ apiData (react w) = Some scenario_result
  ∧ normalized scenario_result.
Proof.
  intros w.
  assert (run Json.parse result_trace world0 = Some w) as Hrun
    by (vm_compute; reflexivity).
  assert (apiData (react w) = Some scenario_result) as Hdata
    by (vm_compute; reflexivity).
  split; [exact Hrun|]. split; [exact Hdata|].
  apply (reachable_result_normalized Json.parse result_trace w
           scenario_result Hrun Hdata).
Defined.

(** The flags while the second of two overlapping sessions runs. *)
Lemma flags_consistent_witness :
  let w := default world0 (run Json.parse overlap_trace world0) in
  run Json.parse overlap_trace world0 = Some w
  ∧ loading (react w) = true
  ∧ loading (react w) = streamActive (react w)
  ∧ loading_has_cause w.
Proof.
  intros w.
  assert (run Json.parse overlap_trace world0 = Some w) as Hrun
    by (vm_compute; reflexivity).
  split; [exact Hrun|]. split; [vm_compute; reflexivity|].
  destruct (flags_consistent Json.parse overlap_trace w Hrun) as (H1 & H2 & _).
  split; [exact H1|exact H2].
Defined.

(** A short link with a query. *)
Lemma embedUrl_short_link_witness :
  embedUrl no_URL (Some (js "https://youtu.be/dQw4w9WgXcQ?t=42"))
  = Some (js "https://www.youtube.com/embed/dQw4w9WgXcQ?autoplay=0").
Proof.
  apply (embedUrl_short_link no_URL (js "https://") (js "dQw4w9WgXcQ")
           (js "?t=42")).
  - vm_compute. reflexivity.
  - vm_compute. reflexivity.
  - apply (bool_decide_unpack _). vm_compute. exact I.
  - discriminate.
  - right. exists (js "t=42"). reflexivity.
  - vm_compute. reflexivity.
Defined.

(** A name with capitals and spaces, and its normal form. *)
Lemma normalizeTeam_idempotent_witness :
  normalizeTeam lower_ascii_only (Some (js "  Real   MADRID ")) = js "real madrid"
  ∧ normalizeTeam lower_ascii_only (Some (js "real madrid")) = js "real madrid".
Proof.
  split; [vm_compute; reflexivity|].
  apply (normalizeTeam_idempotent lower_ascii_only None).
  - intros s _. reflexivity.
  - vm_compute. reflexivity.
Defined.

(** The logo of a name with a hyphen. *)
Lemma logo_path_clean_witness :
  logoForTeam lower_ascii_only V8_Object_text (Some (js "Paris Saint-Germain"))
  = Some (js "/logos/paris-saint-germain.png")
  ∧ ∃ x, js "/logos/paris-saint-germain.png" = logo_path x
         ∧ x ≠ [] ∧ forallb slug_char x = true.
Proof.
  assert (logoForTeam lower_ascii_only V8_Object_text
            (Some (js "Paris Saint-Germain"))
          = Some (js "/logos/paris-saint-germain.png")) as H
    by (vm_compute; reflexivity).
  split; [exact H|].
  apply (logo_path_clean lower_ascii_only V8_Object_text
           (Some (js "Paris Saint-Germain")) _ H).
  vm_compute. discriminate.
Defined.

(** The scores of 2 - 1 and of a score without a hyphen. *)
Lemma score_texts_sides_witness :
  score_texts (Some (js "2 - 1")) = Some (js "2", js "1")
  ∧ score_texts (Some (js " 3 ")) = Some (js "3", js "0").
Proof.
  destruct (score_texts_sides (js "2 ") (js " 1") (js " 3 ")) as [H1 H2].
  split.
  - apply H1; apply (bool_decide_unpack _); vm_compute; exact I.
  - apply H2.
    + apply (bool_decide_unpack _). vm_compute. exact I.
    + vm_compute. reflexivity.
    + discriminate.
Defined.

(** The sample result is a fixed point of the normaliser, and so is what
    the normaliser makes of a string. *)
Lemma normalizeResponse_fixed_points_witness :
  normalizeResponse (JObj scenario_result) = scenario_result
  ∧ normalizeResponse (JObj (normalizeResponse (JStr (js "text"))))
    = normalizeResponse (JStr (js "text")).
Proof.
  destruct (normalizeResponse_fixed_points scenario_result) as [Hfix Hout].
  split; [|exact (Hout (JStr (js "text")))].
  apply Hfix. split; [|split].
  - eexists. vm_compute. reflexivity.
  - eexists. vm_compute. reflexivity.
  - eexists. split; vm_compute; reflexivity.
Defined.

(** A payload with an answer and no summary. *)
Lemma normalizeResponse_keeps_fields_witness :
  normalizeResponse (record_of "{'answer':'Team A won'}") !! js "summary"
  = Some (JStr (js "Team A won")).
Proof.
  destruct (normalizeResponse_keeps_fields (record_of "{'answer':'Team A won'}"))
    as (_ & _ & H).
  apply H; vm_compute; reflexivity.
Defined.

(** The one card of the sample result. *)
Lemma highlightCards_cards_witness :
  highlightCards (Some scenario_result)
  = [JObj {[ js "title" := JStr (js "Goal highlight") ]}].
Proof.
  destruct (highlightCards_cards scenario_result) as (H & _).
  destruct (H [JStr (js "Goal highlight")]) as (-> & _).
  - vm_compute. reflexivity.
  - reflexivity.
Defined.

(** A card with a url before a null card is found; a null card before
    it makes the search throw. *)
Lemma primaryHighlight_first_witness :
  primaryHighlight
    [JObj {[ js "title" := JStr (js "Goal highlight") ]};
     JObj {[ js "url" := JStr (js "https://youtu.be/abc") ]};
     JNull]
  = Some (Some (JObj {[ js "url" := JStr (js "https://youtu.be/abc") ]}))
  ∧ primaryHighlight
      [JObj {[ js "title" := JStr (js "Goal highlight") ]}; JNull;
       JObj {[ js "url" := JStr (js "https://youtu.be/abc") ]}]
    = None.
Proof.
  split.
  - apply (primaryHighlight_first _). exists 1%nat.
    split; [reflexivity|]. split; [vm_compute; reflexivity|].
    intros [|j] c Hj Hc; [|lia]. injection Hc as <-.
    split; vm_compute; reflexivity.
  - apply (primaryHighlight_first _). exists 1%nat, JNull.
    split; [reflexivity|]. split; [reflexivity|].
    intros [|j] c Hj Hc; [|lia]. injection Hc as <-.
    split; vm_compute; reflexivity.
Defined.

(** The earlier page on a stream of one record without a blank line. *)
Lemma legacy_unterminated_dropped_witness :
  Legacy.stream_updates Json.parse [sse_line progress_line] = []
  ∧ observable
      (Legacy.handleSubmit Json.parse (FetchResponse true true)
         (closed_stream [sse_line progress_line]) initial_state).2
    = ([], None, None).
Proof.
  destruct (legacy_unterminated_dropped Json.parse [sse_line progress_line]
              initial_state) as (_ & H).
  apply H. vm_compute. reflexivity.
Defined.

(** The earlier page on a cancelled request. *)
Lemma legacy_outcomes_witness :
  error (Legacy.handleSubmit Json.parse (FetchRejected AbortError) []
           initial_state).2
  = Some Legacy.COULD_NOT_REACH.
Proof.
  destruct (legacy_outcomes Json.parse [] initial_state) as (_ & _ & H).
  destruct (H (FetchRejected AbortError)) as (_ & He & _).
  - discriminate.
  - exact He.
Defined.

(** A url that is no video link. *)
Lemma embedUrl_result_witness :
  embedUrl no_URL (Some (js "https://example.com/a"))
  = Some (js "https://example.com/a").
Proof.
  destruct (embedUrl_result no_URL (Some (js "https://example.com/a")))
    as (_ & _ & H).
  apply H.
  - reflexivity.
  - discriminate.
  - vm_compute. reflexivity.
  - vm_compute. reflexivity.
Defined.

(** A name without any letter or digit. *)
Lemma logoForTeam_null_iff_witness :
  logoForTeam lower_ascii_only V8_Object_text (Some (js " ?? ")) = None.
Proof.
  destruct (logoForTeam_null_iff lower_ascii_only V8_Object_text
              (Some (js " ?? "))) as ([_ H] & _).
  apply H. vm_compute. reflexivity.
Defined.

(** A live entry and a dead one. *)
Lemma alias_entries_reachable_witness :
  logoForTeam lower_ascii_only V8_Object_text (Some (js "fc barcelona"))
  = Some (js "/logos/barcelona.png")
  ∧ normalizeTeam lower_ascii_only (Some (js "Paris Saint-Germain"))
    ≠ js "paris saint-germain".
Proof.
  destruct (alias_entries_reachable lower_ascii_only V8_Object_text)
    as (_ & Hdead & Hlive).
  split.
  - apply (Hlive (λ s _, eq_refl) (js "fc barcelona") (js "barcelona")).
    + apply (bool_decide_unpack _). vm_compute. exact I.
    + vm_compute. reflexivity.
  - apply (Hdead (Some (js "Paris Saint-Germain"))
             (js "paris saint-germain") (js "psg")).
    + apply (bool_decide_unpack _). vm_compute. exact I.
    + vm_compute. reflexivity.
Defined.

(** ** Renders, the retry button and the unmount at sample inputs *)

(** The button Try Another Query, once rendered, clears the result and
    the log; the session goes on. *)
Example try_another_query_clears :
  let w := default world0 (run Json.parse retry_trace world0) in
  let w' := default world0 (exec Json.parse TryAnotherQuery w) in
  run Json.parse retry_trace world0 = Some w
  ∧ shows_try_another (rendered w) = true
  ∧ thinking (react w) = [fetch_event]
  ∧ exec Json.parse TryAnotherQuery w = Some w'
  ∧ observable (react w') = ([], None, None)
  ∧ loading (react w') = true.
Proof. vm_compute. repeat split; reflexivity. Qed.

(** Without a failed result on the rendered page there is no such
    button. *)
Example try_another_query_absent :
  exec Json.parse TryAnotherQuery world0 = None
  ∧ run Json.parse (removelast retry_trace ++ [TryAnotherQuery]) world0 = None.
Proof. vm_compute. split; reflexivity. Qed.

(** Unmounting aborts the controller of the last render: the call of a
    submission that the page has rendered since is aborted, the call of
    one it has not is left running. *)
Example unmount_aborts_rendered :
  (aborted <$> run Json.parse [Submit; Render; Unmount] world0) = Some {[ 0%nat ]}
  ∧ (aborted <$> run Json.parse [Submit; Unmount] world0) = Some ∅.
Proof. vm_compute. split; reflexivity. Qed.
